(** * DNA Messenger, Qt GUI: conversation synchronisation and rendering

    A shallow embedding of the message-handling slots of
    [src/gui/MainWindow.cpp]:

    - [loadConversation], [loadGroupConversation]  (conversation assembly)
    - [onSendMessage]                              (send path)
    - [checkForNewMessages], [checkForStatusUpdates]  (the two polls)
    - [onAddRecipients], [onContactSelected]       (recipient set, selection)

    The window is a record of the member variables these slots touch.  The
    messenger core, the PostgreSQL connection, the clock and the modal dialog
    are outside the file: they are an interface ([Messenger]) over an abstract
    world [W].  Every call the window makes on the core, the connection and
    the dialog, as well as every message box, sound and tray notification, is
    recorded in a trace; reading the clock leaves no record. *)

From Stdlib Require Import ZArith NArith Ascii String List Bool Lia Sorted Permutation.
From Stdlib Require Import SpecFloat.
From stdpp Require Import base decidable option list gmap.

Local Open Scope Z_scope.

(* ===================================================================== *)
(** ** QString *)
(* ===================================================================== *)

Module Q.

(** A [QString] is a sequence of UTF-16 code units. *)
Definition QChar := N.
Definition QString := list QChar.

(** A C++ literal of Latin-1 characters. *)
Definition lit (s : string) : QString :=
  List.map N_of_ascii (list_ascii_of_string s).

(** [QString::isEmpty]. *)
Definition isEmpty (s : QString) : bool :=
  match s with [] => true | _ :: _ => false end.

(** [operator==] on two strings. *)
Definition eqb (a b : QString) : bool := bool_decide (a = b).

(** [QChar::isSpace]: the ASCII controls TAB..CR, the space, NEL, NBSP and
    the Unicode separators (categories Zs, Zl, Zp) of the basic plane. *)
Definition isSpace (c : QChar) : bool :=
  ((9 <=? c) && (c <=? 13) || (c =? 32) || (c =? 133) || (c =? 160)
   || (c =? 5760) || (8192 <=? c) && (c <=? 8202)
   || (c =? 8232) || (c =? 8233) || (c =? 8239) || (c =? 8287)
   || (c =? 12288))%N.

Fixpoint skipSpaces (s : QString) : QString :=
  match s with
  | [] => []
  | c :: s' => if isSpace c then skipSpaces s' else s
  end.

(** [QString::trimmed]: whitespace removed from the start and the end. *)
Definition trimmed (s : QString) : QString :=
  rev (skipSpaces (rev (skipSpaces s))).

(** [QString::mid(position, n)] for [0 <= position]; a position past the
    end gives the empty string, a length past the end is cut. *)
Definition mid (position n : nat) (s : QString) : QString :=
  firstn n (skipn position s).

(** [QString::mid(position)]: the rest of the string. *)
Definition midFrom (position : nat) (s : QString) : QString :=
  skipn position s.

(** [QString::startsWith]. *)
Definition startsWith (p s : QString) : bool :=
  eqb (firstn (length p) s) p.

(** [QString::toHtmlEscaped]: the four HTML metacharacters
    [<], [>], [&] and the double quote become entities. *)
Definition escapeChar (c : QChar) : QString :=
  if (c =? 60)%N then lit "&lt;"
  else if (c =? 62)%N then lit "&gt;"
  else if (c =? 38)%N then lit "&amp;"
  else if (c =? 34)%N then lit "&quot;"
  else [c].

Definition toHtmlEscaped (s : QString) : QString :=
  List.concat (List.map escapeChar s).

(** [QStringList::contains]. *)
Definition contains (l : list QString) (s : QString) : bool :=
  existsb (eqb s) l.

End Q.

Export Q.

(* ===================================================================== *)
(** ** The literals of the file *)
(* ===================================================================== *)

(** U+1F464 BUST IN SILHOUETTE followed by a space: the prefix of a row of
    the recipient dialog.  The emoji is a surrogate pair, so the prefix is
    three code units long. *)
Definition bustPrefix : QString := [55357; 56420; 32]%N.

(** The text shown for a message the local identity may not decrypt. *)
Definition encryptedText : QString := lit "[encrypted]".

(** U+1F512 LOCK and [" [decryption failed]"]. *)
Definition decryptionFailedText : QString :=
  ([55357; 56594]%N ++ lit " [decryption failed]").

(** U+274C CROSS MARK and [" Send Failed"], the title of the error box. *)
Definition sendFailedTitle : QString := (10060%N :: lit " Send Failed").

(* ===================================================================== *)
(** ** [int] and [double] *)
(* ===================================================================== *)

Definition INT_MIN : Z := -2147483648.
Definition INT_MAX : Z := 2147483647.

(** The values of an [int]. *)
Definition fitsInt (z : Z) : Prop := INT_MIN <= z <= INT_MAX.

(** A wider integer cut to an [int]: two's complement wrap-around. *)
Definition toInt32 (z : Z) : Z := (z + 2147483648) mod 4294967296 - 2147483648.

(** [atoi] of the decimal text of [z], as the C library of the Unix build
    reads it: [(int) strtol (text, NULL, 10)], where [strtol] stops at
    [LONG_MIN] and [LONG_MAX].  The text of an [int] is read back as it
    is; beyond, the C standard promises nothing. *)
Definition atoi (z : Z) : Z :=
  toInt32 (Z.max (-9223372036854775808) (Z.min 9223372036854775807 z)).

(** A [double] is a binary64 number. *)
Definition double : Type := spec_float.

(** An [int] as a [double]; the conversion is exact. *)
Definition ofInt (n : Z) : double :=
  match n with
  | Z0 => S754_zero false
  | Zpos p => S754_finite false p 0
  | Zneg p => S754_finite true p 0
  end.

(** The product of two [double]s, rounded to nearest even. *)
Definition dmul (a b : double) : double := SFmul 53 1024 a b.

(** The integer part of a finite [double]. *)
Definition integerPart (x : double) : option Z :=
  match x with
  | S754_zero _ => Some 0
  | S754_finite negative m e =>
      let magnitude :=
        if 0 <=? e then Zpos m * 2 ^ e else Zpos m / 2 ^ (- e) in
      Some (if negative then - magnitude else magnitude)
  | S754_infinity _ | S754_nan => None
  end.

(** [static_cast<int>]: the fraction is dropped.  For a value with no
    [int], an infinity or a NaN the C++ standard promises nothing; the
    conversion instruction of x86-64 leaves [INT_MIN]. *)
Definition castToInt (x : double) : Z :=
  match integerPart x with
  | Some z => if (INT_MIN <=? z) && (z <=? INT_MAX) then z else INT_MIN
  | None => INT_MIN
  end.

(** [static_cast<int>(n * fontScale)] *)
Definition scaled (n : Z) (scale : double) : Z :=
  castToInt (dmul (ofInt n) scale).

(* ===================================================================== *)
(** ** Data of the messenger core *)
(* ===================================================================== *)

(** [message_info_t], the fields the window reads.  [mi_status] is a
    nullable C string. *)
Record message_info := {
  mi_id        : Z;
  mi_sender    : QString;
  mi_recipient : QString;
  mi_timestamp : QString;
  mi_status    : option QString
}.

(** A row of the [messages] table, the columns the two raw queries of the
    window select or test. *)
Record message_row := {
  row_id         : Z;
  row_sender     : QString;
  row_recipient  : QString;
  row_created_at : QString;
  row_status     : option QString
}.

Inductive ContactType := TYPE_CONTACT | TYPE_GROUP.

(* ===================================================================== *)
(** ** Status check marks *)
(* ===================================================================== *)

(** The three presentation states of a sent message. *)
Inductive StatusBadge := BadgePending | BadgeDelivered | BadgeRead.

(** [<span style='color: C;'>] with one or two check marks. *)
Record Span := { span_color : QString; span_ticks : nat }.

(** [messages[i].status ? QString::fromUtf8(messages[i].status) : "sent"] *)
Definition statusOrSent (raw : option QString) : QString :=
  match raw with
  | Some s => s
  | None => lit "sent"
  end.

(** The branch taken by the [if (status == "read") ... else if
    (status == "delivered") ... else ...] chain of [loadConversation]. *)
Definition classifyStatus (raw : option QString) : StatusBadge :=
  let status := statusOrSent raw in
  if Q.eqb status (lit "read") then BadgeRead
  else if Q.eqb status (lit "delivered") then BadgeDelivered
  else BadgePending.

(** The mark each branch produces: coloured double mark (the colour follows
    the theme), grey double mark, grey single mark. *)
Definition badgeSpan (theme : QString) (b : StatusBadge) : Span :=
  match b with
  | BadgeRead =>
      if Q.eqb theme (lit "club")
      then {| span_color := lit "#FF8C42"; span_ticks := 2 |}
      else {| span_color := lit "#00D9FF"; span_ticks := 2 |}
  | BadgeDelivered => {| span_color := lit "#888888"; span_ticks := 2 |}
  | BadgePending => {| span_color := lit "#888888"; span_ticks := 1 |}
  end.

Definition statusCheckmark (theme : QString) (raw : option QString) : Span :=
  badgeSpan theme (classifyStatus raw).

(** The constant mark of group conversations and of a message just sent. *)
Definition sentCheckmark : Span :=
  {| span_color := lit "#888888"; span_ticks := 1 |}.

(* ===================================================================== *)
(** ** The message display *)
(* ===================================================================== *)

(** [messageDisplay] is a rich-text view: [clear] empties it, [setHtml]
    replaces its content, [append] adds a paragraph.  A paragraph is one of
    the HTML templates of the file with the arguments given to its [arg]
    calls, in their order: the pixel sizes, the names, the time, the check
    mark and the text.  The emoji and bullets, constant per template, are
    left out.  [club] tells the orange template from the cyan one; [text]
    is the message text after [toHtmlEscaped]. *)
Inductive Block :=
| ConversationHeader (fontSize : Z) (contact : QString)
| GroupHeader (fontSize : Z) (name : option QString)
| NoMessagesYet (fontSize : Z)
| FailedToLoadConversation (fontSize : Z)
| FailedToLoadGroupConversation (fontSize : Z)
| SentBubble (club : bool) (metaFontSize : Z) (timeOnly : QString)
             (checkmark : Span) (messageFontSize : Z) (text : QString)
| ReceivedBubble (club : bool) (metaFontSize : Z) (sender : QString)
                 (timeOnly : QString) (messageFontSize : Z) (text : QString).

(** The texts of [statusLabel] the modelled slots write. *)
Inductive StatusText :=
| StatusInitial
| StatusLoaded (count : nat) (contact : QString)
| StatusErrorLoading
| StatusLoadedGroup (count : nat)
| StatusErrorLoadingGroup
| StatusMessageSent
| StatusSendFailed
| StatusRecipientsAdded (count : nat).

(** The texts of [recipientsLabel] the modelled slots write:
    ["To: " + primary + ", " + others]. *)
Inductive RecipientsText :=
| ToNobody
| ToContacts (primary : QString) (others : list QString).

(* ===================================================================== *)
(** ** The window *)
(* ===================================================================== *)

Record MainWindow := {
  ctx                  : bool;   (* the messenger context is not null *)
  currentIdentity      : QString;
  currentContact       : QString;
  currentGroupId       : Z;
  currentContactType   : ContactType;
  additionalRecipients : list QString;
  lastCheckedMessageId : Z;
  currentTheme         : QString;
  messageDisplay       : list Block;
  messageInput         : QString;
  statusLabel          : StatusText;
  recipientsLabel      : RecipientsText;
  fontScale            : double
}.

Definition set_currentContact v (g : MainWindow) : MainWindow :=
  {| ctx := ctx g; currentIdentity := currentIdentity g;
     currentContact := v; currentGroupId := currentGroupId g;
     currentContactType := currentContactType g;
     additionalRecipients := additionalRecipients g;
     lastCheckedMessageId := lastCheckedMessageId g;
     currentTheme := currentTheme g; messageDisplay := messageDisplay g;
     messageInput := messageInput g; statusLabel := statusLabel g;
     recipientsLabel := recipientsLabel g;
     fontScale := fontScale g |}.

Definition set_additionalRecipients v (g : MainWindow) : MainWindow :=
  {| ctx := ctx g; currentIdentity := currentIdentity g;
     currentContact := currentContact g; currentGroupId := currentGroupId g;
     currentContactType := currentContactType g;
     additionalRecipients := v;
     lastCheckedMessageId := lastCheckedMessageId g;
     currentTheme := currentTheme g; messageDisplay := messageDisplay g;
     messageInput := messageInput g; statusLabel := statusLabel g;
     recipientsLabel := recipientsLabel g;
     fontScale := fontScale g |}.

Definition set_lastCheckedMessageId v (g : MainWindow) : MainWindow :=
  {| ctx := ctx g; currentIdentity := currentIdentity g;
     currentContact := currentContact g; currentGroupId := currentGroupId g;
     currentContactType := currentContactType g;
     additionalRecipients := additionalRecipients g;
     lastCheckedMessageId := v;
     currentTheme := currentTheme g; messageDisplay := messageDisplay g;
     messageInput := messageInput g; statusLabel := statusLabel g;
     recipientsLabel := recipientsLabel g;
     fontScale := fontScale g |}.

Definition set_messageDisplay v (g : MainWindow) : MainWindow :=
  {| ctx := ctx g; currentIdentity := currentIdentity g;
     currentContact := currentContact g; currentGroupId := currentGroupId g;
     currentContactType := currentContactType g;
     additionalRecipients := additionalRecipients g;
     lastCheckedMessageId := lastCheckedMessageId g;
     currentTheme := currentTheme g; messageDisplay := v;
     messageInput := messageInput g; statusLabel := statusLabel g;
     recipientsLabel := recipientsLabel g;
     fontScale := fontScale g |}.

Definition set_messageInput v (g : MainWindow) : MainWindow :=
  {| ctx := ctx g; currentIdentity := currentIdentity g;
     currentContact := currentContact g; currentGroupId := currentGroupId g;
     currentContactType := currentContactType g;
     additionalRecipients := additionalRecipients g;
     lastCheckedMessageId := lastCheckedMessageId g;
     currentTheme := currentTheme g; messageDisplay := messageDisplay g;
     messageInput := v; statusLabel := statusLabel g;
     recipientsLabel := recipientsLabel g;
     fontScale := fontScale g |}.

Definition set_statusLabel v (g : MainWindow) : MainWindow :=
  {| ctx := ctx g; currentIdentity := currentIdentity g;
     currentContact := currentContact g; currentGroupId := currentGroupId g;
     currentContactType := currentContactType g;
     additionalRecipients := additionalRecipients g;
     lastCheckedMessageId := lastCheckedMessageId g;
     currentTheme := currentTheme g; messageDisplay := messageDisplay g;
     messageInput := messageInput g; statusLabel := v;
     recipientsLabel := recipientsLabel g;
     fontScale := fontScale g |}.

Definition set_recipientsLabel v (g : MainWindow) : MainWindow :=
  {| ctx := ctx g; currentIdentity := currentIdentity g;
     currentContact := currentContact g; currentGroupId := currentGroupId g;
     currentContactType := currentContactType g;
     additionalRecipients := additionalRecipients g;
     lastCheckedMessageId := lastCheckedMessageId g;
     currentTheme := currentTheme g; messageDisplay := messageDisplay g;
     messageInput := messageInput g; statusLabel := statusLabel g;
     recipientsLabel := v; fontScale := fontScale g |}.

(** The members as the constructor leaves them, for a session of [identity]
    whose [messenger_init] succeeded and whose saved theme and font scale
    are [theme] and [scale]. *)
Definition newMainWindow (identity theme : QString) (scale : double) :
    MainWindow :=
  {| ctx := true; currentIdentity := identity;
     currentContact := []; currentGroupId := -1;
     currentContactType := TYPE_CONTACT;
     additionalRecipients := [];
     lastCheckedMessageId := 0;
     currentTheme := theme; messageDisplay := [];
     messageInput := []; statusLabel := StatusInitial;
     recipientsLabel := ToNobody; fontScale := scale |}.

(* ===================================================================== *)
(** ** The outside of the window *)
(* ===================================================================== *)

(** A row of the list widget of the recipient dialog. *)
Record ListItem := { item_text : QString; item_selected : bool }.

Inductive DialogCode := Rejected | Accepted.

(** What the user does with the modal dialog: the rows clicked, in order
    (the widget is in [MultiSelection] mode, a click toggles its row), and
    the button that closes it. *)
Record DialogRun := { run_clicks : list nat; run_code : DialogCode }.

(** What leaves the window, in the order it happens. *)
Inductive Event :=
| Call_get_conversation (contact : QString)
| Call_get_group_conversation (groupId : Z)
| Call_get_group_info (groupId : Z)
| Call_decrypt_message (id : Z)
| Call_mark_delivered (id : Z)
| Call_mark_conversation_read (contact : QString)
| Call_send_message (recipients : list QString) (message : QString)
| Call_send_group_message (groupId : Z) (message : QString)
| Call_get_contact_list
| Query_new_messages (recipient : QString) (after : Z)
| Query_status_updates (sender recipient : QString)
| PlaySound
| TrayMessage (sender timestamp : QString)
| WarningBox (title : QString)
| CriticalBox (title : QString)
| ExecRecipientsDialog (items : list ListItem).

(** The collaborators behind [ctx], over a world [W] they may change on
    every call.  A C function that returns [0] and fills its out-parameters
    gives [Some]; any other return value gives [None].  The two send
    functions give their [int] result as it is.

    [pg_messages] is the [messages] table as a statement running on
    [ctx->pg_conn] sees it, [None] when the statement does not end in
    [PGRES_TUPLES_OK].  Ids are those of the table.

    The two raw queries fill [params] with [text.toUtf8().constData()]: a
    pointer into a temporary [QByteArray] that is destroyed at the end of
    the declaration of [params], before [PQexecParams] reads through it.
    The source does not determine what is read then; the world does:
    [read_freed i text w] is the string read through [params[i]], where the
    temporary held [text]. *)
Class Messenger (W : Type) := {
  messenger_get_conversation       : QString -> W -> option (list message_info) * W;
  messenger_get_group_conversation : Z -> W -> option (list message_info) * W;
  messenger_get_group_info         : Z -> W -> option QString * W;
  messenger_decrypt_message        : Z -> W -> option QString * W;
  messenger_mark_delivered         : Z -> W -> unit * W;
  messenger_send_message           : list QString -> QString -> W -> Z * W;
  messenger_send_group_message     : Z -> QString -> W -> Z * W;
  messenger_get_contact_list       : W -> option (list QString) * W;
  pg_messages                      : W -> option (list message_row) * W;
  read_freed                       : nat -> QString -> W -> QString;
  currentTime_HHmm                 : W -> QString * W;
  recipientsDialog_exec            : list ListItem -> W -> DialogRun * W
}.

(* ===================================================================== *)
(** ** The new-message query *)
(* ===================================================================== *)

Fixpoint insertById (r : message_row) (l : list message_row) : list message_row :=
  match l with
  | [] => [r]
  | x :: l' => if row_id r <=? row_id x then r :: l else x :: insertById r l'
  end.

(** [ORDER BY id ASC] *)
Definition orderByIdAsc (l : list message_row) : list message_row :=
  fold_right insertById [] l.

(** [WHERE recipient = $1 AND id > $2] *)
Definition isNewFor (recipient : QString) (after : Z) (r : message_row) : bool :=
  Q.eqb (row_recipient r) recipient && (after <? row_id r).

(** [SELECT id, sender, created_at FROM messages
     WHERE recipient = $1 AND id > $2 ORDER BY id ASC] *)
Definition selectNewMessages (recipient : QString) (after : Z)
    (table : list message_row) : list message_row :=
  orderByIdAsc (List.filter (isNewFor recipient after) table).

(** The ids of some rows as the loop of [checkForNewMessages] has them in
    [msgId]. *)
Definition msgIds (rows : list message_row) : list Z :=
  List.map (fun r => atoi (row_id r)) rows.

(* ===================================================================== *)
(** ** Effects *)
(* ===================================================================== *)

(** The state a slot runs in: the world, the window, and the trace so far. *)
Record Sys (W : Type) := MkSys { world : W; window : MainWindow; trace : list Event }.

Arguments MkSys {W} _ _ _.
Arguments world {W} _.
Arguments window {W} _.
Arguments trace {W} _.

Definition M (W A : Type) : Type := Sys W -> A * Sys W.

Definition ret {W A} (a : A) : M W A := fun s => (a, s).

Definition bind {W A B} (m : M W A) (k : A -> M W B) : M W B :=
  fun s => let '(a, s') := m s in k a s'.

Notation "x <- m ;; k" := (bind m (fun x => k))
  (at level 100, m at next level, right associativity).
Notation "m ;;; k" := (bind m (fun _ => k))
  (at level 100, right associativity).

(** Read the members. *)
Definition this {W} : M W MainWindow := fun s => (window s, s).

(** Assign to a member. *)
Definition assign {W} (f : MainWindow -> MainWindow) : M W unit :=
  fun s => (tt, MkSys (world s) (f (window s)) (trace s)).

(** An output with no answer: a sound, a notification, a message box. *)
Definition emit {W} (e : Event) : M W unit :=
  fun s => (tt, MkSys (world s) (window s) (trace s ++ [e])).

(** A call on a collaborator, recorded as [e]. *)
Definition extern {W A} (e : Event) (f : W -> A * W) : M W A :=
  fun s => let '(a, w) := f (world s) in
           (a, MkSys w (window s) (trace s ++ [e])).

(** A call that leaves no record (the clock). *)
Definition ask {W A} (f : W -> A * W) : M W A :=
  fun s => let '(a, w) := f (world s) in (a, MkSys w (window s) (trace s)).

(** A look at the world that changes nothing. *)
Definition peek {W A} (f : W -> A) : M W A := fun s => (f (world s), s).

(** [for (int i = 0; i < count; i++) body(xs[i])] *)
Fixpoint forEach {W A} (xs : list A) (body : A -> M W unit) : M W unit :=
  match xs with
  | [] => ret tt
  | x :: xs' => body x ;;; forEach xs' body
  end.

(** [messageDisplay->append] *)
Definition append {W} (b : Block) : M W unit :=
  assign (fun g => set_messageDisplay (messageDisplay g ++ [b]) g).

(** [currentTheme == "club"] *)
Definition isClub (g : MainWindow) : bool := Q.eqb (currentTheme g) (lit "club").

(** The three sizes the slots compute from [fontScale] before they build a
    paragraph, and the size of a header, [headerFontSize + 18] in [int]. *)
Definition headerFontSize (g : MainWindow) : Z := scaled 24 (fontScale g).
Definition metaFontSize (g : MainWindow) : Z := scaled 13 (fontScale g).
Definition messageFontSize (g : MainWindow) : Z := scaled 18 (fontScale g).

Definition headerSize (g : MainWindow) : Z := toInt32 (headerFontSize g + 18).

(* ===================================================================== *)
(** ** Conversation assembly *)
(* ===================================================================== *)

Section Slots.

Context {W : Type} `{Messenger W}.

(** The decrypt call and the text it leaves in [messageText]. *)
Definition decryptText (id : Z) : M W QString :=
  p <- extern (Call_decrypt_message id) (messenger_decrypt_message id) ;;
  match p with
  | Some plaintext => ret plaintext
  | None => ret decryptionFailedText
  end.

(** [recipient == currentIdentity || sender == currentIdentity] *)
Definition canDecrypt (g : MainWindow) (m : message_info) : bool :=
  Q.eqb (mi_recipient m) (currentIdentity g) || Q.eqb (mi_sender m) (currentIdentity g).

(** The bubble of a message of a direct conversation, once [messageText]
    is known: aligned right with a status mark for a message of the local
    identity, aligned left under the sender's name otherwise.  The sizes
    are locals set before the loop; no slot writes [fontScale], so they are
    those of the window at any turn. *)
Definition directBubble (g : MainWindow) (m : message_info)
    (messageText : QString) : Block :=
  let sender := mi_sender m in
  let timeOnly := mid 11 5 (mi_timestamp m) in
  if Q.eqb sender (currentIdentity g) then
    SentBubble (isClub g) (metaFontSize g) timeOnly
      (statusCheckmark (currentTheme g) (mi_status m))
      (messageFontSize g) (toHtmlEscaped messageText)
  else
    ReceivedBubble (isClub g) (metaFontSize g) sender timeOnly
      (messageFontSize g) (toHtmlEscaped messageText).

(** One turn of the loop of [loadConversation]. *)
Definition directMessage (m : message_info) : M W unit :=
  g <- this ;;
  messageText <- (if canDecrypt g m then decryptText (mi_id m)
                  else ret encryptedText) ;;
  append (directBubble g m messageText).

Definition loadConversation (contact : QString) : M W unit :=
  assign (set_messageDisplay []) ;;;
  if isEmpty contact then ret tt
  else
    g <- this ;;
    assign (set_messageDisplay [ConversationHeader (headerSize g) contact]) ;;;
    r <- extern (Call_get_conversation contact) (messenger_get_conversation contact) ;;
    match r with
    | Some messages =>
        (match messages with
         | [] => append (NoMessagesYet (messageFontSize g))
         | _ :: _ => forEach messages directMessage
         end) ;;;
        assign (set_statusLabel (StatusLoaded (length messages) contact))
    | None =>
        append (FailedToLoadConversation (messageFontSize g)) ;;;
        assign (set_statusLabel StatusErrorLoading)
    end.

(** The bubble of a message of a group conversation: the status mark is
    the constant single mark. *)
Definition groupBubble (g : MainWindow) (m : message_info)
    (messageText : QString) : Block :=
  let sender := mi_sender m in
  let timeOnly := mid 11 5 (mi_timestamp m) in
  if Q.eqb sender (currentIdentity g) then
    SentBubble (isClub g) (metaFontSize g) timeOnly sentCheckmark
      (messageFontSize g) (toHtmlEscaped messageText)
  else
    ReceivedBubble (isClub g) (metaFontSize g) sender timeOnly
      (messageFontSize g) (toHtmlEscaped messageText).

(** One turn of the loop of [loadGroupConversation]: the initial
    ["[encrypted]"] of [messageText] is overwritten on both branches of the
    decrypt call, which is made for every message. *)
Definition groupMessage (m : message_info) : M W unit :=
  g <- this ;;
  messageText <- decryptText (mi_id m) ;;
  append (groupBubble g m messageText).

Definition loadGroupConversation (groupId : Z) : M W unit :=
  assign (set_messageDisplay []) ;;;
  if groupId <? 0 then ret tt
  else
    g <- this ;;
    info <- extern (Call_get_group_info groupId) (messenger_get_group_info groupId) ;;
    assign (set_messageDisplay [GroupHeader (headerSize g) info]) ;;;
    r <- extern (Call_get_group_conversation groupId)
                (messenger_get_group_conversation groupId) ;;
    match r with
    | Some messages =>
        (match messages with
         | [] => append (NoMessagesYet (messageFontSize g))
         | _ :: _ => forEach messages groupMessage
         end) ;;;
        assign (set_statusLabel (StatusLoadedGroup (length messages)))
    | None =>
        append (FailedToLoadGroupConversation (messageFontSize g)) ;;;
        assign (set_statusLabel StatusErrorLoadingGroup)
    end.

(* ===================================================================== *)
(** ** Sending *)
(* ===================================================================== *)

(** The recipient list of [onSendMessage]: [currentContact] and then
    [additionalRecipients]. *)
Definition sendRecipients (g : MainWindow) : list QString :=
  currentContact g :: additionalRecipients g.

Definition isGroupType (t : ContactType) : bool :=
  match t with TYPE_GROUP => true | TYPE_CONTACT => false end.

Definition isContactType (t : ContactType) : bool :=
  match t with TYPE_CONTACT => true | TYPE_GROUP => false end.

(** The send call of [onSendMessage]; [None] is the early [return] of the
    branch with no selection. *)
Definition sendCall (g : MainWindow) (message : QString) : M W (option Z) :=
  if isGroupType (currentContactType g) && (0 <=? currentGroupId g) then
    result <- extern (Call_send_group_message (currentGroupId g) message)
                     (messenger_send_group_message (currentGroupId g) message) ;;
    ret (Some result)
  else if isContactType (currentContactType g) && negb (isEmpty (currentContact g)) then
    result <- extern (Call_send_message (sendRecipients g) message)
                     (messenger_send_message (sendRecipients g) message) ;;
    ret (Some result)
  else
    emit (WarningBox (lit "No Selection")) ;;;
    ret None.

Definition onSendMessage : M W unit :=
  g <- this ;;
  let message := trimmed (messageInput g) in
  if isEmpty message then ret tt
  else
    sent <- sendCall g message ;;
    match sent with
    | None => ret tt
    | Some result =>
        if result =? 0 then
          timestamp <- ask currentTime_HHmm ;;
          append (SentBubble (isClub g) (metaFontSize g) timestamp sentCheckmark
                    (messageFontSize g) (toHtmlEscaped message)) ;;;
          assign (set_messageInput []) ;;;
          assign (set_statusLabel StatusMessageSent)
        else
          emit (CriticalBox sendFailedTitle) ;;;
          assign (set_statusLabel StatusSendFailed)
    end.

(* ===================================================================== *)
(** ** Polling for new messages *)
(* ===================================================================== *)

(** One turn of the loop of [checkForNewMessages]; [msgId] is an [int]. *)
Definition newMessage (r : message_row) : M W unit :=
  let msgId := atoi (row_id r) in
  let sender := row_sender r in
  let timestamp := row_created_at r in
  g <- this ;;
  (if lastCheckedMessageId g <? msgId
   then assign (set_lastCheckedMessageId msgId) else ret tt) ;;;
  extern (Call_mark_delivered msgId) (messenger_mark_delivered msgId) ;;;
  emit PlaySound ;;;
  emit (TrayMessage sender timestamp) ;;;
  if Q.eqb (currentContact g) sender then loadConversation (currentContact g)
  else ret tt.

Definition checkForNewMessages : M W unit :=
  g <- this ;;
  if negb (ctx g) || isEmpty (currentIdentity g) then ret tt
  else
    recipient <- peek (read_freed 0 (currentIdentity g)) ;;
    res <- extern (Query_new_messages recipient (lastCheckedMessageId g))
                  pg_messages ;;
    match res with
    | None => ret tt
    | Some table =>
        forEach (selectNewMessages recipient (lastCheckedMessageId g) table)
                newMessage
    end.

(* ===================================================================== *)
(** ** Additional recipients *)
(* ===================================================================== *)

(** The rows the dialog is filled with: every contact but the current one
    and the local identity, selected when already an additional recipient. *)
Definition dialogItems (g : MainWindow) (identities : list QString) : list ListItem :=
  List.map
    (fun contact =>
       {| item_text := bustPrefix ++ contact;
          item_selected := contains (additionalRecipients g) contact |})
    (List.filter
       (fun contact => negb (Q.eqb contact (currentContact g))
                       && negb (Q.eqb contact (currentIdentity g)))
       identities).

(** A click on row [i]; there is nothing to click past the last row. *)
Fixpoint toggleRow (i : nat) (items : list ListItem) : list ListItem :=
  match items, i with
  | [], _ => []
  | it :: rest, O =>
      {| item_text := item_text it; item_selected := negb (item_selected it) |} :: rest
  | it :: rest, S j => it :: toggleRow j rest
  end.

Definition afterClicks (clicks : list nat) (items : list ListItem) : list ListItem :=
  fold_left (fun its i => toggleRow i its) clicks items.

(** The text of a row without its prefix. *)
Definition stripPrefix (text : QString) : QString :=
  if startsWith bustPrefix text then midFrom 3 text else text.

(** The loop that refills [additionalRecipients] from the selected rows. *)
Definition selectedContacts (items : list ListItem) : list QString :=
  List.map (fun it => stripPrefix (item_text it))
           (List.filter item_selected items).

Definition onAddRecipients : M W unit :=
  g <- this ;;
  if isEmpty (currentContact g) then emit (WarningBox (lit "No Contact Selected"))
  else
    r <- extern Call_get_contact_list messenger_get_contact_list ;;
    let items := dialogItems g (match r with Some l => l | None => [] end) in
    run <- extern (ExecRecipientsDialog items) (recipientsDialog_exec items) ;;
    match run_code run with
    | Rejected => ret tt
    | Accepted =>
        let chosen := selectedContacts (afterClicks (run_clicks run) items) in
        assign (set_additionalRecipients chosen) ;;;
        assign (set_recipientsLabel (ToContacts (currentContact g) chosen)) ;;;
        assign (set_statusLabel (StatusRecipientsAdded (length chosen)))
    end.

End Slots.

(** The state a computation ends in, and the events it adds to the trace. *)
Definition after {W A} (m : M W A) (s : Sys W) : Sys W := snd (m s).

Definition eventsOf {W A} (m : M W A) (s : Sys W) : list Event :=
  drop (length (trace s)) (trace (after m s)).

(* ===================================================================== *)
(** ** Conversation targets *)
(* ===================================================================== *)

(** The conversation a window can show: a contact or a group.  The window
    keeps it as [currentContactType] with [currentContact] or
    [currentGroupId]; a target the assemblers accept has a non-empty name or
    a non-negative id. *)
Inductive ConversationTarget :=
| Contact (identity : QString)
| Group (groupId : Z).

Definition validTarget (t : ConversationTarget) : bool :=
  match t with
  | Contact c => negb (isEmpty c)
  | Group gid => 0 <=? gid
  end.

Section Targets.

Context {W : Type} `{Messenger W}.

(** The assembler of a target. *)
Definition assemble (t : ConversationTarget) : M W unit :=
  match t with
  | Contact c => loadConversation c
  | Group gid => loadGroupConversation gid
  end.

(** What the store read of [assemble t] answers when started in [s]; the
    group assembler reads the message set after the group metadata. *)
Definition storeRead (t : ConversationTarget) (s : Sys W) : option (list message_info) :=
  match t with
  | Contact c => fst (messenger_get_conversation c (world s))
  | Group gid =>
      fst (messenger_get_group_conversation gid
             (snd (messenger_get_group_info gid (world s))))
  end.

(** The header [assemble t] starts the display with. *)
Definition headerOf (t : ConversationTarget) (s : Sys W) : Block :=
  match t with
  | Contact c => ConversationHeader (headerSize (window s)) c
  | Group gid =>
      GroupHeader (headerSize (window s))
        (fst (messenger_get_group_info gid (world s)))
  end.

(** The paragraph [assemble t] shows when the store read fails. *)
Definition failureOf (t : ConversationTarget) (s : Sys W) : Block :=
  match t with
  | Contact _ => FailedToLoadConversation (messageFontSize (window s))
  | Group _ => FailedToLoadGroupConversation (messageFontSize (window s))
  end.

(** The paragraph [assemble t] shows for a conversation with no message. *)
Definition emptyOf (s : Sys W) : Block :=
  NoMessagesYet (messageFontSize (window s)).

(** The status label [assemble t] leaves after reading [n] messages. *)
Definition loadedStatus (t : ConversationTarget) (n : nat) : StatusText :=
  match t with
  | Contact c => StatusLoaded n c
  | Group _ => StatusLoadedGroup n
  end.

(** The recipient the new-message query of [checkForNewMessages] started
    in [s] is run for: what is read where the bytes of [currentIdentity]
    were. *)
Definition queriedRecipient (s : Sys W) : QString :=
  read_freed 0 (currentIdentity (window s)) (world s).

(** The rows one run of [checkForNewMessages] started in [s] gets back. *)
Definition polledRows (s : Sys W) : list message_row :=
  let g := window s in
  if negb (ctx g) || isEmpty (currentIdentity g) then []
  else match fst (pg_messages (world s)) with
       | None => []
       | Some table =>
           selectNewMessages (queriedRecipient s) (lastCheckedMessageId g) table
       end.

(** The timer fires in a state [s] the rest of the program has left behind;
    the cursor is written by [checkForNewMessages] alone, so it is the one
    the previous tick ended with. *)
Definition atTick (cursor : Z) (s : Sys W) : Sys W :=
  MkSys (world s) (set_lastCheckedMessageId cursor (window s)) (trace s).

Definition tick (cursor : Z) (s : Sys W) : Z :=
  lastCheckedMessageId (window (after checkForNewMessages (atTick cursor s))).

(** The cursor after a sequence of ticks. *)
Fixpoint runTicks (cursor : Z) (ticks : list (Sys W)) : Z :=
  match ticks with
  | [] => cursor
  | s :: rest => runTicks (tick cursor s) rest
  end.

(** The ids of the rows the polls of a sequence of ticks got back, as the
    table has them. *)
Fixpoint returnedIds (cursor : Z) (ticks : list (Sys W)) : list Z :=
  match ticks with
  | [] => []
  | s :: rest =>
      List.map row_id (polledRows (atTick cursor s))
      ++ returnedIds (tick cursor s) rest
  end.

(** The same ids as the loop has them in [msgId], after [atoi]. *)
Fixpoint observedIds (cursor : Z) (ticks : list (Sys W)) : list Z :=
  match ticks with
  | [] => []
  | s :: rest =>
      msgIds (polledRows (atTick cursor s))
      ++ observedIds (tick cursor s) rest
  end.

(** The modal dialog of [onAddRecipients] started in [s]: the rows offered
    and what the user does with them. *)
Definition offeredItems (s : Sys W) : list ListItem :=
  dialogItems (window s)
    (match fst (messenger_get_contact_list (world s)) with
     | Some l => l
     | None => []
     end).

Definition dialogRunOf (s : Sys W) : DialogRun :=
  fst (recipientsDialog_exec (offeredItems s)
         (snd (messenger_get_contact_list (world s)))).

(** The result of the send call [onSendMessage] makes when started in [s];
    [None] when it makes none (blank input, or nothing selected). *)
Definition sendResultOf (s : Sys W) : option Z :=
  let g := window s in
  let message := trimmed (messageInput g) in
  if isEmpty message then None else fst (sendCall g message s).

End Targets.

(** The greatest of [base] and the elements of a list. *)
Definition maxFrom (base : Z) (l : list Z) : Z := fold_right Z.max base l.

(** The notifications and the mark-delivered calls among some events. *)
Definition notifications (evs : list Event) : list (QString * QString) :=
  flat_map (fun e => match e with
                     | TrayMessage sender timestamp => [(sender, timestamp)]
                     | _ => []
                     end) evs.

Definition markedDelivered (evs : list Event) : list Z :=
  flat_map (fun e => match e with
                     | Call_mark_delivered id => [id]
                     | _ => []
                     end) evs.


Definition reloads (evs : list Event) : list QString :=
  flat_map (fun e => match e with
                     | Call_get_conversation c => [c]
                     | _ => []
                     end) evs.

(* ===================================================================== *)
(** ** A scripted world *)
(* ===================================================================== *)

Module Script.

(** A world that answers from a fixed script and never changes. *)
Record World := {
  conversation       : QString -> option (list message_info);
  group_conversation : Z -> option (list message_info);
  group_info         : Z -> option QString;
  plaintext          : Z -> option QString;
  send_result        : Z;
  contacts           : option (list QString);
  table              : option (list message_row);
  freed              : nat -> QString -> QString;
  clock              : QString;
  wanted             : list QString;   (* whom the user means to select *)
  accepts            : DialogCode
}.

(** Freed memory that still holds what it held. *)
Definition untouched (i : nat) (text : QString) : QString := text.

(** The user clicks the rows that are not yet as wanted. *)
Fixpoint clicksFor (wanted : list QString) (i : nat) (items : list ListItem) : list nat :=
  match items with
  | [] => []
  | it :: rest =>
      if Bool.eqb (contains wanted (stripPrefix (item_text it))) (item_selected it)
      then clicksFor wanted (S i) rest
      else i :: clicksFor wanted (S i) rest
  end.

#[global] Instance messenger : Messenger World := {|
  messenger_get_conversation c w := (conversation w c, w);
  messenger_get_group_conversation gid w := (group_conversation w gid, w);
  messenger_get_group_info gid w := (group_info w gid, w);
  messenger_decrypt_message id w := (plaintext w id, w);
  messenger_mark_delivered _ w := (tt, w);
  messenger_send_message _ _ w := (send_result w, w);
  messenger_send_group_message _ _ w := (send_result w, w);
  messenger_get_contact_list w := (contacts w, w);
  pg_messages w := (table w, w);
  read_freed i text w := freed w i text;
  currentTime_HHmm w := (clock w, w);
  recipientsDialog_exec items w :=
    ({| run_clicks := clicksFor (wanted w) 0 items; run_code := accepts w |}, w)
|}.

Definition alice : QString := lit "alice".
Definition bob : QString := lit "bob".
Definition carol : QString := lit "carol".

(** A world with nothing in it and nothing working. *)
Definition silent : World := {|
  conversation _ := None;
  group_conversation _ := None;
  group_info _ := None;
  plaintext _ := None;
  send_result := -1;
  contacts := None;
  table := None; freed := untouched;
  clock := lit "12:00";
  wanted := [];
  accepts := Rejected
|}.

(** The font scale 3.0, the default of the constructor. *)
Definition large : double := ofInt 3.

(** A fresh window of alice. *)
Definition fresh : MainWindow := newMainWindow alice (lit "io") large.

(** A fresh window of alice over a world. *)
Definition start (w : World) : Sys World := MkSys w fresh [].

(** Three messages: one to alice, one from alice, one between others. *)
Definition fromBob : message_info :=
  {| mi_id := 1; mi_sender := bob; mi_recipient := alice;
     mi_timestamp := lit "2025-01-01 10:30:00"; mi_status := Some (lit "read") |}.

Definition toBob : message_info :=
  {| mi_id := 2; mi_sender := alice; mi_recipient := bob;
     mi_timestamp := lit "2025-01-01 10:31:00";
     mi_status := Some (lit "delivered") |}.

Definition bobToCarol : message_info :=
  {| mi_id := 3; mi_sender := bob; mi_recipient := carol;
     mi_timestamp := lit "2025-01-01 10:32:00"; mi_status := None |}.

(** The three messages are the conversation with bob and the conversation
    of group 5; message 1 decrypts to "hi", message 3 to "hi all", message 2
    does not decrypt.  Carol has no messages yet; nothing else can be read. *)
Definition chat : World := {|
  conversation c :=
    if Q.eqb c bob then Some [fromBob; toBob; bobToCarol]
    else if Q.eqb c carol then Some []
    else None;
  group_conversation gid :=
    if gid =? 5 then Some [fromBob; toBob; bobToCarol]
    else if gid =? 6 then Some []
    else None;
  group_info gid := if gid =? 5 then Some (lit "friends") else None;
  plaintext id :=
    if id =? 1 then Some (lit "hi")
    else if id =? 3 then Some (lit "hi all")
    else None;
  send_result := -1;
  contacts := Some [alice; bob; carol];
  table := None; freed := untouched;
  clock := lit "12:00";
  wanted := [carol; alice];
  accepts := Accepted
|}.

(** A table with two rows for alice, stored out of order, and one row for
    carol; alice's fresh window over it. *)
Definition threeRows : list message_row :=
  [{| row_id := 3; row_sender := carol; row_recipient := alice;
      row_created_at := lit "2025-01-01 10:33:00"; row_status := None |};
   {| row_id := 1; row_sender := bob; row_recipient := alice;
      row_created_at := lit "2025-01-01 10:30:00"; row_status := None |};
   {| row_id := 2; row_sender := bob; row_recipient := carol;
      row_created_at := lit "2025-01-01 10:32:00"; row_status := None |}].

Definition busy : Sys World :=
  start {| conversation _ := None; group_conversation _ := None;
           group_info _ := None; plaintext _ := None; send_result := 0;
           contacts := None; table := Some threeRows; freed := untouched;
           clock := lit "12:00";
           wanted := []; accepts := Rejected |}.

(** Alice's fresh window over [chat]. *)
Definition opened : Sys World := start chat.

(** Alice has bob's conversation open and has typed a message; sends fail
    in [chat]. *)
Definition composing : Sys World :=
  MkSys chat
    (set_messageInput (lit " hello ")
       (set_currentContact bob fresh))
    [].

(** Alice has bob's conversation open and no additional recipients; in
    [chat] the contact list is alice, bob, carol, and the user means to
    select carol and alice and presses OK. *)
Definition withBob : Sys World :=
  MkSys chat (set_currentContact bob fresh) [].

(** Alice has typed only blanks. *)
Definition idle : Sys World :=
  MkSys chat
    (set_messageInput (lit "   ")
       (set_currentContact bob fresh))
    [].

(** The table of scenario A, and alice's fresh window over it. *)
Definition oneRow : list message_row :=
  [{| row_id := 1; row_sender := bob; row_recipient := alice;
      row_created_at := lit "2025-01-01 10:30:00";
      row_status := Some (lit "read") |}].

Definition scenarioA : Sys World :=
  start {| conversation _ := None; group_conversation _ := None;
           group_info _ := None; plaintext _ := None; send_result := 0;
           contacts := None; table := Some oneRow; freed := untouched;
           clock := lit "12:00";
           wanted := []; accepts := Rejected |}.

End Script.

(* ===================================================================== *)
(** ** Vocabulary of the statements *)
(* ===================================================================== *)

(** What became of the decryption of one message, and the text it leaves
    in [messageText]. *)
Inductive DecryptOutcome :=
| NotAttempted
| Decrypted (plaintext : QString)
| DecryptFailed.

Definition messageTextOf (o : DecryptOutcome) : QString :=
  match o with
  | NotAttempted => encryptedText
  | Decrypted plaintext => plaintext
  | DecryptFailed => decryptionFailedText
  end.

(** [b] is the bubble of [m] in a direct conversation of window [g];
    decryption is left out exactly when the gate stops the message. *)
Definition rendersDirect (g : MainWindow) (m : message_info) (b : Block) : Prop :=
  exists o,
    b = directBubble g m (messageTextOf o)
    /\ (o = NotAttempted <-> canDecrypt g m = false).

(** [b] is the bubble of [m] in a group conversation of window [g];
    decryption is never left out. *)
Definition rendersGroup (g : MainWindow) (m : message_info) (b : Block) : Prop :=
  exists o,
    b = groupBubble g m (messageTextOf o) /\ o <> NotAttempted.

(** [g'] is [g] but for the message display and the status label. *)
Definition redrawn (g g' : MainWindow) : Prop :=
  g' = set_statusLabel (statusLabel g') (set_messageDisplay (messageDisplay g') g).

(** [g'] is [g] but for the message display, the status label and the
    poll cursor. *)
Definition polled (g g' : MainWindow) : Prop :=
  g' = set_lastCheckedMessageId (lastCheckedMessageId g')
         (set_statusLabel (statusLabel g')
            (set_messageDisplay (messageDisplay g') g)).

(** The notification a polled row gives rise to. *)
Definition noticeOf (r : message_row) : QString * QString :=
  (row_sender r, row_created_at r).

(** The events of a conversation load. *)
Definition loadEvent (e : Event) : Prop :=
  match e with
  | Call_get_conversation _ | Call_decrypt_message _ => True
  | _ => False
  end.


(* ===================================================================== *)
(** ** More of the window: selection and status polling *)
(* ===================================================================== *)

Definition set_currentGroupId v (g : MainWindow) : MainWindow :=
  {| ctx := ctx g; currentIdentity := currentIdentity g;
     currentContact := currentContact g; currentGroupId := v;
     currentContactType := currentContactType g;
     additionalRecipients := additionalRecipients g;
     lastCheckedMessageId := lastCheckedMessageId g;
     currentTheme := currentTheme g; messageDisplay := messageDisplay g;
     messageInput := messageInput g; statusLabel := statusLabel g;
     recipientsLabel := recipientsLabel g;
     fontScale := fontScale g |}.

Definition set_currentContactType v (g : MainWindow) : MainWindow :=
  {| ctx := ctx g; currentIdentity := currentIdentity g;
     currentContact := currentContact g; currentGroupId := currentGroupId g;
     currentContactType := v;
     additionalRecipients := additionalRecipients g;
     lastCheckedMessageId := lastCheckedMessageId g;
     currentTheme := currentTheme g; messageDisplay := messageDisplay g;
     messageInput := messageInput g; statusLabel := statusLabel g;
     recipientsLabel := recipientsLabel g;
     fontScale := fontScale g |}.

(** An entry of [contactItems]. *)
Record ContactItem := {
  ci_type    : ContactType;
  ci_name    : QString;
  ci_groupId : Z
}.

(** [group_info_t], the fields [loadContacts] reads. *)
Record group_info_t := { gi_id : Z; gi_name : QString }.

(** U+1F465 BUSTS IN SILHOUETTE followed by a space: the prefix of a group
    row of the contact list. *)
Definition groupPrefix : QString := [55357; 56421; 32]%N.

(** The text [onContactSelected] puts in [recipientsLabel] for a group,
    ["To: Group - " + name]: the text of [ToContacts] for the one name
    ["Group - " + name]. *)
Definition toGroupText (name : QString) : RecipientsText :=
  ToContacts (lit "Group - " ++ name) [].

(** One more collaborator behind [ctx]. *)
Class ReadMarker (W : Type) := {
  messenger_mark_conversation_read : QString -> W -> unit * W
}.

(** [status IN ('delivered', 'read')]; a NULL status is in no list. *)
Definition isDeliveredOrRead (r : message_row) : bool :=
  match row_status r with
  | Some status => Q.eqb status (lit "delivered") || Q.eqb status (lit "read")
  | None => false
  end.

(** [SELECT COUNT( * ) FROM messages WHERE sender = $1 AND recipient = $2
     AND status IN ('delivered', 'read')] *)
Definition countStatusUpdates (sender recipient : QString)
    (table : list message_row) : Z :=
  Z.of_nat (length (List.filter
                      (fun r => Q.eqb (row_sender r) sender
                                && Q.eqb (row_recipient r) recipient
                                && isDeliveredOrRead r)
                      table)).

Section MoreSlots.

Context {W : Type} `{Messenger W} `{ReadMarker W}.

(** The statement runs on the connection of the new-message query, for
    the two strings read where the bytes of [currentIdentity] and
    [currentContact] were; [statusCount] is an [int]. *)
Definition checkForStatusUpdates : M W unit :=
  g <- this ;;
  if negb (ctx g) || isEmpty (currentContact g) then ret tt
  else
    sender <- peek (read_freed 0 (currentIdentity g)) ;;
    recipient <- peek (read_freed 1 (currentContact g)) ;;
    res <- extern (Query_status_updates sender recipient) pg_messages ;;
    match res with
    | None => ret tt
    | Some table =>
        let statusCount := atoi (countStatusUpdates sender recipient table) in
        if 0 <? statusCount then loadConversation (currentContact g)
        else ret tt
    end.

(** [item] is the row clicked ([None] for a null pointer), as its text;
    [contactItems] is the member [loadContacts] fills. *)
Definition onContactSelected (contactItems : gmap QString ContactItem)
    (item : option QString) : M W unit :=
  match item with
  | None => ret tt
  | Some itemText =>
      match contactItems !! itemText with
      | None => ret tt
      | Some contactItem =>
          assign (set_currentContactType (ci_type contactItem)) ;;;
          assign (set_additionalRecipients []) ;;;
          match ci_type contactItem with
          | TYPE_CONTACT =>
              assign (set_currentContact (ci_name contactItem)) ;;;
              assign (set_currentGroupId (-1)) ;;;
              assign (set_recipientsLabel (ToContacts (ci_name contactItem) [])) ;;;
              extern (Call_mark_conversation_read (ci_name contactItem))
                     (messenger_mark_conversation_read (ci_name contactItem)) ;;;
              loadConversation (ci_name contactItem)
          | TYPE_GROUP =>
              assign (set_currentContact []) ;;;
              assign (set_currentGroupId (ci_groupId contactItem)) ;;;
              assign (set_recipientsLabel (toGroupText (ci_name contactItem))) ;;;
              loadGroupConversation (ci_groupId contactItem)
          end
      end
  end.

(** What can happen to the window: a slot runs, or the user edits the
    input line. *)
Inductive Slot :=
| ContactSelected (contactItems : gmap QString ContactItem) (item : option QString)
| AddRecipients
| SendMessage
| NewMessagesTick
| StatusTick
| InputEdited (text : QString).

Definition runSlot (a : Slot) : M W unit :=
  match a with
  | ContactSelected contactItems item => onContactSelected contactItems item
  | AddRecipients => onAddRecipients
  | SendMessage => onSendMessage
  | NewMessagesTick => checkForNewMessages
  | StatusTick => checkForStatusUpdates
  | InputEdited text => assign (set_messageInput text)
  end.

(** The states a session goes through: it starts with the window of the
    constructor; the world changes on its own; slots run. *)
Inductive reachable : Sys W -> Prop :=
| reachable_start identity theme scale w :
    reachable (MkSys w (newMainWindow identity theme scale) [])
| reachable_outside s w :
    reachable s -> reachable (MkSys w (window s) (trace s))
| reachable_slot s a :
    reachable s -> reachable (after (runSlot a) s).

End MoreSlots.

(* ===================================================================== *)
(** ** The contact list *)
(* ===================================================================== *)

(** The two loops of [loadContacts]: the rows added to [contactList] and
    the entries stored in [contactItems], from the answers of
    [messenger_get_contact_list] and [messenger_get_groups] ([None] when
    the call does not return 0).  The status label of [loadContacts] is not
    part of this. *)
Definition addContactRow (acc : list QString * gmap QString ContactItem)
    (identity : QString) : list QString * gmap QString ContactItem :=
  let displayText := bustPrefix ++ identity in
  (acc.1 ++ [displayText],
   <[displayText := {| ci_type := TYPE_CONTACT; ci_name := identity;
                       ci_groupId := -1 |}]> (acc.2)).

Definition addGroupRow (acc : list QString * gmap QString ContactItem)
    (group : group_info_t) : list QString * gmap QString ContactItem :=
  let displayText := groupPrefix ++ gi_name group in
  (acc.1 ++ [displayText],
   <[displayText := {| ci_type := TYPE_GROUP; ci_name := gi_name group;
                       ci_groupId := gi_id group |}]> (acc.2)).

Definition fillContacts (identities : option (list QString))
    (groups : option (list group_info_t)) :
    list QString * gmap QString ContactItem :=
  let withContacts :=
    match identities with
    | Some l => fold_left addContactRow l ([], ∅)
    | None => ([], ∅)
    end in
  match groups with
  | Some l => fold_left addGroupRow l withContacts
  | None => withContacts
  end.

(* ===================================================================== *)
(** ** The local identity *)
(* ===================================================================== *)

Definition keySuffix : QString := lit "-dilithium.pqkey".

(** [QString::endsWith] *)
Definition endsWith (suffix s : QString) : bool :=
  Q.eqb (skipn (length s - length suffix) s) suffix.

(** [QString::left] *)
Definition leftOf (n : nat) (s : QString) : QString := firstn n s.

Fixpoint upToSlash (s : QString) : QString :=
  match s with
  | [] => []
  | c :: s' => if (c =? 47)%N then [] else c :: upToSlash s'
  end.

(** [QFileInfo::fileName]: what follows the last slash of the path. *)
Definition fileName (path : QString) : QString :=
  rev (upToSlash (rev path)).

(** [getLocalIdentity], the branch for Unix.  [dnaDirExists] is
    [dnaDir.exists()]; [globResult] is the list of paths [glob] finds for
    [~/.dna/*-dilithium.pqkey], [None] when it does not return 0. *)
Definition getLocalIdentity (dnaDirExists : bool)
    (globResult : option (list QString)) : QString :=
  if negb dnaDirExists then []
  else
    match globResult with
    | Some (path :: _) =>
        let filename := fileName path in
        if endsWith keySuffix filename
        then leftOf (length filename - 16) filename
        else []
    | _ => []
    end.

(* ===================================================================== *)
(** ** The update check *)
(* ===================================================================== *)

(** [QString::split(sep)]: the parts between separators, empty ones kept. *)
Fixpoint split (sep : QChar) (s : QString) : list QString :=
  match s with
  | [] => [[]]
  | c :: s' =>
      if (c =? sep)%N then [] :: split sep s'
      else match split sep s' with
           | part :: parts => (c :: part) :: parts
           | [] => [[c]]
           end
  end.

(** [QString::contains(QChar)] *)
Definition containsChar (c : QChar) (s : QString) : bool :=
  existsb (fun x => (x =? c)%N) s.

(** How [onCheckForUpdates] ends, before anything is installed. *)
Inductive UpdateCheck :=
| ReadmeFetchFailed
| CommitFetchFailed
| UpdateAvailable (latestVersion : QString)
| UpToDate.

(** The output of a helper process: trimmed when it finishes in time,
    ["unknown"] as initialised otherwise. *)
Definition processOutput (output : option QString) : QString :=
  match output with
  | Some text => trimmed text
  | None => lit "unknown"
  end.

Section Versions.

(** [QString::toInt], of the Qt library. *)
Variable toInt : QString -> Z.

(** Major, minor and patch of a version: the first three parts when there
    are at least three, zeros otherwise. *)
Definition versionNumbers (version : QString) : Z * Z * Z :=
  match split 46%N version with
  | major :: minor :: patch :: _ => (toInt major, toInt minor, toInt patch)
  | _ => (0, 0, 0)
  end.

(** [updateAvailable]: major first, then minor, then patch. *)
Definition isNewer (latest current : Z * Z * Z) : bool :=
  let '(latestMajor, latestMinor, latestPatch) := latest in
  let '(currentMajor, currentMinor, currentPatch) := current in
  if currentMajor <? latestMajor then true
  else if (latestMajor =? currentMajor) && (currentMinor <? latestMinor) then true
  else if (latestMajor =? currentMajor) && (latestMinor =? currentMinor)
          && (currentPatch <? latestPatch) then true
  else false.

(** [currentVersion] is [PQSIGNUM_VERSION]; [readme] and [commits] are the
    outputs of the two helper processes, the second started only when the
    first passes its check. *)
Definition checkForUpdates (currentVersion : QString)
    (readme commits : option QString) : UpdateCheck :=
  let majorMinor := processOutput readme in
  if Q.eqb majorMinor (lit "unknown") || isEmpty majorMinor
     || negb (containsChar 46%N majorMinor)
  then ReadmeFetchFailed
  else
    let patch := processOutput commits in
    if Q.eqb patch (lit "unknown") || isEmpty patch then CommitFetchFailed
    else
      let latestVersion := majorMinor ++ lit "." ++ patch in
      if isNewer (versionNumbers latestVersion) (versionNumbers currentVersion)
      then UpdateAvailable latestVersion
      else UpToDate.

End Versions.

(* ===================================================================== *)
(** ** More vocabulary *)
(* ===================================================================== *)

(** The message text, the time label and the side of a bubble. *)
Definition blockText (b : Block) : option QString :=
  match b with
  | SentBubble _ _ _ _ _ text | ReceivedBubble _ _ _ _ _ text => Some text
  | _ => None
  end.

Definition blockTime (b : Block) : option QString :=
  match b with
  | SentBubble _ _ timeOnly _ _ _
  | ReceivedBubble _ _ _ timeOnly _ _ => Some timeOnly
  | _ => None
  end.

Definition isSentBubble (b : Block) : bool :=
  match b with
  | SentBubble _ _ _ _ _ _ => true
  | _ => false
  end.

(** No [<], [>] or double quote. *)
Definition markupFree (s : QString) : Prop :=
  Forall (fun c => c <> 60%N /\ c <> 62%N /\ c <> 34%N) s.

(** [g'] has the identity, the selection and the recipients of [g]. *)
Definition sameSelection (g g' : MainWindow) : Prop :=
  ctx g' = ctx g
  /\ currentIdentity g' = currentIdentity g
  /\ currentContact g' = currentContact g
  /\ currentGroupId g' = currentGroupId g
  /\ currentContactType g' = currentContactType g
  /\ additionalRecipients g' = additionalRecipients g.

(** The additional recipients hold neither the current contact nor the
    local identity; a contact selection has no group id, a group selection
    has no contact and no additional recipients. *)
Definition selectionOk (g : MainWindow) : Prop :=
  ~ In (currentContact g) (additionalRecipients g)
  /\ ~ In (currentIdentity g) (additionalRecipients g)
  /\ match currentContactType g with
     | TYPE_CONTACT => currentGroupId g = -1
     | TYPE_GROUP => currentContact g = [] /\ additionalRecipients g = []
     end.

(** A send to contacts addresses a named contact first and then others,
    none of them that contact or [identity]. *)
Definition sendOk (identity : QString) (e : Event) : Prop :=
  match e with
  | Call_send_message recipients _ =>
      exists primary others,
        recipients = primary :: others
        /\ primary <> []
        /\ ~ In primary others
        /\ ~ In identity others
  | _ => True
  end.

(** Not a send call. *)
Definition notSend (e : Event) : Prop :=
  match e with
  | Call_send_message _ _ | Call_send_group_message _ _ => False
  | _ => True
  end.

(** The events of showing a conversation, direct or group. *)
Definition viewEvent (e : Event) : Prop :=
  match e with
  | Call_get_conversation _ | Call_decrypt_message _
  | Call_get_group_info _ | Call_get_group_conversation _ => True
  | _ => False
  end.

(** Started in [s], [m] leaves a window related to the one of [s] by [R]
    and adds to the trace only events of [P]. *)
Definition framesAt {W A} (R : MainWindow -> MainWindow -> Prop)
    (P : Event -> Prop) (m : M W A) (s : Sys W) : Prop :=
  R (window s) (window (after m s))
  /\ exists evs, trace (after m s) = trace s ++ evs /\ Forall P evs.

Definition frames {W A} (R : MainWindow -> MainWindow -> Prop)
    (P : Event -> Prop) (m : M W A) : Prop :=
  forall s, framesAt R P m s.

(** Two states a conversation is shown alike from: the same world, local
    identity, theme and font scale, and the same display so far. *)
Definition alike {W} (s1 s2 : Sys W) : Prop :=
  world s1 = world s2
  /\ currentIdentity (window s1) = currentIdentity (window s2)
  /\ currentTheme (window s1) = currentTheme (window s2)
  /\ fontScale (window s1) = fontScale (window s2)
  /\ messageDisplay (window s1) = messageDisplay (window s2).

(** [m] run from [s1] and from [s2] ends in states alike, having added the
    same events. *)
Definition runsAlike {W A} (m : M W A) (s1 s2 : Sys W) : Prop :=
  alike (after m s1) (after m s2)
  /\ exists evs, trace (after m s1) = trace s1 ++ evs
                 /\ trace (after m s2) = trace s2 ++ evs.

(** The contact list [onAddRecipients] started in [s] gets; empty when the
    call fails. *)
Definition contactListOf {W} `{Messenger W} (s : Sys W) : list QString :=
  match fst (messenger_get_contact_list (world s)) with
  | Some l => l
  | None => []
  end.

(** Run from a state whose selection is in order, [m] ends in one, keeps
    the local identity, and adds to the trace only sends that are in
    order. *)
Definition stepOk {W A} (m : M W A) (s : Sys W) : Prop :=
  selectionOk (window s) ->
  selectionOk (window (after m s))
  /\ currentIdentity (window (after m s)) = currentIdentity (window s)
  /\ exists evs, trace (after m s) = trace s ++ evs
                 /\ Forall (sendOk (currentIdentity (window s))) evs.

(** The events of a new-message poll. *)
Definition pollEvent (e : Event) : Prop :=
  match e with
  | Query_new_messages _ _ | Call_mark_delivered _ | PlaySound
  | TrayMessage _ _ => True
  | _ => viewEvent e
  end.

(** A send to contacts, if [e] is one, goes to the recipients of window
    [g], whose current contact has a name. *)
Definition sendFrom (g : MainWindow) (e : Event) : Prop :=
  match e with
  | Call_send_message recipients _ =>
      recipients = currentContact g :: additionalRecipients g
      /\ currentContact g <> []
  | _ => True
  end.

(** The count query of [checkForStatusUpdates] started in [s]: it is run
    for what is read where the bytes of [currentIdentity] and
    [currentContact] were. *)
Definition queriedSender {W} `{Messenger W} (s : Sys W) : QString :=
  read_freed 0 (currentIdentity (window s)) (world s).

Definition queriedContact {W} `{Messenger W} (s : Sys W) : QString :=
  read_freed 1 (currentContact (window s)) (world s).

Definition statusQuery {W} `{Messenger W} (s : Sys W) : Event :=
  Query_status_updates (queriedSender s) (queriedContact s).

(** The events of a status poll: its query and a conversation load. *)
Definition statusPollEvent (e : Event) : Prop :=
  match e with
  | Query_status_updates _ _ | Call_get_conversation _
  | Call_decrypt_message _ => True
  | _ => False
  end.

(** Ids in ascending order. *)
Definition ascendingIds (ids : list Z) : Prop := StronglySorted Z.le ids.

(** Ids in ascending order with no two equal. *)
Definition strictlyAscendingIds (ids : list Z) : Prop :=
  StronglySorted Z.lt ids.

(** Every id of the table as a statement on the connection of [s] sees it
    is the value of an [int]. *)
Definition intIds {W} `{Messenger W} (s : Sys W) : Prop :=
  forall tbl, fst (pg_messages (world s)) = Some tbl ->
              Forall (fun r => fitsInt (row_id r)) tbl.

(** The table as a statement on the connection of [s] sees it has no two
    rows with the same id. *)
Definition uniqueIds {W} `{Messenger W} (s : Sys W) : Prop :=
  forall tbl, fst (pg_messages (world s)) = Some tbl ->
              List.NoDup (List.map row_id tbl).

(** The scripted world marks nothing. *)
#[global] Instance script_readMarker : ReadMarker Script.World := {|
  messenger_mark_conversation_read _ w := (tt, w)
|}.

Module More.

Import Script.

(** Scenario C: alice has carol's conversation open; the table holds one
    message from alice to carol, delivered. *)
Definition deliveredToCarol : list message_row :=
  [{| row_id := 4; row_sender := alice; row_recipient := carol;
      row_created_at := lit "2025-01-01 10:40:00";
      row_status := Some (lit "delivered") |}].

Definition scenarioC : Sys World :=
  MkSys {| conversation c :=
             if Q.eqb c carol
             then Some [{| mi_id := 4; mi_sender := alice; mi_recipient := carol;
                           mi_timestamp := lit "2025-01-01 10:40:00";
                           mi_status := Some (lit "delivered") |}]
             else None;
           group_conversation _ := None; group_info _ := None;
           plaintext _ := Some (lit "see you"); send_result := 0;
           contacts := Some [alice; bob; carol];
           table := Some deliveredToCarol; freed := untouched;
           clock := lit "12:00";
           wanted := []; accepts := Accepted |}
    (set_currentContact carol fresh) [].

(** Sends succeed; alice has bob open, carol as additional recipient, and
    has typed a message with markup in it. *)
Definition sending : Sys World :=
  MkSys {| conversation _ := None; group_conversation _ := None;
           group_info _ := None; plaintext _ := None; send_result := 0;
           contacts := Some [alice; bob; carol]; table := None;
           freed := untouched;
           clock := lit "12:05"; wanted := []; accepts := Accepted |}
    (set_messageInput (lit " <b>hi</b> ")
       (set_additionalRecipients [carol]
          (set_currentContact bob fresh)))
    [].

(** Alice has bob open and carol as additional recipient; the user opens
    the recipient dialog, wants carol as before, and presses OK. *)
Definition keeping : Sys World :=
  MkSys {| conversation _ := None; group_conversation _ := None;
           group_info _ := None; plaintext _ := None; send_result := 0;
           contacts := Some [alice; bob; carol]; table := None;
           freed := untouched;
           clock := lit "12:05"; wanted := [carol]; accepts := Accepted |}
    (set_additionalRecipients [carol]
       (set_currentContact bob fresh))
    [].

(** The same with nothing selected. *)
Definition unselected : Sys World :=
  MkSys (world sending)
    (set_messageInput (lit "hello") fresh) [].

(** Scenario A after the freed bytes of alice's name were written over. *)
Definition overwritten : Sys World :=
  start {| conversation _ := None; group_conversation _ := None;
           group_info _ := None; plaintext _ := None; send_result := 0;
           contacts := None; table := Some oneRow;
           freed _ _ := lit "xyz"; clock := lit "12:00";
           wanted := []; accepts := Rejected |}.

(** A table with one row for alice whose id is one past [INT_MAX]. *)
Definition hugeRow : list message_row :=
  [{| row_id := 2147483648; row_sender := bob; row_recipient := alice;
      row_created_at := lit "2025-01-01 10:30:00"; row_status := None |}].

Definition huge : Sys World :=
  start {| conversation _ := None; group_conversation _ := None;
           group_info _ := None; plaintext _ := None; send_result := 0;
           contacts := None; table := Some hugeRow; freed := untouched;
           clock := lit "12:00"; wanted := []; accepts := Rejected |}.

(** A table with two rows of one id for alice. *)
Definition twins : Sys World :=
  start {| conversation _ := None; group_conversation _ := None;
           group_info _ := None; plaintext _ := None; send_result := 0;
           contacts := None; table := Some (oneRow ++ oneRow);
           freed := untouched; clock := lit "12:00";
           wanted := []; accepts := Rejected |}.

(** Alice over the table of [busy], with bob's conversation open. *)
Definition busyWithBob : Sys World :=
  MkSys (world busy) (set_currentContact bob (window busy)) [].

(** What [loadContacts] stores for the contacts alice, bob, carol and two
    groups that share a name. *)
Definition twoGroups : list group_info_t :=
  [{| gi_id := 5; gi_name := lit "friends" |};
   {| gi_id := 6; gi_name := lit "friends" |}].

Definition phoneBook : gmap QString ContactItem :=
  (fillContacts (Some [alice; bob; carol]) (Some twoGroups)).2.

(** A short session over [chat]: alice selects bob, adds recipients, types
    and sends. *)
Definition session : Sys World :=
  after (runSlot SendMessage)
    (after (runSlot (InputEdited (lit "hi")))
       (after (runSlot AddRecipients)
          (after (runSlot (ContactSelected phoneBook (Some (bustPrefix ++ bob))))
             (start chat)))).

(** A reading of decimal digits, standing for [QString::toInt] in examples. *)
Definition digitsToInt (s : QString) : Z :=
  fold_left (fun acc c => 10 * acc + (Z.of_N c - 48)) s 0.

End More.

(* ===================================================================== *)
(** * Properties *)
(* ===================================================================== *)

(** ** Strings *)

Lemma eqb_true (a b : QString) : Q.eqb a b = true <-> a = b.
Proof. unfold Q.eqb. apply bool_decide_eq_true. Qed.

Lemma eqb_false (a b : QString) : Q.eqb a b = false <-> a <> b.
Proof. unfold Q.eqb. apply bool_decide_eq_false. Qed.

Lemma eqb_refl (a : QString) : Q.eqb a a = true.
Proof. by apply eqb_true. Qed.

Lemma skipSpaces_blank (s : QString) :
  Forall (fun c => isSpace c = true) s -> skipSpaces s = [].
Proof.
  induction 1 as [|c s Hc _ IH]; simpl; [done|]. by rewrite Hc.
Qed.

Lemma trimmed_blank (s : QString) :
  Forall (fun c => isSpace c = true) s -> trimmed s = [].
Proof. intros Hs. unfold trimmed. by rewrite (skipSpaces_blank s Hs). Qed.

Lemma stripPrefix_bust (contact : QString) :
  stripPrefix (bustPrefix ++ contact) = contact.
Proof.
  unfold stripPrefix, startsWith, midFrom, bustPrefix.
  cbn [length firstn skipn app]. by rewrite eqb_refl.
Qed.

(** ** The status classifier *)

Lemma badgeSpan_inj (theme : QString) (b1 b2 : StatusBadge) :
  badgeSpan theme b1 = badgeSpan theme b2 -> b1 = b2.
Proof.
  unfold badgeSpan.
  destruct b1, b2, (Q.eqb theme (lit "club")); intros Heq; try done;
    by vm_compute in Heq.
Qed.

Lemma badgeSpan_class (theme1 theme2 : QString) (b1 b2 : StatusBadge) :
  badgeSpan theme1 b1 = badgeSpan theme2 b2 -> b1 = b2.
Proof.
  unfold badgeSpan.
  destruct b1, b2, (Q.eqb theme1 (lit "club")), (Q.eqb theme2 (lit "club"));
    intros Heq; try done; by vm_compute in Heq.
Qed.

(** C4.  The classifier behind the status mark of a message of the local
    identity in a direct conversation sends an absent status and ["sent"]
    to pending, ["delivered"] to delivered, ["read"] to read, and every
    other string to pending.  The mark drawn for the message is the one of
    that class, and marks of different classes differ. *)
Theorem status_classifier_mapping (other : QString) :
  other <> lit "read" ->
  other <> lit "delivered" ->
  classifyStatus None = BadgePending
  /\ classifyStatus (Some (lit "sent")) = BadgePending
  /\ classifyStatus (Some (lit "delivered")) = BadgeDelivered
  /\ classifyStatus (Some (lit "read")) = BadgeRead
  /\ classifyStatus (Some other) = BadgePending
  /\ (forall g m text,
        mi_sender m = currentIdentity g ->
        exists club metaSize time messageSize body,
          directBubble g m text
          = SentBubble club metaSize time
              (badgeSpan (currentTheme g) (classifyStatus (mi_status m)))
              messageSize body)
  /\ (forall theme b1 b2, badgeSpan theme b1 = badgeSpan theme b2 -> b1 = b2).
Proof.
  intros Hread Hdelivered.
  repeat split; try reflexivity.
  - unfold classifyStatus. simpl.
    apply eqb_false in Hread, Hdelivered. by rewrite Hread, Hdelivered.
  - intros g m text Hself. unfold directBubble.
    rewrite Hself, eqb_refl. by eexists _, _, _, _, _.
  - apply badgeSpan_inj.
Qed.

Lemma status_classifier_mapping_witness :
  classifyStatus (Some (lit "Read")) = BadgePending
  /\ classifyStatus (Some []) = BadgePending.
Proof.
  split.
  - apply (status_classifier_mapping (lit "Read")); by vm_compute.
  - apply (status_classifier_mapping []); by vm_compute.
Defined.

(** ** Running a slot *)

Section Running.

Context {W : Type}.

Lemma after_bind {A B} (m : M W A) (k : A -> M W B) (s : Sys W) :
  after (x <- m ;; k x) s = after (k (fst (m s))) (after m s).
Proof. unfold after, bind. by destruct (m s). Qed.

Lemma after_forEach_cons {A} (x : A) (xs : list A) (body : A -> M W unit)
    (s : Sys W) :
  after (forEach (x :: xs) body) s = after (forEach xs body) (after (body x) s).
Proof. simpl. by rewrite after_bind. Qed.

Lemma sys_eta (s : Sys W) : MkSys (world s) (window s) (trace s) = s.
Proof. by destruct s. Qed.

Lemma set_messageDisplay_same (g : MainWindow) :
  set_messageDisplay (messageDisplay g) g = g.
Proof. by destruct g. Qed.

Lemma set_messageDisplay_twice (a b : list Block) (g : MainWindow) :
  set_messageDisplay a (set_messageDisplay b g) = set_messageDisplay a g.
Proof. reflexivity. Qed.

Lemma redrawn_refl (g : MainWindow) : redrawn g g.
Proof. unfold redrawn. by destruct g. Qed.

Lemma redrawn_trans (g1 g2 g3 : MainWindow) :
  redrawn g1 g2 -> redrawn g2 g3 -> redrawn g1 g3.
Proof. unfold redrawn. intros H12 H23. rewrite H23, H12. by destruct g1. Qed.

Lemma redrawn_display (d : list Block) (g : MainWindow) :
  redrawn g (set_messageDisplay d g).
Proof. unfold redrawn. by destruct g. Qed.

Lemma redrawn_status (st : StatusText) (g : MainWindow) :
  redrawn g (set_statusLabel st g).
Proof. unfold redrawn. by destruct g. Qed.

End Running.

(** ** Conversation assembly *)

Section Assembly.

Context {W : Type} `{Messenger W}.

(** One turn of the direct loop adds one bubble and at most one decrypt
    call, made only when the gate lets the message through. *)
Lemma directMessage_after (m : message_info) (s : Sys W) :
  exists w b,
    after (directMessage m) s
    = MkSys w
        (set_messageDisplay (messageDisplay (window s) ++ [b]) (window s))
        (trace s ++ List.map Call_decrypt_message
                      (if canDecrypt (window s) m then [mi_id m] else []))
    /\ rendersDirect (window s) m b.
Proof.
  unfold directMessage, after, bind, this, append, assign, rendersDirect.
  destruct (canDecrypt (window s) m) eqn:Hgate.
  - unfold decryptText, bind, extern, ret.
    destruct (messenger_decrypt_message (mi_id m) (world s)) as [[p|] w]; simpl.
    + eexists _, _; split; [reflexivity|]. by exists (Decrypted p).
    + eexists _, _; split; [reflexivity|]. by exists DecryptFailed.
  - unfold ret. simpl. rewrite app_nil_r.
    eexists _, _; split; [reflexivity|]. by exists NotAttempted.
Qed.

Lemma directLoop_after (msgs : list message_info) : forall s : Sys W,
  exists w entries,
    after (forEach msgs directMessage) s
    = MkSys w
        (set_messageDisplay (messageDisplay (window s) ++ entries) (window s))
        (trace s ++ List.map Call_decrypt_message
                      (List.map mi_id (List.filter (canDecrypt (window s)) msgs)))
    /\ Forall2 (rendersDirect (window s)) msgs entries.
Proof.
  induction msgs as [|m msgs IH]; intros s.
  - exists (world s), []. split; [|constructor].
    unfold after. simpl. rewrite !app_nil_r, set_messageDisplay_same.
    symmetry. apply sys_eta.
  - rewrite after_forEach_cons.
    destruct (directMessage_after m s) as (w1 & b & -> & Hb).
    destruct (IH (MkSys w1
                (set_messageDisplay (messageDisplay (window s) ++ [b]) (window s))
                (trace s ++ List.map Call_decrypt_message
                      (if canDecrypt (window s) m then [mi_id m] else []))))
      as (w2 & entries & -> & Hrest).
    exists w2, (b :: entries). split.
    + cbn [world window trace]. f_equal.
      * destruct (window s). cbn. by rewrite <- app_assoc.
      * rewrite <- app_assoc. f_equal. cbn [List.filter].
        change (canDecrypt (set_messageDisplay _ (window s))) with (canDecrypt (window s)).
        by destruct (canDecrypt (window s) m).
    + constructor; [done|]. exact Hrest.
Qed.

Lemma groupMessage_after (m : message_info) (s : Sys W) :
  exists w b,
    after (groupMessage m) s
    = MkSys w
        (set_messageDisplay (messageDisplay (window s) ++ [b]) (window s))
        (trace s ++ [Call_decrypt_message (mi_id m)])
    /\ rendersGroup (window s) m b.
Proof.
  unfold groupMessage, after, bind, this, append, assign, rendersGroup.
  unfold decryptText, bind, extern, ret.
  destruct (messenger_decrypt_message (mi_id m) (world s)) as [[p|] w]; simpl.
  - eexists _, _; split; [reflexivity|]. by exists (Decrypted p).
  - eexists _, _; split; [reflexivity|]. by exists DecryptFailed.
Qed.

Lemma groupLoop_after (msgs : list message_info) : forall s : Sys W,
  exists w entries,
    after (forEach msgs groupMessage) s
    = MkSys w
        (set_messageDisplay (messageDisplay (window s) ++ entries) (window s))
        (trace s ++ List.map Call_decrypt_message (List.map mi_id msgs))
    /\ Forall2 (rendersGroup (window s)) msgs entries.
Proof.
  induction msgs as [|m msgs IH]; intros s.
  - exists (world s), []. split; [|constructor].
    unfold after. simpl. rewrite !app_nil_r, set_messageDisplay_same.
    symmetry. apply sys_eta.
  - rewrite after_forEach_cons.
    destruct (groupMessage_after m s) as (w1 & b & -> & Hb).
    destruct (IH (MkSys w1
                (set_messageDisplay (messageDisplay (window s) ++ [b]) (window s))
                (trace s ++ [Call_decrypt_message (mi_id m)])))
      as (w2 & entries & -> & Hrest).
    exists w2, (b :: entries). split.
    + cbn [world window trace]. f_equal.
      * destruct (window s). cbn. by rewrite <- app_assoc.
      * by rewrite <- app_assoc.
    + constructor; [done|]. exact Hrest.
Qed.

(** [loadConversation] for a name that is not empty, step by step. *)
Lemma loadConversation_steps (contact : QString) (s : Sys W) :
  isEmpty contact = false ->
  after (loadConversation contact) s
  = let s1 := MkSys (snd (messenger_get_conversation contact (world s)))
                (set_messageDisplay [headerOf (Contact contact) s] (window s))
                (trace s ++ [Call_get_conversation contact]) in
    match storeRead (Contact contact) s with
    | Some msgs =>
        let s2 := after (match msgs with
                         | [] => append (emptyOf s)
                         | _ :: _ => forEach msgs directMessage
                         end) s1 in
        MkSys (world s2)
          (set_statusLabel (StatusLoaded (length msgs) contact) (window s2))
          (trace s2)
    | None =>
        MkSys (world s1)
          (set_statusLabel StatusErrorLoading
             (set_messageDisplay
                [headerOf (Contact contact) s; failureOf (Contact contact) s]
                (window s)))
          (trace s1)
    end.
Proof.
  intros Hname.
  unfold loadConversation, storeRead, headerOf, failureOf, emptyOf.
  unfold after, bind, assign, extern, this.
  rewrite Hname. cbn [fst snd world window trace].
  destruct (messenger_get_conversation contact (world s)) as [[msgs|] w0];
    cbn [fst snd world window trace]; [|reflexivity].
  rewrite set_messageDisplay_twice.
  change (messageFontSize (set_messageDisplay [] (window s)))
    with (messageFontSize (window s)).
  change (headerSize (set_messageDisplay [] (window s)))
    with (headerSize (window s)).
  match goal with |- context [let '(_, _) := ?X in _] => by destruct X end.
Qed.

(** A direct load whose store read answers [msgs]: the header, one entry
    per message (the empty-state paragraph when there is none), the count in
    the status label, and a decrypt call for each message the gate lets
    through, in order. *)
Lemma loadConversation_loaded (contact : QString) (s : Sys W)
    (msgs : list message_info) :
  isEmpty contact = false ->
  storeRead (Contact contact) s = Some msgs ->
  exists w entries,
    after (loadConversation contact) s
    = MkSys w
        (set_statusLabel (StatusLoaded (length msgs) contact)
           (set_messageDisplay (headerOf (Contact contact) s :: entries)
              (window s)))
        (trace s ++ Call_get_conversation contact
                    :: List.map Call_decrypt_message
                         (List.map mi_id (List.filter (canDecrypt (window s)) msgs)))
    /\ match msgs with
       | [] => entries = [emptyOf s]
       | _ :: _ => Forall2 (rendersDirect (window s)) msgs entries
       end.
Proof.
  intros Hname Hread. rewrite (loadConversation_steps _ _ Hname), Hread.
  cbv zeta. destruct msgs as [|m msgs].
  - eexists _, [emptyOf s]. split; [|done].
    by unfold after, append, assign.
  - match goal with |- context [after _ ?s1] =>
      destruct (directLoop_after (m :: msgs) s1) as (w & entries & -> & Hentries)
    end.
    exists w, entries. split; [|exact Hentries].
    cbn [world window trace]. f_equal. by rewrite <- app_assoc.
Qed.

(** A direct load whose store read fails. *)
Lemma loadConversation_failed (contact : QString) (s : Sys W) :
  isEmpty contact = false ->
  storeRead (Contact contact) s = None ->
  exists w,
    after (loadConversation contact) s
    = MkSys w
        (set_statusLabel StatusErrorLoading
           (set_messageDisplay
              [headerOf (Contact contact) s; failureOf (Contact contact) s]
              (window s)))
        (trace s ++ [Call_get_conversation contact]).
Proof.
  intros Hname Hread. rewrite (loadConversation_steps _ _ Hname), Hread.
  by eexists.
Qed.

(** A direct load for the empty name only clears the display. *)
Lemma loadConversation_no_contact (contact : QString) (s : Sys W) :
  isEmpty contact = true ->
  after (loadConversation contact) s
  = MkSys (world s) (set_messageDisplay [] (window s)) (trace s).
Proof.
  intros Hname. unfold loadConversation, after, bind, assign, ret.
  by rewrite Hname.
Qed.

(** [loadGroupConversation] for an id that is not negative, step by step. *)
Lemma loadGroupConversation_steps (gid : Z) (s : Sys W) :
  (gid <? 0) = false ->
  after (loadGroupConversation gid) s
  = let w1 := snd (messenger_get_group_info gid (world s)) in
    let s1 := MkSys (snd (messenger_get_group_conversation gid w1))
                (set_messageDisplay [headerOf (Group gid) s] (window s))
                (trace s ++ [Call_get_group_info gid;
                             Call_get_group_conversation gid]) in
    match storeRead (Group gid) s with
    | Some msgs =>
        let s2 := after (match msgs with
                         | [] => append (emptyOf s)
                         | _ :: _ => forEach msgs groupMessage
                         end) s1 in
        MkSys (world s2)
          (set_statusLabel (StatusLoadedGroup (length msgs)) (window s2))
          (trace s2)
    | None =>
        MkSys (world s1)
          (set_statusLabel StatusErrorLoadingGroup
             (set_messageDisplay
                [headerOf (Group gid) s; failureOf (Group gid) s] (window s)))
          (trace s1)
    end.
Proof.
  intros Hid.
  unfold loadGroupConversation, storeRead, headerOf, failureOf, emptyOf.
  unfold after, bind, assign, extern, this.
  rewrite Hid. cbn [fst snd world window trace].
  destruct (messenger_get_group_info gid (world s)) as [info w1].
  cbn [fst snd world window trace].
  destruct (messenger_get_group_conversation gid w1) as [[msgs|] w2];
    cbn [fst snd world window trace]; rewrite <- app_assoc; cbn [app];
    [|reflexivity].
  rewrite set_messageDisplay_twice.
  change (messageFontSize (set_messageDisplay [] (window s)))
    with (messageFontSize (window s)).
  change (headerSize (set_messageDisplay [] (window s)))
    with (headerSize (window s)).
  match goal with |- context [let '(_, _) := ?X in _] => by destruct X end.
Qed.

(** A group load whose store read answers [msgs]: a decrypt call is made
    for every message. *)
Lemma loadGroupConversation_loaded (gid : Z) (s : Sys W)
    (msgs : list message_info) :
  (gid <? 0) = false ->
  storeRead (Group gid) s = Some msgs ->
  exists w entries,
    after (loadGroupConversation gid) s
    = MkSys w
        (set_statusLabel (StatusLoadedGroup (length msgs))
           (set_messageDisplay (headerOf (Group gid) s :: entries) (window s)))
        (trace s ++ Call_get_group_info gid :: Call_get_group_conversation gid
                    :: List.map Call_decrypt_message (List.map mi_id msgs))
    /\ match msgs with
       | [] => entries = [emptyOf s]
       | _ :: _ => Forall2 (rendersGroup (window s)) msgs entries
       end.
Proof.
  intros Hid Hread. rewrite (loadGroupConversation_steps _ _ Hid), Hread.
  cbv zeta. destruct msgs as [|m msgs].
  - eexists _, [emptyOf s]. split; [|done].
    by unfold after, append, assign.
  - match goal with |- context [after _ ?s1] =>
      destruct (groupLoop_after (m :: msgs) s1) as (w & entries & -> & Hentries)
    end.
    exists w, entries. split; [|exact Hentries].
    cbn [world window trace]. f_equal. by rewrite <- app_assoc.
Qed.

(** A group load whose store read fails. *)
Lemma loadGroupConversation_failed (gid : Z) (s : Sys W) :
  (gid <? 0) = false ->
  storeRead (Group gid) s = None ->
  exists w,
    after (loadGroupConversation gid) s
    = MkSys w
        (set_statusLabel StatusErrorLoadingGroup
           (set_messageDisplay
              [headerOf (Group gid) s; failureOf (Group gid) s] (window s)))
        (trace s ++ [Call_get_group_info gid; Call_get_group_conversation gid]).
Proof.
  intros Hid Hread. rewrite (loadGroupConversation_steps _ _ Hid), Hread.
  by eexists.
Qed.

Lemma validTarget_group (gid : Z) :
  validTarget (Group gid) = true -> (gid <? 0) = false.
Proof. simpl. intros Hid. apply Z.leb_le in Hid. apply Z.ltb_ge. lia. Qed.

Lemma validTarget_contact (c : QString) :
  validTarget (Contact c) = true -> isEmpty c = false.
Proof. simpl. by destruct (isEmpty c). Qed.

End Assembly.


Lemma eventsOf_app {W A} (m : M W A) (s : Sys W) (evs : list Event) :
  trace (after m s) = trace s ++ evs -> eventsOf m s = evs.
Proof. unfold eventsOf. intros ->. apply drop_app_length. Qed.

Lemma escaped_encryptedText : toHtmlEscaped encryptedText = encryptedText.
Proof. reflexivity. Qed.



Section AssemblyClaims.

Context {W : Type} `{Messenger W}.


End AssemblyClaims.



Section AssemblyOutcomes.

Context {W : Type} `{Messenger W}.

(** What [assemble] leaves for a store read that answers no message, and
    for a store read that fails. *)
Lemma assemble_empty (t : ConversationTarget) (s : Sys W) :
  validTarget t = true ->
  storeRead t s = Some [] ->
  messageDisplay (window (after (assemble t) s)) = [headerOf t s; emptyOf s]
  /\ statusLabel (window (after (assemble t) s)) = loadedStatus t 0.
Proof.
  intros Hvalid Hread. destruct t as [c|gid]; cbn [assemble].
  - destruct (loadConversation_loaded c s [] (validTarget_contact _ Hvalid) Hread)
      as (w & entries & -> & ->). done.
  - destruct (loadGroupConversation_loaded gid s [] (validTarget_group _ Hvalid) Hread)
      as (w & entries & -> & ->). done.
Qed.

Lemma assemble_failed (t : ConversationTarget) (s : Sys W) :
  validTarget t = true ->
  storeRead t s = None ->
  messageDisplay (window (after (assemble t) s)) = [headerOf t s; failureOf t s]
  /\ statusLabel (window (after (assemble t) s))
     = match t with
       | Contact _ => StatusErrorLoading
       | Group _ => StatusErrorLoadingGroup
       end.
Proof.
  intros Hvalid Hread. destruct t as [c|gid]; cbn [assemble].
  - destruct (loadConversation_failed c s (validTarget_contact _ Hvalid) Hread)
      as (w & ->). done.
  - destruct (loadGroupConversation_failed gid s (validTarget_group _ Hvalid) Hread)
      as (w & ->). done.
Qed.

(** C5.  A conversation whose store read answers an empty message set is
    shown as its header and the empty-state paragraph, with a "loaded 0"
    status; one whose store read fails is shown as its header and the
    failure paragraph, with an error status.  The two displays and the two
    status labels are never equal, whatever the conversations. *)
Theorem empty_and_failure_are_told_apart (t1 t2 : ConversationTarget)
    (s1 s2 : Sys W) :
  validTarget t1 = true ->
  validTarget t2 = true ->
  storeRead t1 s1 = Some [] ->
  storeRead t2 s2 = None ->
  let empty := window (after (assemble t1) s1) in
  let failed := window (after (assemble t2) s2) in
  messageDisplay empty = [headerOf t1 s1; emptyOf s1]
  /\ statusLabel empty = loadedStatus t1 0
  /\ messageDisplay failed = [headerOf t2 s2; failureOf t2 s2]
  /\ (statusLabel failed = StatusErrorLoading
      \/ statusLabel failed = StatusErrorLoadingGroup)
  /\ messageDisplay empty <> messageDisplay failed
  /\ statusLabel empty <> statusLabel failed.
Proof.
  intros Hv1 Hv2 Hr1 Hr2 empty failed. subst empty failed.
  destruct (assemble_empty t1 s1 Hv1 Hr1) as [-> ->].
  destruct (assemble_failed t2 s2 Hv2 Hr2) as [-> ->].
  repeat split; try done.
  - destruct t2; auto.
  - destruct t2; intros Heq; by inversion Heq.
  - destruct t1, t2; done.
Qed.

(** C6.  In a direct conversation a message whose sender is the local
    identity is shown as a sent bubble whose status mark is the mark of the
    class of its status field: two check marks in the colour of the theme
    for read, two grey ones for delivered, one grey one for anything else.
    The marks of two classes differ in every pair of themes, so the mark
    shown tells the class, and the class comes from the status field alone.
    Decryption is attempted, and whatever comes of it only fills the text
    of the bubble. *)
Theorem own_message_badge (contact : QString) (s : Sys W)
    (msgs : list message_info) (i : nat) (m : message_info) :
  isEmpty contact = false ->
  storeRead (Contact contact) s = Some msgs ->
  msgs !! i = Some m ->
  mi_sender m = currentIdentity (window s) ->
  let g := window s in
  let mark := badgeSpan (currentTheme g) (classifyStatus (mi_status m)) in
  (exists o,
     o <> NotAttempted
     /\ messageDisplay (window (after (loadConversation contact) s)) !! S i
        = Some (SentBubble (isClub g) (metaFontSize g)
                  (mid 11 5 (mi_timestamp m)) mark
                  (messageFontSize g) (toHtmlEscaped (messageTextOf o))))
  /\ mark
     = match classifyStatus (mi_status m) with
       | BadgeRead =>
           {| span_color := if isClub g then lit "#FF8C42" else lit "#00D9FF";
              span_ticks := 2 |}
       | BadgeDelivered => {| span_color := lit "#888888"; span_ticks := 2 |}
       | BadgePending => {| span_color := lit "#888888"; span_ticks := 1 |}
       end
  /\ (forall theme m',
        badgeSpan theme (classifyStatus (mi_status m')) = mark ->
        classifyStatus (mi_status m') = classifyStatus (mi_status m)).
Proof.
  intros Hname Hread Hm Hself g mark. subst mark.
  split; [|split].
  - destruct (loadConversation_loaded contact s msgs Hname Hread)
      as (w & entries & -> & Hentries).
    destruct msgs as [|m0 msgs0]; [done|].
    destruct (Forall2_lookup_l _ _ _ _ _ Hentries Hm) as (b & Hb & o & -> & Ho).
    exists o. split.
    + intros Hnot. apply Ho in Hnot. unfold canDecrypt in Hnot.
      rewrite Hself, eqb_refl, orb_true_r in Hnot. done.
    + cbn [window messageDisplay set_statusLabel set_messageDisplay].
      change ((_ :: entries) !! S i) with (entries !! i). rewrite Hb. f_equal.
      unfold directBubble. by rewrite Hself, eqb_refl.
  - unfold badgeSpan, isClub.
    by destruct (classifyStatus (mi_status m)),
         (Q.eqb (currentTheme g) (lit "club")).
  - intros theme m' Hsame. exact (badgeSpan_class _ _ _ _ Hsame).
Qed.

End AssemblyOutcomes.

Lemma empty_and_failure_are_told_apart_witness :
  messageDisplay (window (after (assemble (Contact Script.carol)) Script.opened))
  = [ConversationHeader 90 Script.carol; NoMessagesYet 54]
  /\ messageDisplay (window (after (assemble (Group 7)) Script.opened))
     = [GroupHeader 90 None; FailedToLoadGroupConversation 54].
Proof.
  assert (storeRead (Contact Script.carol) Script.opened = Some []) as Hr1
    by (by vm_compute).
  assert (storeRead (Group 7) Script.opened = None) as Hr2 by (by vm_compute).
  destruct (empty_and_failure_are_told_apart
              (Contact Script.carol) (Group 7) Script.opened Script.opened
              eq_refl eq_refl Hr1 Hr2)
    as (Hempty & _ & Hfailed & _).
  split; [exact Hempty | exact Hfailed].
Defined.

Lemma own_message_badge_witness :
  (exists o,
     o <> NotAttempted
     /\ messageDisplay (window (after (loadConversation Script.bob) Script.opened))
          !! 2%nat
        = Some (SentBubble false 39 (lit "10:31")
                  {| span_color := lit "#888888"; span_ticks := 2 |}
                  54 (toHtmlEscaped (messageTextOf o))))
  /\ badgeSpan (lit "club") (classifyStatus (mi_status Script.fromBob))
     <> {| span_color := lit "#888888"; span_ticks := 2 |}.
Proof.
  assert (storeRead (Contact Script.bob) Script.opened
          = Some [Script.fromBob; Script.toBob; Script.bobToCarol]) as Hread
    by reflexivity.
  assert ([Script.fromBob; Script.toBob; Script.bobToCarol] !! 1%nat
          = Some Script.toBob) as Hm by reflexivity.
  assert (mi_sender Script.toBob = currentIdentity (window Script.opened))
    as Hself by reflexivity.
  destruct (own_message_badge Script.bob Script.opened _ 1 Script.toBob
              eq_refl Hread Hm Hself) as (Hshown & Hmark & Hclass).
  split.
  - exact Hshown.
  - intros Hsame. apply Hclass in Hsame. vm_compute in Hsame.
    discriminate Hsame.
Defined.

(** ** Polling *)

Lemma maxFrom_max (b c : Z) (l : list Z) :
  maxFrom (Z.max b c) l = Z.max c (maxFrom b l).
Proof. induction l as [|x l IH]; simpl; [lia|]. rewrite IH. lia. Qed.

Lemma fold_left_max (l : list Z) : forall c, fold_left Z.max l c = maxFrom c l.
Proof.
  induction l as [|x l IH]; intros c; simpl; [done|].
  rewrite IH, maxFrom_max. lia.
Qed.

Lemma maxFrom_app (c : Z) (l1 l2 : list Z) :
  maxFrom c (l1 ++ l2) = maxFrom (maxFrom c l1) l2.
Proof.
  induction l1 as [|x l1 IH]; simpl; [done|].
  rewrite IH, (Z.max_comm x (maxFrom c l1)), maxFrom_max. done.
Qed.

Lemma maxFrom_base (c : Z) (l : list Z) : c <= maxFrom c l.
Proof. induction l as [|x l IH]; simpl; lia. Qed.

Lemma maxFrom_upper (c : Z) (l : list Z) :
  Forall (fun x => x <= maxFrom c l) l.
Proof.
  induction l as [|x l IH]; simpl; constructor; [lia|].
  eapply Forall_impl; [exact IH|]. simpl. intros y Hy. lia.
Qed.

Lemma maxFrom_attained (c : Z) (l : list Z) :
  maxFrom c l = c \/ In (maxFrom c l) l.
Proof.
  induction l as [|x l IH]; simpl; [by left|].
  destruct (Z.max_spec x (maxFrom c l)) as [[_ ->]|[_ ->]]; [|by right; left].
  destruct IH; [by left | by right; right].
Qed.

Lemma insertById_In (x r : message_row) (l : list message_row) :
  In x (insertById r l) <-> x = r \/ In x l.
Proof.
  induction l as [|y l IH]; simpl; [intuition congruence|].
  destruct (row_id r <=? row_id y); simpl; [intuition congruence|].
  rewrite IH. intuition congruence.
Qed.

Lemma orderByIdAsc_In (x : message_row) (l : list message_row) :
  In x (orderByIdAsc l) <-> In x l.
Proof.
  induction l as [|y l IH]; simpl; [done|].
  rewrite insertById_In, IH. intuition congruence.
Qed.

(** Every row the query answers is addressed to the recipient and newer
    than the cursor it was asked with. *)
Lemma selectNewMessages_In (recipient : QString) (after : Z)
    (tbl : list message_row) (r : message_row) :
  In r (selectNewMessages recipient after tbl) <->
  In r tbl /\ row_recipient r = recipient /\ after < row_id r.
Proof.
  unfold selectNewMessages. rewrite orderByIdAsc_In, filter_In.
  unfold isNewFor. rewrite andb_true_iff, eqb_true, Z.ltb_lt. done.
Qed.

Lemma notifications_app (a b : list Event) :
  notifications (a ++ b) = notifications a ++ notifications b.
Proof. apply flat_map_app. Qed.

Lemma markedDelivered_app (a b : list Event) :
  markedDelivered (a ++ b) = markedDelivered a ++ markedDelivered b.
Proof. apply flat_map_app. Qed.

Lemma reloads_app (a b : list Event) : reloads (a ++ b) = reloads a ++ reloads b.
Proof. apply flat_map_app. Qed.

Lemma loadEvents_quiet (evs : list Event) :
  Forall loadEvent evs -> notifications evs = [] /\ markedDelivered evs = [].
Proof.
  induction 1 as [|e evs He _ [IHn IHd]]; [done|].
  destruct e; try done; simpl; by rewrite ?IHn, ?IHd.
Qed.

Lemma decryptCalls_are_loadEvents (ids : list Z) :
  Forall loadEvent (List.map Call_decrypt_message ids).
Proof. induction ids; by constructor. Qed.

Lemma polled_refl (g : MainWindow) : polled g g.
Proof. unfold polled. by destruct g. Qed.

Lemma polled_trans (g1 g2 g3 : MainWindow) :
  polled g1 g2 -> polled g2 g3 -> polled g1 g3.
Proof. unfold polled. intros H12 H23. rewrite H23, H12. by destruct g1. Qed.

Lemma redrawn_polled (g g' : MainWindow) : redrawn g g' -> polled g g'.
Proof. unfold redrawn, polled. intros ->. by destruct g. Qed.

Lemma polled_cursor (c : Z) (g : MainWindow) :
  polled g (set_lastCheckedMessageId c g).
Proof. unfold polled. by destruct g. Qed.

Lemma redrawn_cursor (g g' : MainWindow) :
  redrawn g g' -> lastCheckedMessageId g' = lastCheckedMessageId g.
Proof. unfold redrawn. by intros ->. Qed.

Lemma polled_contact (g g' : MainWindow) :
  polled g g' -> currentContact g' = currentContact g.
Proof. unfold polled. by intros ->. Qed.

Section Polling.

Context {W : Type} `{Messenger W}.

(** A conversation load only redraws, and only talks to the store and the
    decrypt function. *)
Lemma loadConversation_frame (contact : QString) (s : Sys W) :
  exists evs,
    trace (after (loadConversation contact) s) = trace s ++ evs
    /\ Forall loadEvent evs
    /\ redrawn (window s) (window (after (loadConversation contact) s)).
Proof.
  destruct (isEmpty contact) eqn:Hname.
  - rewrite (loadConversation_no_contact _ _ Hname). exists [].
    cbn [trace window]. rewrite app_nil_r. split; [done|]. split; [constructor|].
    apply redrawn_display.
  - destruct (storeRead (Contact contact) s) as [msgs|] eqn:Hread.
    + destruct (loadConversation_loaded _ _ _ Hname Hread) as (w & entries & -> & _).
      eexists. cbn [trace window]. split; [reflexivity|]. split.
      * constructor; [done|]. apply decryptCalls_are_loadEvents.
      * eapply redrawn_trans; [apply redrawn_display | apply redrawn_status].
    + destruct (loadConversation_failed _ _ Hname Hread) as (w & ->).
      eexists. cbn [trace window]. split; [reflexivity|]. split.
      * by repeat constructor.
      * eapply redrawn_trans; [apply redrawn_display | apply redrawn_status].
Qed.

End Polling.

Lemma atoi_int (z : Z) : fitsInt z -> atoi z = z.
Proof.
  unfold fitsInt, atoi, toInt32, INT_MIN, INT_MAX. intros Hz.
  rewrite Z.min_r, Z.max_r by lia. rewrite Z.mod_small by lia. lia.
Qed.

Lemma msgIds_int (rows : list message_row) :
  Forall (fun r => fitsInt (row_id r)) rows -> msgIds rows = List.map row_id rows.
Proof.
  induction 1 as [|r rows Hr _ IH]; [done|].
  cbn [msgIds List.map]. fold (msgIds rows). by rewrite IH, (atoi_int _ Hr).
Qed.

Section PollCursor.

Context {W : Type} `{Messenger W}.

(** One turn of the poll loop, step by step. *)
Lemma newMessage_steps (r : message_row) (s : Sys W) :
  after (newMessage r) s
  = let g := window s in
    let msgId := atoi (row_id r) in
    let s1 := MkSys (snd (messenger_mark_delivered msgId (world s)))
                (if lastCheckedMessageId g <? msgId
                 then set_lastCheckedMessageId msgId g else g)
                (trace s ++ [Call_mark_delivered msgId; PlaySound;
                             TrayMessage (row_sender r) (row_created_at r)]) in
    if Q.eqb (currentContact g) (row_sender r)
    then after (loadConversation (currentContact g)) s1
    else s1.
Proof.
  unfold newMessage, after, bind, this, extern, emit, ret.
  cbn [fst snd world window trace].
  destruct (lastCheckedMessageId (window s) <? atoi (row_id r));
    unfold assign; cbn [fst snd world window trace];
    destruct (messenger_mark_delivered (atoi (row_id r)) (world s)) as [[] w1];
    cbn [fst snd world window trace]; rewrite <- !app_assoc; cbn [app];
    by destruct (Q.eqb (currentContact (window s)) (row_sender r)).
Qed.

(** One turn: the cursor becomes the greater of itself and [msgId], the
    row is marked delivered and announced once, and the rest of the window
    is only redrawn. *)
Lemma newMessage_after (r : message_row) (s : Sys W) :
  exists evs,
    trace (after (newMessage r) s) = trace s ++ evs
    /\ notifications evs = [noticeOf r]
    /\ markedDelivered evs = [atoi (row_id r)]
    /\ polled (window s) (window (after (newMessage r) s))
    /\ lastCheckedMessageId (window (after (newMessage r) s))
       = Z.max (lastCheckedMessageId (window s)) (atoi (row_id r)).
Proof.
  rewrite newMessage_steps. cbv zeta.
  set (g1 := if lastCheckedMessageId (window s) <? atoi (row_id r)
             then set_lastCheckedMessageId (atoi (row_id r)) (window s)
             else window s).
  assert (polled (window s) g1) as Hp1.
  { subst g1. destruct (_ <? _); [apply polled_cursor | apply polled_refl]. }
  assert (lastCheckedMessageId g1
          = Z.max (lastCheckedMessageId (window s)) (atoi (row_id r))) as Hc1.
  { subst g1.
    destruct (Z.ltb_spec (lastCheckedMessageId (window s)) (atoi (row_id r)));
      cbn; lia. }
  destruct (Q.eqb (currentContact (window s)) (row_sender r)).
  - match goal with |- context [after _ ?s1] =>
      destruct (loadConversation_frame (currentContact (window s)) s1)
        as (evs & Htrace & Hevs & Hredrawn)
    end.
    destruct (loadEvents_quiet _ Hevs) as [Hn Hd].
    eexists. rewrite Htrace. cbn [trace window] in *.
    rewrite <- app_assoc. split; [reflexivity|].
    rewrite notifications_app, markedDelivered_app, Hn, Hd.
    repeat split; try done.
    + eapply polled_trans; [exact Hp1 | by apply redrawn_polled].
    + by rewrite (redrawn_cursor _ _ Hredrawn).
  - eexists. cbn [trace window]. split; [reflexivity|]. by repeat split.
Qed.

(** The poll loop over the rows of one answer. *)
Lemma pollLoop_after (rows : list message_row) : forall s : Sys W,
  exists evs,
    trace (after (forEach rows newMessage) s) = trace s ++ evs
    /\ notifications evs = List.map noticeOf rows
    /\ markedDelivered evs = msgIds rows
    /\ polled (window s) (window (after (forEach rows newMessage) s))
    /\ lastCheckedMessageId (window (after (forEach rows newMessage) s))
       = maxFrom (lastCheckedMessageId (window s)) (msgIds rows).
Proof.
  induction rows as [|r rows IH]; intros s.
  - exists []. unfold after. simpl. rewrite app_nil_r.
    repeat split; try done. apply polled_refl.
  - rewrite after_forEach_cons.
    destruct (newMessage_after r s) as (evs1 & Ht1 & Hn1 & Hd1 & Hp1 & Hc1).
    destruct (IH (after (newMessage r) s)) as (evs2 & Ht2 & Hn2 & Hd2 & Hp2 & Hc2).
    exists (evs1 ++ evs2). rewrite Ht2, Ht1, <- app_assoc.
    rewrite notifications_app, markedDelivered_app, Hn1, Hn2, Hd1, Hd2.
    repeat split; try done.
    + eapply polled_trans; [exact Hp1 | exact Hp2].
    + rewrite Hc2, Hc1. cbn [msgIds List.map maxFrom fold_right].
      fold (msgIds rows).
      fold (maxFrom (lastCheckedMessageId (window s)) (msgIds rows)).
      by rewrite maxFrom_max.
Qed.

(** [checkForNewMessages], step by step. *)
Lemma checkForNewMessages_steps (s : Sys W) :
  after checkForNewMessages s
  = let g := window s in
    if negb (ctx g) || isEmpty (currentIdentity g) then s
    else
      let s1 := MkSys (snd (pg_messages (world s))) g
                  (trace s ++ [Query_new_messages (queriedRecipient s)
                                 (lastCheckedMessageId g)]) in
      match fst (pg_messages (world s)) with
      | None => s1
      | Some _ => after (forEach (polledRows s) newMessage) s1
      end.
Proof.
  unfold checkForNewMessages, polledRows, queriedRecipient.
  unfold after, bind, this, peek, extern, ret.
  cbn [fst snd world window trace].
  destruct (negb (ctx (window s)) || isEmpty (currentIdentity (window s)));
    [done|].
  by destruct (pg_messages (world s)) as [[tbl|] w1].
Qed.

(** One tick: every row of the answer is marked delivered and announced,
    in the order of the answer, and the cursor ends at the greatest of its
    old value and the ids of the answer as [msgId] has them. *)
Lemma checkForNewMessages_after (s : Sys W) :
  notifications (eventsOf checkForNewMessages s)
  = List.map noticeOf (polledRows s)
  /\ markedDelivered (eventsOf checkForNewMessages s) = msgIds (polledRows s)
  /\ polled (window s) (window (after checkForNewMessages s))
  /\ lastCheckedMessageId (window (after checkForNewMessages s))
     = maxFrom (lastCheckedMessageId (window s)) (msgIds (polledRows s)).
Proof.
  unfold eventsOf. rewrite checkForNewMessages_steps. cbv zeta.
  assert (polledRows s
          = if negb (ctx (window s)) || isEmpty (currentIdentity (window s))
            then []
            else match fst (pg_messages (world s)) with
                 | None => []
                 | Some tbl =>
                     selectNewMessages (queriedRecipient s)
                       (lastCheckedMessageId (window s)) tbl
                 end) as Hrows by reflexivity.
  destruct (negb (ctx (window s)) || isEmpty (currentIdentity (window s))).
  { rewrite Hrows, drop_all. repeat split; try done. apply polled_refl. }
  destruct (fst (pg_messages (world s))) as [tbl|].
  - match goal with |- context [after _ ?s1] =>
      destruct (pollLoop_after (polledRows s) s1) as (evs & Ht & Hn & Hd & Hp & Hc)
    end.
    rewrite Ht. cbn [trace window] in *.
    rewrite <- app_assoc, drop_app_length.
    cbn [app notifications markedDelivered flat_map].
    fold (notifications evs). fold (markedDelivered evs). done.
  - rewrite Hrows. cbn [trace window]. rewrite drop_app_length.
    repeat split; try done. apply polled_refl.
Qed.

End PollCursor.

Section PollClaims.

Context {W : Type} `{Messenger W}.

(** The rows a poll answers are rows of the table, addressed to the
    recipient the query was run for, with an id above the cursor. *)
Lemma polledRows_In (s : Sys W) (r : message_row) :
  In r (polledRows s) ->
  exists tbl, fst (pg_messages (world s)) = Some tbl
              /\ In r tbl
              /\ row_recipient r = queriedRecipient s
              /\ lastCheckedMessageId (window s) < row_id r.
Proof.
  unfold polledRows. intros Hr.
  destruct (negb (ctx (window s)) || isEmpty (currentIdentity (window s)));
    [done|].
  destruct (fst (pg_messages (world s))) as [tbl|]; [|done].
  exists tbl. by apply selectNewMessages_In in Hr.
Qed.

(** The ids a poll answers are above the cursor it was asked with. *)
Lemma polledRows_newer (s : Sys W) :
  Forall (fun id => lastCheckedMessageId (window s) < id)
         (List.map row_id (polledRows s)).
Proof.
  apply List.Forall_forall. intros id Hid.
  apply in_map_iff in Hid as (r & <- & Hr).
  by apply polledRows_In in Hr as (tbl & _ & _ & _ & Hnew).
Qed.

(** Where the ids of the table are values of an [int], [msgId] is the id
    of the row. *)
Lemma polledRows_int (s : Sys W) :
  intIds s -> msgIds (polledRows s) = List.map row_id (polledRows s).
Proof.
  intros Hint. apply msgIds_int, List.Forall_forall. intros r Hr.
  apply polledRows_In in Hr as (tbl & Htbl & Hin & _).
  specialize (Hint tbl Htbl). rewrite List.Forall_forall in Hint. by apply Hint.
Qed.

Lemma tick_maxFrom (c : Z) (s : Sys W) :
  tick c s = maxFrom c (msgIds (polledRows (atTick c s))).
Proof.
  unfold tick.
  by destruct (checkForNewMessages_after (atTick c s)) as (_ & _ & _ & ->).
Qed.

Lemma tick_base (c : Z) (s : Sys W) : c <= tick c s.
Proof. rewrite tick_maxFrom. apply maxFrom_base. Qed.

Lemma runTicks_app (c : Z) (ticks more : list (Sys W)) :
  runTicks c (ticks ++ more) = runTicks (runTicks c ticks) more.
Proof. revert c. induction ticks as [|s ticks IH]; intros c; simpl; [done|]. apply IH. Qed.

(** From any cursor, the cursor after a run of ticks is the greatest of the
    starting cursor and the values [msgId] took. *)
Lemma runTicks_maxFrom (ticks : list (Sys W)) : forall c,
  runTicks c ticks = maxFrom c (observedIds c ticks).
Proof.
  induction ticks as [|s ticks IH]; intros c; cbn [runTicks observedIds];
    [done|].
  by rewrite IH, maxFrom_app, <- tick_maxFrom.
Qed.

(** The ids the polls of a run answer are above the cursor it starts
    with. *)
Lemma returnedIds_newer (ticks : list (Sys W)) : forall c,
  Forall (fun id => c < id) (returnedIds c ticks).
Proof.
  induction ticks as [|s ticks IH]; intros c; cbn [returnedIds];
    [constructor|].
  pose proof (polledRows_newer (atTick c s)) as Hnow.
  cbn [atTick window lastCheckedMessageId set_lastCheckedMessageId] in Hnow.
  apply Forall_app. split; [exact Hnow|].
  eapply Forall_impl; [exact (IH (tick c s))|]. cbn. intros id Hid.
  pose proof (tick_base c s). lia.
Qed.

(** Where the ids of every table are values of an [int], the loop has the
    ids the polls answered. *)
Lemma observedIds_returned (ticks : list (Sys W)) : forall c,
  Forall intIds ticks -> observedIds c ticks = returnedIds c ticks.
Proof.
  induction ticks as [|s ticks IH]; intros c Hint;
    cbn [observedIds returnedIds]; [done|].
  apply Forall_cons in Hint as [Hs Hticks].
  by rewrite (IH _ Hticks), (polledRows_int (atTick c s) Hs).
Qed.

(** Two ticks: the first answers rows 1 and 3, in that order; the second
    finds the table without new rows, then one whose statement fails. *)
Example poll_three_ticks :
  runTicks 0 [Script.busy; Script.busy; Script.opened] = 3
  /\ returnedIds 0 [Script.busy; Script.busy; Script.opened] = [1; 3]
  /\ notifications (eventsOf checkForNewMessages Script.busy)
     = [(Script.bob, lit "2025-01-01 10:30:00");
        (Script.carol, lit "2025-01-01 10:33:00")]
  /\ markedDelivered (eventsOf checkForNewMessages Script.busy) = [1; 3].
Proof. by vm_compute. Qed.

(** C2, as the code has it.  Starting from cursor 0, one more tick never
    lowers the cursor, and after any sequence of ticks the cursor is the
    greatest of 0 and the values the loop read into its [int] [msgId].
    Where every id of the tables is the value of an [int], these are the
    ids the polls answered: the cursor is the greatest id among the
    messages all polls so far have answered, and 0 while no poll has
    answered any. *)
Theorem poll_cursor_is_running_maximum (ticks : list (Sys W)) (next : Sys W) :
  let cursor := runTicks 0 ticks in
  cursor <= runTicks 0 (ticks ++ [next])
  /\ cursor = maxFrom 0 (observedIds 0 ticks)
  /\ (Forall intIds ticks ->
      let seen := returnedIds 0 ticks in
      cursor = maxFrom 0 seen
      /\ Forall (fun id => id <= cursor) seen
      /\ match seen with
         | [] => cursor = 0
         | _ :: _ => In cursor seen
         end).
Proof.
  intros cursor. subst cursor.
  split; [|split].
  - rewrite runTicks_app. cbn [runTicks]. apply tick_base.
  - apply runTicks_maxFrom.
  - intros Hint seen. subst seen.
    pose proof (returnedIds_newer ticks 0) as Hpos.
    rewrite runTicks_maxFrom, (observedIds_returned _ _ Hint).
    split; [done|]. split; [apply maxFrom_upper|].
    destruct (returnedIds 0 ticks) as [|id ids] eqn:Hseen; [done|].
    destruct (maxFrom_attained 0 (id :: ids)) as [Hzero|Hin]; [|exact Hin].
    exfalso. inversion Hpos as [|? ? Hid _]. subst.
    pose proof (maxFrom_upper 0 (id :: ids)) as Hupper.
    inversion Hupper as [|? ? Hle _]. subst. lia.
Qed.

(** C3, as the code has it.  The table holds the one row (1, bob, alice,
    read) and alice's window polls with cursor 0.  The query is run for
    what is read where the bytes of "alice" were before they were freed.
    If that is still "alice", the tick leaves the cursor at 1, shows exactly
    one notification, carrying bob and the timestamp of the row, and makes
    exactly one mark-delivered call, for id 1.  If it is anything else, the
    row is not fetched: the cursor stays at 0, nothing is announced and
    nothing is marked delivered. *)
Theorem poll_scenario_needs_freed_bytes (s : Sys W) (timestamp : QString) :
  ctx (window s) = true ->
  currentIdentity (window s) = lit "alice" ->
  lastCheckedMessageId (window s) = 0 ->
  fst (pg_messages (world s))
  = Some [{| row_id := 1; row_sender := lit "bob"; row_recipient := lit "alice";
             row_created_at := timestamp; row_status := Some (lit "read") |}] ->
  (read_freed 0 (lit "alice") (world s) = lit "alice" ->
   lastCheckedMessageId (window (after checkForNewMessages s)) = 1
   /\ notifications (eventsOf checkForNewMessages s) = [(lit "bob", timestamp)]
   /\ markedDelivered (eventsOf checkForNewMessages s) = [1])
  /\ (read_freed 0 (lit "alice") (world s) <> lit "alice" ->
      lastCheckedMessageId (window (after checkForNewMessages s)) = 0
      /\ notifications (eventsOf checkForNewMessages s) = []
      /\ markedDelivered (eventsOf checkForNewMessages s) = []).
Proof.
  intros Hctx Hme Hcursor Htable.
  destruct (checkForNewMessages_after s) as (-> & -> & _ & ->).
  unfold polledRows, queriedRecipient.
  rewrite Hctx, Hme, Hcursor, Htable. cbn [negb orb isEmpty lit List.map].
  split.
  - by intros ->.
  - intros Hother.
    unfold selectNewMessages. cbn [List.filter].
    match goal with |- context [isNewFor ?recipient ?cursor ?r] =>
      assert (isNewFor recipient cursor r = false) as ->
    end.
    { unfold isNewFor. cbn [row_recipient]. apply andb_false_iff. left.
      apply eqb_false. congruence. }
    done.
Qed.

(** C8.  When the statement of the poll does not complete, the window is
    left as it was and the tick makes no further call: no message is marked
    delivered, nothing is announced, no conversation is loaded. *)
Theorem failed_poll_changes_nothing (s : Sys W) :
  fst (pg_messages (world s)) = None ->
  window (after checkForNewMessages s) = window s
  /\ eventsOf checkForNewMessages s
     = (if negb (ctx (window s)) || isEmpty (currentIdentity (window s))
        then []
        else [Query_new_messages (queriedRecipient s)
                (lastCheckedMessageId (window s))])
  /\ markedDelivered (eventsOf checkForNewMessages s) = []
  /\ notifications (eventsOf checkForNewMessages s) = []
  /\ reloads (eventsOf checkForNewMessages s) = [].
Proof.
  intros Hfail. unfold eventsOf. rewrite checkForNewMessages_steps. cbv zeta.
  rewrite Hfail.
  destruct (negb (ctx (window s)) || isEmpty (currentIdentity (window s))).
  - by rewrite drop_all.
  - cbn [window trace]. by rewrite drop_app_length.
Qed.

End PollClaims.

Lemma poll_cursor_is_running_maximum_witness :
  runTicks 0 [Script.busy; Script.busy] = maxFrom 0 [1; 3]
  /\ In (runTicks 0 [Script.busy; Script.busy]) [1; 3].
Proof.
  assert (Forall intIds [Script.busy; Script.busy]) as Hint.
  { repeat constructor; intros tbl [= <-]; repeat constructor; by vm_compute. }
  destruct (poll_cursor_is_running_maximum [Script.busy; Script.busy]
              Script.opened) as (_ & _ & Hseen).
  destruct (Hseen Hint) as (Hmax & _ & Hin).
  split; [exact Hmax | exact Hin].
Defined.

(** C2, as the spec has it, fails: the table holds one row for alice whose
    id is one more than the greatest [int]; the poll answers it, [atoi]
    reads something below the cursor, and the cursor stays at 0. *)
Lemma cursor_misses_id_beyond_int :
  returnedIds 0 [More.huge] = [2147483648]
  /\ runTicks 0 [More.huge] = 0
  /\ runTicks 0 [More.huge] <> maxFrom 0 (returnedIds 0 [More.huge]).
Proof. by vm_compute. Qed.

Lemma failed_poll_changes_nothing_witness :
  window (after checkForNewMessages Script.opened) = window Script.opened
  /\ eventsOf checkForNewMessages Script.opened
     = [Query_new_messages Script.alice 0].
Proof.
  assert (fst (pg_messages (world Script.opened)) = None) as Hfail
    by reflexivity.
  destruct (failed_poll_changes_nothing Script.opened Hfail)
    as (Hwindow & Hevents & _).
  split; [exact Hwindow | exact Hevents].
Defined.

(** Scenario A where the freed bytes have been written over: the row of
    alice is not fetched. *)
Lemma poll_scenario_needs_freed_bytes_witness :
  queriedRecipient More.overwritten = lit "xyz"
  /\ lastCheckedMessageId (window (after checkForNewMessages More.overwritten)) = 0
  /\ notifications (eventsOf checkForNewMessages More.overwritten) = []
  /\ markedDelivered (eventsOf checkForNewMessages More.overwritten) = [].
Proof.
  split; [reflexivity|].
  assert (read_freed 0 (lit "alice") (world More.overwritten) <> lit "alice")
    as Hother by (by vm_compute).
  assert (fst (pg_messages (world More.overwritten))
          = Some [{| row_id := 1; row_sender := lit "bob";
                     row_recipient := lit "alice";
                     row_created_at := lit "2025-01-01 10:30:00";
                     row_status := Some (lit "read") |}]) as Htable
    by reflexivity.
  destruct (poll_scenario_needs_freed_bytes More.overwritten
              (lit "2025-01-01 10:30:00") eq_refl eq_refl eq_refl Htable)
    as [_ Hmissed].
  exact (Hmissed Hother).
Defined.

(** ** Sending *)

Section SendClaims.

Context {W : Type} `{Messenger W}.

(** The send call is one call, or a warning and no call. *)
Lemma sendCall_after (g : MainWindow) (message : QString) (s : Sys W) :
  window (after (sendCall g message) s) = window s
  /\ match fst (sendCall g message s) with
     | Some _ =>
         exists call,
           trace (after (sendCall g message) s) = trace s ++ [call]
           /\ (call = Call_send_message (sendRecipients g) message
               \/ call = Call_send_group_message (currentGroupId g) message)
     | None =>
         trace (after (sendCall g message) s)
         = trace s ++ [WarningBox (lit "No Selection")]
     end.
Proof.
  unfold sendCall, after, bind, extern, emit, ret.
  destruct (isGroupType (currentContactType g) && (0 <=? currentGroupId g)).
  - destruct (messenger_send_group_message _ _ _) as [result w].
    cbn [fst snd window trace]. split; [done|]. eexists. split; [done|]. by right.
  - destruct (isContactType (currentContactType g)
              && negb (isEmpty (currentContact g))).
    + destruct (messenger_send_message _ _ _) as [result w].
      cbn [fst snd window trace]. split; [done|]. eexists. split; [done|]. by left.
    + by cbn [fst snd window trace].
Qed.

(** C9.  When the send call answers a result other than 0, the window is
    left as it was but for the status label: the input keeps its text, the
    display gets no bubble.  The failure is shown in a critical message box
    and in the status label. *)
Theorem failed_send_changes_nothing (s : Sys W) (result : Z) :
  sendResultOf s = Some result ->
  result <> 0 ->
  let g := window s in
  let g' := window (after onSendMessage s) in
  g' = set_statusLabel StatusSendFailed g
  /\ messageInput g' = messageInput g
  /\ messageDisplay g' = messageDisplay g
  /\ exists call,
       eventsOf onSendMessage s = [call; CriticalBox sendFailedTitle]
       /\ (call = Call_send_message (sendRecipients g) (trimmed (messageInput g))
           \/ call = Call_send_group_message (currentGroupId g)
                       (trimmed (messageInput g))).
Proof.
  intros Hsend Hresult g g'. subst g g'. unfold sendResultOf in Hsend.
  unfold eventsOf, onSendMessage, after, bind, this.
  cbn [fst snd] in *.
  destruct (isEmpty (trimmed (messageInput (window s)))); [done|].
  pose proof (sendCall_after (window s) (trimmed (messageInput (window s))) s)
    as [Hwindow Hcall].
  unfold after in Hwindow, Hcall.
  destruct (sendCall (window s) (trimmed (messageInput (window s))) s)
    as [sent s1].
  cbn [fst snd] in *. subst sent.
  destruct Hcall as (call & Htrace & Hwhich).
  apply Z.eqb_neq in Hresult. rewrite Hresult.
  unfold emit, assign. cbn [fst snd world window trace].
  rewrite Hwindow, Htrace, <- app_assoc, drop_app_length.
  repeat split; try done. by exists call.
Qed.

(** C10.  When the input is empty or all white space, [onSendMessage] does
    nothing: the state is the one it started in, so no call is made, no box
    is shown and the display is as it was. *)
Theorem blank_input_sends_nothing (s : Sys W) :
  Forall (fun c => isSpace c = true) (messageInput (window s)) ->
  onSendMessage s = (tt, s)
  /\ sendResultOf s = None
  /\ eventsOf onSendMessage s = []
  /\ messageDisplay (window (after onSendMessage s)) = messageDisplay (window s).
Proof.
  intros Hblank.
  assert (onSendMessage s = (tt, s)) as Hnothing.
  { unfold onSendMessage, bind, this, ret. by rewrite (trimmed_blank _ Hblank). }
  unfold eventsOf, after, sendResultOf. rewrite Hnothing, (trimmed_blank _ Hblank).
  cbn [fst snd isEmpty]. by rewrite drop_all.
Qed.

End SendClaims.

Lemma failed_send_changes_nothing_witness :
  messageInput (window (after onSendMessage Script.composing)) = lit " hello "
  /\ messageDisplay (window (after onSendMessage Script.composing)) = []
  /\ exists call,
       eventsOf onSendMessage Script.composing
       = [call; CriticalBox sendFailedTitle]
       /\ (call = Call_send_message [Script.bob] (lit "hello")
           \/ call = Call_send_group_message (-1) (lit "hello")).
Proof.
  assert (sendResultOf Script.composing = Some (-1)) as Hsend by (by vm_compute).
  assert (-1 <> 0) as Hresult by lia.
  destruct (failed_send_changes_nothing Script.composing (-1) Hsend Hresult)
    as (_ & Hinput & Hdisplay & Hevents).
  split; [exact Hinput|]. split; [exact Hdisplay | exact Hevents].
Defined.

Lemma blank_input_sends_nothing_witness :
  onSendMessage Script.idle = (tt, Script.idle)
  /\ eventsOf onSendMessage Script.idle = [].
Proof.
  assert (Forall (fun c => isSpace c = true)
            (messageInput (window Script.idle))) as Hblank
    by (repeat constructor).
  destruct (blank_input_sends_nothing Script.idle Hblank)
    as (Hnothing & _ & Hevents & _).
  split; [exact Hnothing | exact Hevents].
Defined.

(** ** Additional recipients *)

Lemma toggleRow_texts (i : nat) (items : list ListItem) :
  List.map item_text (toggleRow i items) = List.map item_text items.
Proof.
  revert i. induction items as [|it items IH]; intros [|j]; simpl; try done.
  by rewrite IH.
Qed.

Lemma afterClicks_texts (clicks : list nat) : forall items,
  List.map item_text (afterClicks clicks items) = List.map item_text items.
Proof.
  unfold afterClicks.
  induction clicks as [|i clicks IH]; intros items; simpl; [done|].
  by rewrite IH, toggleRow_texts.
Qed.

Lemma selectedContacts_In (c : QString) (items : list ListItem) :
  In c (selectedContacts items) ->
  In c (List.map stripPrefix (List.map item_text items)).
Proof.
  unfold selectedContacts. rewrite List.map_map, !in_map_iff.
  intros (it & <- & Hit). apply filter_In in Hit as [Hit _]. by exists it.
Qed.

(** The rows of the dialog name the contacts other than the current one
    and the local identity, in the order of the contact list. *)
Lemma dialogItems_names (g : MainWindow) (identities : list QString) :
  List.map stripPrefix (List.map item_text (dialogItems g identities))
  = List.filter
      (fun contact => negb (Q.eqb contact (currentContact g))
                      && negb (Q.eqb contact (currentIdentity g)))
      identities.
Proof.
  unfold dialogItems. rewrite !List.map_map. cbn [item_text].
  erewrite map_ext; [apply map_id|]. intros c. apply stripPrefix_bust.
Qed.

(** Whatever is clicked, a contact that ends up chosen was offered: it is in
    the contact list and is neither the current contact nor the local
    identity. *)
Lemma chosen_was_offered (g : MainWindow) (identities : list QString)
    (clicks : list nat) (c : QString) :
  In c (selectedContacts (afterClicks clicks (dialogItems g identities))) ->
  In c identities /\ c <> currentContact g /\ c <> currentIdentity g.
Proof.
  intros Hc. apply selectedContacts_In in Hc.
  rewrite afterClicks_texts, dialogItems_names in Hc.
  apply filter_In in Hc as [Hin Hkeep].
  apply andb_true_iff in Hkeep as [Hprimary Hself].
  apply negb_true_iff in Hprimary, Hself.
  by apply eqb_false in Hprimary, Hself.
Qed.

Section RecipientClaims.

Context {W : Type} `{Messenger W}.

(** [onAddRecipients] with a current contact and a dialog closed by OK. *)
Lemma onAddRecipients_accepted (s : Sys W) :
  isEmpty (currentContact (window s)) = false ->
  run_code (dialogRunOf s) = Accepted ->
  let chosen := selectedContacts
                  (afterClicks (run_clicks (dialogRunOf s)) (offeredItems s)) in
  window (after onAddRecipients s)
  = set_statusLabel (StatusRecipientsAdded (length chosen))
      (set_recipientsLabel (ToContacts (currentContact (window s)) chosen)
         (set_additionalRecipients chosen (window s))).
Proof.
  intros Hcontact Haccepted.
  unfold dialogRunOf, offeredItems in *.
  unfold onAddRecipients, after, bind, this, extern, assign.
  cbn [fst snd world window trace]. rewrite Hcontact.
  destruct (messenger_get_contact_list (world s)) as [r w1].
  cbn [fst snd world window trace] in *.
  destruct (recipientsDialog_exec _ w1) as [run w2].
  cbn [fst snd world window trace] in *. by rewrite Haccepted.
Qed.

(** [onAddRecipients] with a dialog closed by Cancel leaves the window. *)
Lemma onAddRecipients_rejected (s : Sys W) :
  isEmpty (currentContact (window s)) = false ->
  run_code (dialogRunOf s) = Rejected ->
  window (after onAddRecipients s) = window s.
Proof.
  intros Hcontact Hrejected.
  unfold dialogRunOf, offeredItems in *.
  unfold onAddRecipients, after, bind, this, extern, assign.
  cbn [fst snd world window trace]. rewrite Hcontact.
  destruct (messenger_get_contact_list (world s)) as [r w1].
  cbn [fst snd world window trace] in *.
  destruct (recipientsDialog_exec _ w1) as [run w2].
  cbn [fst snd world window trace] in *. by rewrite Hrejected.
Qed.

End RecipientClaims.

(** C7.  Whatever the contact list holds and whatever the user clicks, the
    additional recipients the dialog leaves on OK contain neither the
    current contact nor the local identity, and the send path addresses
    the current contact followed by them.  With bob open as alice, the
    contacts alice, bob and carol, and a user who means to select carol and
    alice, the recipients of the next send are bob and carol. *)
Theorem recipient_set_excludes_primary_and_self :
  (forall (W : Type) (messenger : Messenger W) (s : Sys W),
     isEmpty (currentContact (window s)) = false ->
     run_code (dialogRunOf s) = Accepted ->
     let g' := window (after onAddRecipients s) in
     ~ In (currentContact g') (additionalRecipients g')
     /\ ~ In (currentIdentity g') (additionalRecipients g')
     /\ currentContact g' = currentContact (window s)
     /\ currentIdentity g' = currentIdentity (window s)
     /\ sendRecipients g' = currentContact (window s) :: additionalRecipients g')
  /\ (currentContact (window Script.withBob) = lit "bob"
      /\ currentIdentity (window Script.withBob) = lit "alice"
      /\ Script.wanted (world Script.withBob) = [lit "carol"; lit "alice"]
      /\ sendRecipients (window (after onAddRecipients Script.withBob))
         = [lit "bob"; lit "carol"]).
Proof.
  split.
  - intros W messenger s Hcontact Haccepted g'. subst g'.
    rewrite (onAddRecipients_accepted s Hcontact Haccepted).
    cbn [currentContact currentIdentity additionalRecipients sendRecipients
         set_statusLabel set_recipientsLabel set_additionalRecipients].
    repeat split; try done.
    + intros Hin. by apply chosen_was_offered in Hin as (_ & Hne & _).
    + intros Hin. by apply chosen_was_offered in Hin as (_ & _ & Hne).
  - by vm_compute.
Qed.

Lemma recipient_set_excludes_primary_and_self_witness :
  ~ In Script.bob
      (additionalRecipients (window (after onAddRecipients Script.withBob)))
  /\ ~ In Script.alice
        (additionalRecipients (window (after onAddRecipients Script.withBob))).
Proof.
  assert (isEmpty (currentContact (window Script.withBob)) = false) as Hcontact
    by reflexivity.
  assert (run_code (dialogRunOf Script.withBob) = Accepted) as Haccepted
    by reflexivity.
  destruct (proj1 recipient_set_excludes_primary_and_self
              Script.World Script.messenger Script.withBob Hcontact Haccepted)
    as (Hprimary & Hself & _).
  split; [exact Hprimary | exact Hself].
Defined.

(* ===================================================================== *)
(** * Further properties *)
(* ===================================================================== *)

(** ** What a computation keeps and what it emits *)

Section Frames.

Context {W : Type}.
Variable R : MainWindow -> MainWindow -> Prop.
Variable P : Event -> Prop.
Hypothesis R_refl : forall g, R g g.
Hypothesis R_trans : forall g1 g2 g3, R g1 g2 -> R g2 g3 -> R g1 g3.

Lemma framesAt_ret {A} (a : A) (s : Sys W) : framesAt R P (ret a) s.
Proof.
  split; [apply R_refl|]. exists []. unfold after, ret. simpl.
  by rewrite app_nil_r.
Qed.

Lemma framesAt_bind {A B} (m : M W A) (k : A -> M W B) (s : Sys W) :
  framesAt R P m s ->
  framesAt R P (k (fst (m s))) (after m s) ->
  framesAt R P (x <- m ;; k x) s.
Proof.
  intros [Hr1 (evs1 & Ht1 & Hp1)] [Hr2 (evs2 & Ht2 & Hp2)].
  unfold framesAt. rewrite after_bind. split; [by eapply R_trans|].
  exists (evs1 ++ evs2). rewrite Ht2, Ht1, <- app_assoc.
  split; [done|]. by apply Forall_app.
Qed.

Lemma frames_ret {A} (a : A) : frames R P (ret (W:=W) a).
Proof. intros s. apply framesAt_ret. Qed.

Lemma frames_bind {A B} (m : M W A) (k : A -> M W B) :
  frames R P m -> (forall a, frames R P (k a)) -> frames R P (x <- m ;; k x).
Proof. intros Hm Hk s. apply framesAt_bind; [apply Hm | apply Hk]. Qed.

Lemma framesAt_this {A} (k : MainWindow -> M W A) (s : Sys W) :
  framesAt R P (k (window s)) s -> framesAt R P (g <- this ;; k g) s.
Proof.
  intros Hk. apply framesAt_bind; [|exact Hk].
  split; [apply R_refl|]. exists []. unfold after, this. simpl.
  by rewrite app_nil_r.
Qed.

Lemma frames_this {A} (k : MainWindow -> M W A) :
  (forall g, frames R P (k g)) -> frames R P (g <- this ;; k g).
Proof. intros Hk s. apply framesAt_this, Hk. Qed.

Lemma frames_assign (f : MainWindow -> MainWindow) :
  (forall g, R g (f g)) -> frames R P (assign (W:=W) f).
Proof.
  intros Hf s. split; [apply Hf|]. exists []. unfold after, assign. simpl.
  by rewrite app_nil_r.
Qed.

Lemma frames_emit (e : Event) : P e -> frames R P (emit (W:=W) e).
Proof.
  intros He s. split; [apply R_refl|]. exists [e]. unfold after, emit. simpl.
  split; [done|]. by constructor.
Qed.

Lemma frames_extern {A} (e : Event) (f : W -> A * W) :
  P e -> frames R P (extern e f).
Proof.
  intros He s. unfold framesAt, after, extern. destruct (f (world s)) as [a w].
  simpl. split; [apply R_refl|]. exists [e]. split; [done|]. by constructor.
Qed.

Lemma frames_ask {A} (f : W -> A * W) : frames R P (ask f).
Proof.
  intros s. unfold framesAt, after, ask. destruct (f (world s)) as [a w].
  simpl. split; [apply R_refl|]. exists []. by rewrite app_nil_r.
Qed.

Lemma frames_peek {A} (f : W -> A) : frames R P (peek f).
Proof.
  intros s. unfold framesAt, after, peek. simpl.
  split; [apply R_refl|]. exists []. by rewrite app_nil_r.
Qed.

Lemma frames_forEach {A} (xs : list A) (body : A -> M W unit) :
  (forall x, frames R P (body x)) -> frames R P (forEach xs body).
Proof.
  intros Hbody. induction xs as [|x xs IH]; simpl.
  - apply frames_ret.
  - apply frames_bind; [apply Hbody | intros _; exact IH].
Qed.

End Frames.

Lemma frames_weaken {W A} (R R' : MainWindow -> MainWindow -> Prop)
    (P P' : Event -> Prop) (m : M W A) :
  (forall g g', R g g' -> R' g g') ->
  (forall e, P e -> P' e) ->
  frames R P m -> frames R' P' m.
Proof.
  intros HR HP Hm s. destruct (Hm s) as [Hr (evs & Ht & Hp)].
  split; [by apply HR|]. exists evs. split; [done|].
  eapply Forall_impl; [exact Hp | exact HP].
Qed.

Section SlotFrames.

Context {W : Type} `{Messenger W} `{ReadMarker W}.
Variable R : MainWindow -> MainWindow -> Prop.
Variable P : Event -> Prop.
Hypothesis R_refl : forall g, R g g.
Hypothesis R_trans : forall g1 g2 g3, R g1 g2 -> R g2 g3 -> R g1 g3.
Hypothesis R_display : forall d g, R g (set_messageDisplay d g).
Hypothesis R_status : forall st g, R g (set_statusLabel st g).
Hypothesis P_view : forall e, viewEvent e -> P e.

Local Ltac frame_step :=
  first [ apply frames_ret | apply frames_this | apply frames_bind
        | apply frames_assign | apply frames_emit | apply frames_extern
        | apply frames_ask | apply frames_peek | apply frames_forEach ];
  try assumption; intros.

Local Ltac frame :=
  repeat frame_step;
  try apply R_display; try apply R_status; try (apply P_view; exact I).

Local Ltac frames :=
  frame;
  repeat (match goal with
          | |- frames _ _ (match ?x with _ => _ end) => destruct x
          | |- frames _ _ (if ?x then _ else _) => destruct x
          end; frame).

Lemma frames_directMessage (m : message_info) : frames R P (directMessage m).
Proof. unfold directMessage. frames. Qed.

Lemma frames_groupMessage (m : message_info) : frames R P (groupMessage m).
Proof. unfold groupMessage. frames. Qed.

Lemma frames_loadConversation (contact : QString) :
  frames R P (loadConversation contact).
Proof. unfold loadConversation. frames; apply frames_directMessage. Qed.

Lemma frames_loadGroupConversation (gid : Z) :
  frames R P (loadGroupConversation gid).
Proof. unfold loadGroupConversation. frames; apply frames_groupMessage. Qed.

Hypothesis R_cursor : forall c g, R g (set_lastCheckedMessageId c g).
Hypothesis P_poll : forall e, pollEvent e -> P e.

Lemma frames_newMessage (r : message_row) : frames R P (newMessage r).
Proof.
  unfold newMessage. frames;
    first [ apply R_cursor | apply P_poll; exact I
          | apply frames_loadConversation ].
Qed.

Lemma frames_checkForNewMessages : frames R P (checkForNewMessages (W:=W)).
Proof.
  unfold checkForNewMessages. frames;
    first [ apply R_cursor | apply P_poll; exact I
          | apply frames_loadConversation | apply frames_newMessage ].
Qed.

End SlotFrames.

Lemma reloads_decryptCalls (ids : list Z) :
  reloads (List.map Call_decrypt_message ids) = [].
Proof. by induction ids. Qed.

Lemma redrawn_sameSelection (g g' : MainWindow) :
  redrawn g g' -> sameSelection g g'.
Proof. unfold redrawn. intros ->. by repeat split. Qed.

Lemma redrawn_input (g g' : MainWindow) :
  redrawn g g' -> messageInput g' = messageInput g.
Proof. unfold redrawn. by intros ->. Qed.

(** ** Status polling *)

Section StatusPolling.

Context {W : Type} `{Messenger W} `{ReadMarker W}.

(** A load of a named conversation asks the store for it exactly once. *)
Lemma loadConversation_reloads (contact : QString) (s : Sys W) :
  isEmpty contact = false ->
  reloads (eventsOf (loadConversation contact) s) = [contact].
Proof.
  intros Hname.
  destruct (storeRead (Contact contact) s) as [msgs|] eqn:Hread.
  - destruct (loadConversation_loaded _ _ _ Hname Hread) as (w & entries & Hafter & _).
    rewrite (eventsOf_app _ _ _ (f_equal trace Hafter)). cbn [reloads flat_map app].
    fold (reloads (List.map Call_decrypt_message
            (List.map mi_id (List.filter (canDecrypt (window s)) msgs)))).
    by rewrite reloads_decryptCalls.
  - destruct (loadConversation_failed _ _ Hname Hread) as (w & Hafter).
    by rewrite (eventsOf_app _ _ _ (f_equal trace Hafter)).
Qed.

(** [checkForStatusUpdates], step by step. *)
Lemma checkForStatusUpdates_steps (s : Sys W) :
  after checkForStatusUpdates s
  = let g := window s in
    if negb (ctx g) || isEmpty (currentContact g) then s
    else
      let s1 := MkSys (snd (pg_messages (world s))) g
                  (trace s ++ [statusQuery s]) in
      match fst (pg_messages (world s)) with
      | None => s1
      | Some table =>
          if 0 <? atoi (countStatusUpdates (queriedSender s) (queriedContact s)
                          table)
          then after (loadConversation (currentContact g)) s1
          else s1
      end.
Proof.
  unfold checkForStatusUpdates, statusQuery, queriedSender, queriedContact.
  unfold after, bind, this, peek, extern, ret.
  cbn [fst snd world window trace].
  destruct (negb (ctx (window s)) || isEmpty (currentContact (window s)));
    [done|].
  destruct (pg_messages (world s)) as [[tbl|] w1]; cbn [fst snd]; [|done].
  by destruct (0 <? _).
Qed.

Lemma statusPollEvents_quiet (evs : list Event) :
  Forall statusPollEvent evs ->
  notifications evs = [] /\ markedDelivered evs = []
  /\ Forall notSend evs.
Proof.
  induction 1 as [|e evs He _ (IHn & IHd & IHs)]; [by repeat split|].
  destruct e; try done; simpl; rewrite ?IHn, ?IHd; repeat split; try done;
    by constructor.
Qed.

Lemma loadEvent_statusPollEvent (e : Event) : loadEvent e -> statusPollEvent e.
Proof. by destruct e. Qed.

(** The status poll only redraws, and only queries and loads. *)
Lemma frames_checkForStatusUpdates :
  frames redrawn statusPollEvent (checkForStatusUpdates (W:=W)).
Proof.
  intros s. unfold framesAt. rewrite checkForStatusUpdates_steps. cbv zeta.
  destruct (negb (ctx (window s)) || isEmpty (currentContact (window s))).
  { split; [apply redrawn_refl|]. exists []. by rewrite app_nil_r. }
  assert (redrawn (window s) (window s)
          /\ exists evs, trace s ++ [statusQuery s] = trace s ++ evs
                         /\ Forall statusPollEvent evs) as Hquery.
  { split; [apply redrawn_refl|]. exists [statusQuery s].
    split; [done|]. by repeat constructor. }
  destruct (fst (pg_messages (world s))) as [tbl|]; [|exact Hquery].
  destruct (0 <? _); [|exact Hquery].
  match goal with |- context [after _ ?s1] =>
    destruct (loadConversation_frame (currentContact (window s)) s1)
      as (evs & Htrace & Hevs & Hredrawn)
  end.
  split; [exact Hredrawn|].
  exists (statusQuery s :: evs). rewrite Htrace. cbn [trace].
  rewrite <- app_assoc. split; [done|].
  constructor; [done|].
  eapply Forall_impl; [exact Hevs | exact loadEvent_statusPollEvent].
Qed.

(** The status poll loads no conversation but the open one, and that at
    most once. *)
Lemma checkForStatusUpdates_reloads (s : Sys W) :
  reloads (eventsOf checkForStatusUpdates s) = []
  \/ reloads (eventsOf checkForStatusUpdates s) = [currentContact (window s)].
Proof.
  unfold eventsOf. rewrite checkForStatusUpdates_steps. cbv zeta.
  destruct (negb (ctx (window s)) || isEmpty (currentContact (window s)))
    eqn:Hguard.
  { left. by rewrite drop_all. }
  apply orb_false_iff in Hguard as [_ Hcontact].
  assert (reloads (drop (length (trace s)) (trace s ++ [statusQuery s])) = [])
    as Hquery by (by rewrite drop_app_length).
  destruct (fst (pg_messages (world s))) as [tbl|]; [|by left].
  destruct (0 <? _); [|by left].
  right.
  match goal with |- context [after _ ?s1] =>
    pose proof (loadConversation_reloads _ s1 Hcontact) as Hload;
    destruct (loadConversation_frame (currentContact (window s)) s1)
      as (evs & Htrace & _)
  end.
  rewrite (eventsOf_app _ _ _ Htrace) in Hload.
  rewrite Htrace. cbn [trace]. by rewrite <- app_assoc, drop_app_length.
Qed.

(** X1.  The status poll is silent: it moves no cursor, shows no
    notification, marks nothing delivered, makes no send call, and leaves
    the input line, the selection and the additional recipients alone.
    All it does outside the window is its count query and the calls of a
    conversation load, and the one conversation it may load, once, is that
    of the current contact. *)
Theorem status_poll_is_silent (s : Sys W) :
  let g := window s in
  let g' := window (after checkForStatusUpdates s) in
  let evs := eventsOf checkForStatusUpdates s in
  lastCheckedMessageId g' = lastCheckedMessageId g
  /\ messageInput g' = messageInput g
  /\ sameSelection g g'
  /\ notifications evs = []
  /\ markedDelivered evs = []
  /\ Forall notSend evs
  /\ Forall statusPollEvent evs
  /\ (reloads evs = [] \/ reloads evs = [currentContact g]).
Proof.
  intros g g' evs. subst g g' evs.
  pose proof (checkForStatusUpdates_reloads s) as Hreloads.
  destruct (frames_checkForStatusUpdates s) as [Hredrawn (evs & Htrace & Hevs)].
  rewrite (eventsOf_app _ _ _ Htrace) in *.
  destruct (statusPollEvents_quiet _ Hevs) as (Hn & Hd & Hs).
  split; [by apply redrawn_cursor|].
  split; [by apply redrawn_input|].
  split; [by apply redrawn_sameSelection|].
  by repeat split.
Qed.

Lemma countStatusUpdates_pos (sender recipient : QString)
    (tbl : list message_row) :
  0 < countStatusUpdates sender recipient tbl <->
  exists r, In r tbl /\ row_sender r = sender /\ row_recipient r = recipient
            /\ (row_status r = Some (lit "delivered")
                \/ row_status r = Some (lit "read")).
Proof.
  unfold countStatusUpdates. split.
  - intros Hpos.
    destruct (List.filter _ tbl) as [|r rs] eqn:Hfilter; [simpl in Hpos; lia|].
    assert (In r (r :: rs)) as Hr by (by left).
    rewrite <- Hfilter in Hr. apply filter_In in Hr as [Hin Hr].
    apply andb_true_iff in Hr as [Hr Hstatus].
    apply andb_true_iff in Hr as [Hsender Hrecipient].
    apply eqb_true in Hsender, Hrecipient.
    exists r. repeat split; try done.
    unfold isDeliveredOrRead in Hstatus.
    destruct (row_status r) as [st|]; [|done].
    apply orb_true_iff in Hstatus as [Hst|Hst]; apply eqb_true in Hst;
      subst st; auto.
  - intros (r & Hin & Hsender & Hrecipient & Hstatus).
    assert (In r (List.filter
                    (fun r => Q.eqb (row_sender r) sender
                              && Q.eqb (row_recipient r) recipient
                              && isDeliveredOrRead r) tbl)) as Hr.
    { apply filter_In. split; [done|].
      rewrite Hsender, Hrecipient, !eqb_refl. unfold isDeliveredOrRead.
      by destruct Hstatus as [->| ->]. }
    destruct (List.filter _ tbl); [done|]. simpl. lia.
Qed.

(** The count fits an [int] when the number of rows does. *)
Lemma countStatusUpdates_int (sender recipient : QString)
    (tbl : list message_row) :
  Z.of_nat (length tbl) <= INT_MAX ->
  atoi (countStatusUpdates sender recipient tbl)
  = countStatusUpdates sender recipient tbl.
Proof.
  intros Hrows. apply atoi_int. unfold countStatusUpdates, fitsInt, INT_MIN.
  pose proof (List.filter_length_le
                (fun r => Q.eqb (row_sender r) sender
                          && Q.eqb (row_recipient r) recipient
                          && isDeliveredOrRead r) tbl).
  lia.
Qed.

(** X2.  With a conversation open and the count statement answered for a
    table whose number of rows fits an [int], the status poll reloads the
    open conversation, once, exactly when the table holds a row with status
    delivered or read whose sender and recipient are the two strings the
    query was run for: what is read where the bytes of the local identity
    and of the open contact were.  Otherwise it leaves the window as it was
    and the query is its only event. *)
Theorem status_poll_reloads_on_delivery (s : Sys W) (tbl : list message_row) :
  ctx (window s) = true ->
  isEmpty (currentContact (window s)) = false ->
  fst (pg_messages (world s)) = Some tbl ->
  Z.of_nat (length tbl) <= INT_MAX ->
  let g := window s in
  let updated :=
    exists r, In r tbl /\ row_sender r = queriedSender s
              /\ row_recipient r = queriedContact s
              /\ (row_status r = Some (lit "delivered")
                  \/ row_status r = Some (lit "read")) in
  (updated ->
     reloads (eventsOf checkForStatusUpdates s) = [currentContact g]
     /\ after checkForStatusUpdates s
        = after (loadConversation (currentContact g))
            (MkSys (snd (pg_messages (world s))) g
               (trace s ++ [statusQuery s])))
  /\ (~ updated ->
        window (after checkForStatusUpdates s) = g
        /\ eventsOf checkForStatusUpdates s = [statusQuery s]).
Proof.
  intros Hctx Hcontact Htable Hrows g updated. subst g updated.
  unfold eventsOf. rewrite checkForStatusUpdates_steps. cbv zeta.
  rewrite Hctx, Hcontact, Htable. cbn [negb orb].
  rewrite (countStatusUpdates_int _ _ _ Hrows).
  split.
  - intros Hupdated. apply countStatusUpdates_pos in Hupdated.
    apply Z.ltb_lt in Hupdated. rewrite Hupdated. split; [|done].
    match goal with |- context [after _ ?s1] =>
      pose proof (loadConversation_reloads _ s1 Hcontact) as Hload;
      destruct (loadConversation_frame (currentContact (window s)) s1)
        as (evs & Htrace & _)
    end.
    rewrite (eventsOf_app _ _ _ Htrace) in Hload.
    rewrite Htrace. cbn [trace]. by rewrite <- app_assoc, drop_app_length.
  - intros Hnone.
    destruct (0 <? _) eqn:Hcount.
    + exfalso. apply Hnone, countStatusUpdates_pos. by apply Z.ltb_lt.
    + cbn [window trace]. by rewrite drop_app_length.
Qed.

(** X3.  Without a messenger context or without an open contact the
    status poll does nothing at all; when its count statement fails, the
    statement is all it has done.  In each case the window is as it was and
    no conversation is loaded. *)
Theorem status_poll_guards (s : Sys W) :
  ctx (window s) = false
  \/ isEmpty (currentContact (window s)) = true
  \/ fst (pg_messages (world s)) = None ->
  window (after checkForStatusUpdates s) = window s
  /\ eventsOf checkForStatusUpdates s
     = (if negb (ctx (window s)) || isEmpty (currentContact (window s))
        then []
        else [statusQuery s])
  /\ reloads (eventsOf checkForStatusUpdates s) = [].
Proof.
  intros Hguard. unfold eventsOf. rewrite checkForStatusUpdates_steps.
  cbv zeta.
  destruct (negb (ctx (window s)) || isEmpty (currentContact (window s)))
    eqn:Hg; [by rewrite drop_all|].
  apply orb_false_iff in Hg as [Hctx Hcontact].
  apply negb_false_iff in Hctx.
  destruct Hguard as [Hno|[Hno| ->]]; [congruence|congruence|].
  cbn [window trace]. by rewrite drop_app_length.
Qed.

End StatusPolling.

Lemma status_poll_reloads_on_delivery_witness :
  reloads (eventsOf checkForStatusUpdates More.scenarioC) = [Script.carol].
Proof.
  assert (ctx (window More.scenarioC) = true) as Hctx by reflexivity.
  assert (isEmpty (currentContact (window More.scenarioC)) = false) as Hcontact
    by reflexivity.
  assert (fst (pg_messages (world More.scenarioC)) = Some More.deliveredToCarol)
    as Htable by reflexivity.
  assert (Z.of_nat (length More.deliveredToCarol) <= INT_MAX) as Hrows
    by (by vm_compute).
  destruct (status_poll_reloads_on_delivery More.scenarioC More.deliveredToCarol
              Hctx Hcontact Htable Hrows) as [Hupdated _].
  apply Hupdated.
  exists {| row_id := 4; row_sender := Script.alice; row_recipient := Script.carol;
            row_created_at := lit "2025-01-01 10:40:00";
            row_status := Some (lit "delivered") |}.
  repeat split; [by left | by left].
Defined.

(** Alice has bob's conversation open; the count statement fails. *)
Lemma status_poll_guards_witness :
  window (after checkForStatusUpdates Script.withBob) = window Script.withBob
  /\ eventsOf checkForStatusUpdates Script.withBob
     = [Query_status_updates Script.alice Script.bob].
Proof.
  assert (fst (pg_messages (world Script.withBob)) = None) as Hfail
    by reflexivity.
  destruct (status_poll_guards Script.withBob (or_intror (or_intror Hfail)))
    as (Hwindow & Hevents & _).
  split; [exact Hwindow | exact Hevents].
Defined.

(** ** More on the new-message poll *)

Lemma insertById_perm (r : message_row) (l : list message_row) :
  Permutation (insertById r l) (r :: l).
Proof.
  induction l as [|x l IH]; simpl; [done|].
  destruct (row_id r <=? row_id x); [done|].
  rewrite IH. apply perm_swap.
Qed.

Lemma orderByIdAsc_perm (l : list message_row) : Permutation (orderByIdAsc l) l.
Proof.
  induction l as [|x l IH]; simpl; [done|].
  rewrite insertById_perm. by constructor.
Qed.

Lemma insertById_ascending (r : message_row) (l : list message_row) :
  ascendingIds (List.map row_id l) ->
  ascendingIds (List.map row_id (insertById r l)).
Proof.
  unfold ascendingIds.
  induction l as [|x l IH]; simpl; intros Hl; [by repeat constructor|].
  apply StronglySorted_inv in Hl as [Hl Hx].
  destruct (Z.leb_spec (row_id r) (row_id x)); simpl.
  - constructor; [by constructor|]. constructor; [done|].
    eapply Forall_impl; [exact Hx|]. simpl. intros y Hy. lia.
  - constructor; [by apply IH|].
    apply List.Forall_forall. intros y Hy.
    apply in_map_iff in Hy as (r' & <- & Hr').
    apply insertById_In in Hr' as [->|Hr']; [lia|].
    rewrite List.Forall_forall in Hx. apply Hx. by apply in_map.
Qed.

Lemma orderByIdAsc_ascending (l : list message_row) :
  ascendingIds (List.map row_id (orderByIdAsc l)).
Proof.
  induction l as [|x l IH]; simpl; [constructor|].
  by apply insertById_ascending.
Qed.

Lemma NoDup_map_filter {A B} (f : A -> B) (p : A -> bool) (l : list A) :
  List.NoDup (List.map f l) -> List.NoDup (List.map f (List.filter p l)).
Proof.
  induction l as [|x l IH]; simpl; [done|].
  intros Hnodup. apply List.NoDup_cons_iff in Hnodup as [Hx Hl].
  destruct (p x); simpl; [|by apply IH].
  apply List.NoDup_cons_iff. split; [|by apply IH].
  intros Hin. apply Hx. apply in_map_iff in Hin as (y & Hy & Hin).
  apply filter_In in Hin as [Hin _]. rewrite <- Hy. by apply in_map.
Qed.

Lemma selectNewMessages_NoDup (recipient : QString) (c : Z)
    (tbl : list message_row) :
  List.NoDup (List.map row_id tbl) ->
  List.NoDup (List.map row_id (selectNewMessages recipient c tbl)).
Proof.
  intros Hnodup. unfold selectNewMessages.
  eapply Permutation_NoDup.
  - apply Permutation_map. symmetry. apply orderByIdAsc_perm.
  - by apply NoDup_map_filter.
Qed.

Lemma ascending_NoDup_strict (ids : list Z) :
  ascendingIds ids -> List.NoDup ids -> strictlyAscendingIds ids.
Proof.
  unfold ascendingIds, strictlyAscendingIds.
  induction 1 as [|id ids _ IH Hle]; intros Hnodup; [constructor|].
  apply List.NoDup_cons_iff in Hnodup as [Hfresh Hnodup].
  constructor; [by apply IH|].
  apply List.Forall_forall. intros x Hx.
  rewrite List.Forall_forall in Hle. specialize (Hle x Hx).
  assert (x <> id) by (intros ->; done). lia.
Qed.

Section MorePolling.

Context {W : Type} `{Messenger W}.

(** X4.  One tick, where the statement is answered: the rows handled are
    the rows of the table whose recipient is the string the query was run
    for and whose id is above the cursor, in ascending order of id, and in
    strictly ascending order when the table has no two rows of one id.
    Each is marked delivered, under the value [atoi] reads from its id, and
    announced, in that order; where the ids of the table are values of an
    [int], the calls carry the ids themselves. *)
Theorem tick_handles_new_rows_in_order (s : Sys W) (tbl : list message_row) :
  ctx (window s) = true ->
  isEmpty (currentIdentity (window s)) = false ->
  fst (pg_messages (world s)) = Some tbl ->
  let g := window s in
  let rows := polledRows s in
  let evs := eventsOf checkForNewMessages s in
  Permutation rows
    (List.filter (isNewFor (queriedRecipient s) (lastCheckedMessageId g)) tbl)
  /\ ascendingIds (List.map row_id rows)
  /\ (List.NoDup (List.map row_id tbl) ->
      strictlyAscendingIds (List.map row_id rows))
  /\ markedDelivered evs = msgIds rows
  /\ (Forall (fun r => fitsInt (row_id r)) tbl ->
      markedDelivered evs = List.map row_id rows)
  /\ notifications evs = List.map noticeOf rows.
Proof.
  intros Hctx Hme Htable g rows evs. subst g rows evs.
  destruct (checkForNewMessages_after s) as (Hn & Hd & _ & _).
  assert (polledRows s
          = selectNewMessages (queriedRecipient s)
              (lastCheckedMessageId (window s)) tbl) as Hrows.
  { unfold polledRows. by rewrite Hctx, Hme, Htable. }
  split; [|split; [|split; [|split; [|split]]]]; try done.
  - rewrite Hrows. apply orderByIdAsc_perm.
  - rewrite Hrows. apply orderByIdAsc_ascending.
  - intros Hunique. apply ascending_NoDup_strict.
    + rewrite Hrows. apply orderByIdAsc_ascending.
    + rewrite Hrows. by apply selectNewMessages_NoDup.
  - intros Hint. rewrite Hd. apply polledRows_int.
    intros tbl' Htbl'. rewrite Htable in Htbl'. by injection Htbl' as <-.
Qed.

(** X5.  A tick that finds no row it has not seen announces nothing and
    leaves the cursor: when the ids of the first table are values of an
    [int], both queries are run for the same recipient, and every row for
    that recipient in the table of the second tick has the id of a row the
    first tick saw for it, the second tick gets no row back. *)
Theorem tick_without_new_rows (c : Z) (s1 s2 : Sys W)
    (tbl1 tbl2 : list message_row) :
  ctx (window s1) = true ->
  isEmpty (currentIdentity (window s1)) = false ->
  queriedRecipient s2 = queriedRecipient s1 ->
  fst (pg_messages (world s1)) = Some tbl1 ->
  fst (pg_messages (world s2)) = Some tbl2 ->
  Forall (fun r => fitsInt (row_id r)) tbl1 ->
  (forall r2, In r2 tbl2 -> row_recipient r2 = queriedRecipient s1 ->
     exists r1, In r1 tbl1 /\ row_id r1 = row_id r2
                /\ row_recipient r1 = queriedRecipient s1) ->
  polledRows (atTick (tick c s1) s2) = []
  /\ tick (tick c s1) s2 = tick c s1
  /\ notifications (eventsOf checkForNewMessages (atTick (tick c s1) s2)) = []
  /\ markedDelivered (eventsOf checkForNewMessages (atTick (tick c s1) s2)) = [].
Proof.
  intros Hctx Hme Hsame Ht1 Ht2 Hint Hold.
  assert (tick c s1 = maxFrom c (List.map row_id (polledRows (atTick c s1))))
    as Htick.
  { rewrite tick_maxFrom. f_equal. apply polledRows_int.
    intros tbl Htbl. cbn [atTick world] in Htbl. rewrite Ht1 in Htbl.
    by injection Htbl as <-. }
  assert (polledRows (atTick (tick c s1) s2) = []) as Hnone.
  { destruct (polledRows (atTick (tick c s1) s2)) as [|r rows] eqn:Hrows; [done|].
    exfalso.
    assert (In r (polledRows (atTick (tick c s1) s2))) as Hr
      by (rewrite Hrows; by left).
    apply polledRows_In in Hr as (tbl & Htbl & Hin & Hto & Hnew).
    change (queriedRecipient (atTick (tick c s1) s2))
      with (queriedRecipient s2) in Hto.
    cbn [atTick world window lastCheckedMessageId set_lastCheckedMessageId] in *.
    rewrite Ht2 in Htbl. injection Htbl as <-. rewrite Hsame in Hto.
    destruct (Hold r Hin Hto) as (r1 & Hin1 & Hid & Hto1).
    destruct (Z.le_gt_cases (row_id r1) c) as [Hle|Hgt].
    - pose proof (tick_base c s1). lia.
    - assert (In r1 (polledRows (atTick c s1))) as Hseen.
      { unfold polledRows.
        change (queriedRecipient (atTick c s1)) with (queriedRecipient s1).
        cbn [atTick world window ctx currentIdentity lastCheckedMessageId
             set_lastCheckedMessageId].
        rewrite Hctx, Hme, Ht1. apply selectNewMessages_In.
        repeat split; try done; lia. }
      pose proof (maxFrom_upper c (List.map row_id (polledRows (atTick c s1))))
        as Hupper.
      rewrite List.Forall_forall in Hupper.
      specialize (Hupper (row_id r1) (in_map row_id _ _ Hseen)).
      rewrite <- Htick in Hupper. lia. }
  destruct (checkForNewMessages_after (atTick (tick c s1) s2))
    as (Hn & Hd & _ & Hc).
  rewrite Hn, Hd, Hnone. repeat split; try done.
  unfold tick at 1. rewrite Hc, Hnone. done.
Qed.

(** The ids the polls of a run of ticks answer never repeat, when no table
    has two rows with one id and every id is the value of an [int]. *)
Lemma returnedIds_NoDup (ticks : list (Sys W)) : forall c,
  Forall uniqueIds ticks -> Forall intIds ticks ->
  List.NoDup (returnedIds c ticks).
Proof.
  induction ticks as [|s ticks IH]; intros c Hunique Hint; cbn [returnedIds].
  - constructor.
  - apply Forall_cons in Hunique as [Hs Hticks].
    apply Forall_cons in Hint as [Hints Hintticks].
    apply NoDup_ListNoDup, NoDup_app. split; [|split].
    + apply NoDup_ListNoDup. unfold polledRows.
      destruct (negb _ || _); [constructor|].
      cbn [atTick world window].
      destruct (fst (pg_messages (world s))) as [tbl|] eqn:Htbl; [|constructor].
      apply selectNewMessages_NoDup. by apply Hs.
    + intros id Hnow Hlater. apply list_elem_of_In in Hnow, Hlater.
      pose proof (returnedIds_newer ticks (tick c s)) as Habove.
      rewrite List.Forall_forall in Habove. specialize (Habove id Hlater).
      pose proof (maxFrom_upper c (List.map row_id (polledRows (atTick c s))))
        as Hupper.
      rewrite List.Forall_forall in Hupper. specialize (Hupper id Hnow).
      rewrite <- (polledRows_int (atTick c s) Hints), <- tick_maxFrom in Hupper.
      lia.
    + apply NoDup_ListNoDup. by apply IH.
Qed.

(** X6.  Across any sequence of ticks from cursor 0, no message id is
    handled twice, provided no table has two rows with one id and every id
    of the tables is the value of an [int]: the ids the polls answer never
    repeat, and they are the ids the loop handles. *)
Theorem no_message_is_handled_twice (ticks : list (Sys W)) :
  Forall uniqueIds ticks ->
  Forall intIds ticks ->
  List.NoDup (returnedIds 0 ticks)
  /\ observedIds 0 ticks = returnedIds 0 ticks.
Proof.
  intros Hunique Hint.
  split; [by apply returnedIds_NoDup | by apply observedIds_returned].
Qed.

End MorePolling.

Lemma script_uniqueIds_busy : uniqueIds Script.busy.
Proof.
  intros tbl Htbl. cbn in Htbl. injection Htbl as <-.
  repeat constructor; cbn; intuition lia.
Qed.

Lemma script_intIds_busy : intIds Script.busy.
Proof.
  intros tbl Htbl. cbn in Htbl. injection Htbl as <-.
  repeat constructor; by vm_compute.
Qed.

(** A row whose id is beyond [int] is answered, and handled, at every
    tick; two rows of one id are handled one after the other. *)
Example id_beyond_int_is_handled_again :
  returnedIds 0 [More.huge; More.huge] = [2147483648; 2147483648]
  /\ observedIds 0 [More.huge; More.huge] = [-2147483648; -2147483648]
  /\ returnedIds 0 [More.twins] = [1; 1].
Proof. by vm_compute. Qed.

Lemma tick_handles_new_rows_in_order_witness :
  markedDelivered (eventsOf checkForNewMessages Script.busy) = [1; 3]
  /\ strictlyAscendingIds (List.map row_id (polledRows Script.busy)).
Proof.
  assert (fst (pg_messages (world Script.busy)) = Some Script.threeRows)
    as Htable by reflexivity.
  assert (Forall (fun r => fitsInt (row_id r)) Script.threeRows) as Hint
    by (repeat constructor; by vm_compute).
  assert (List.NoDup (List.map row_id Script.threeRows)) as Hunique
    by (by apply script_uniqueIds_busy).
  destruct (tick_handles_new_rows_in_order Script.busy Script.threeRows
              eq_refl eq_refl Htable) as (_ & _ & Hsorted & _ & Hmarked & _).
  split; [exact (Hmarked Hint) | exact (Hsorted Hunique)].
Defined.

Lemma tick_without_new_rows_witness :
  tick (tick 0 Script.busy) Script.busy = 3
  /\ notifications
       (eventsOf checkForNewMessages (atTick (tick 0 Script.busy) Script.busy))
     = [].
Proof.
  assert (fst (pg_messages (world Script.busy)) = Some Script.threeRows)
    as Htable by reflexivity.
  assert (Forall (fun r => fitsInt (row_id r)) Script.threeRows) as Hint
    by (repeat constructor; by vm_compute).
  destruct (tick_without_new_rows 0 Script.busy Script.busy
              Script.threeRows Script.threeRows
              eq_refl eq_refl eq_refl Htable Htable Hint)
    as (_ & Hcursor & Hnone & _).
  - intros r2 Hin Hto. by exists r2.
  - split; [exact Hcursor | exact Hnone].
Defined.

Lemma no_message_is_handled_twice_witness :
  List.NoDup (returnedIds 0 [Script.busy; Script.busy]).
Proof.
  apply (no_message_is_handled_twice [Script.busy; Script.busy]).
  - repeat constructor; apply script_uniqueIds_busy.
  - repeat constructor; apply script_intIds_busy.
Defined.

Lemma polled_display (d : list Block) (g : MainWindow) :
  polled g (set_messageDisplay d g).
Proof. apply redrawn_polled, redrawn_display. Qed.

Lemma polled_status (st : StatusText) (g : MainWindow) :
  polled g (set_statusLabel st g).
Proof. apply redrawn_polled, redrawn_status. Qed.

Lemma pollEvent_notSend (e : Event) : pollEvent e -> notSend e.
Proof. by destruct e. Qed.

Lemma viewEvent_pollEvent (e : Event) : viewEvent e -> pollEvent e.
Proof. by destruct e. Qed.

Lemma polled_sameSelection (g g' : MainWindow) :
  polled g g' -> sameSelection g g'.
Proof. unfold polled. intros ->. by repeat split. Qed.

(** The trace of a computation that only adds events is the old trace and
    the events added. *)
Lemma trace_eventsOf {W A} (m : M W A) (s : Sys W) :
  (exists evs, trace (after m s) = trace s ++ evs) ->
  trace (after m s) = trace s ++ eventsOf m s.
Proof. intros (evs & Htrace). by rewrite (eventsOf_app _ _ _ Htrace). Qed.

Lemma eventsOf_forEach_cons {W A} (x : A) (xs : list A)
    (body : A -> M W unit) (s : Sys W) :
  (exists evs, trace (after (body x) s) = trace s ++ evs) ->
  (exists evs, trace (after (forEach xs body) (after (body x) s))
               = trace (after (body x) s) ++ evs) ->
  eventsOf (forEach (x :: xs) body) s
  = eventsOf (body x) s ++ eventsOf (forEach xs body) (after (body x) s).
Proof.
  intros H1 H2. apply eventsOf_app. rewrite after_forEach_cons.
  rewrite (trace_eventsOf _ _ H2), (trace_eventsOf _ _ H1).
  by rewrite app_assoc.
Qed.

Section PollReloads.

Context {W : Type} `{Messenger W} `{ReadMarker W}.

Lemma frames_poll_polled :
  frames polled pollEvent (checkForNewMessages (W:=W)).
Proof.
  exact (frames_checkForNewMessages polled pollEvent polled_refl polled_trans
           polled_display polled_status viewEvent_pollEvent polled_cursor
           (fun e He => He)).
Qed.

(** X7.  A poll tick leaves the input line, the selection, the additional
    recipients, the recipients label and the theme as they are, and makes
    no send call. *)
Theorem poll_tick_keeps_input_and_selection (s : Sys W) :
  let g := window s in
  let g' := window (after checkForNewMessages s) in
  sameSelection g g'
  /\ messageInput g' = messageInput g
  /\ recipientsLabel g' = recipientsLabel g
  /\ currentTheme g' = currentTheme g
  /\ Forall notSend (eventsOf checkForNewMessages s).
Proof.
  intros g g'. subst g g'.
  destruct (frames_poll_polled s) as [Hpolled (evs & Htrace & Hevs)].
  rewrite (eventsOf_app _ _ _ Htrace).
  split; [by apply polled_sameSelection|].
  unfold polled in Hpolled. rewrite Hpolled. repeat split.
  eapply Forall_impl; [exact Hevs | exact pollEvent_notSend].
Qed.

Lemma newMessage_extends (r : message_row) (s : Sys W) :
  exists evs, trace (after (newMessage r) s) = trace s ++ evs.
Proof. destruct (newMessage_after r s) as (evs & Ht & _). by exists evs. Qed.

Lemma pollLoop_extends (rows : list message_row) (s : Sys W) :
  exists evs, trace (after (forEach rows newMessage) s) = trace s ++ evs.
Proof. destruct (pollLoop_after rows s) as (evs & Ht & _). by exists evs. Qed.

(** One turn of the loop loads the open conversation when the row is from
    the open contact, and no conversation otherwise. *)
Lemma newMessage_reloads (r : message_row) (s : Sys W) :
  isEmpty (currentContact (window s)) = false ->
  reloads (eventsOf (newMessage r) s)
  = if Q.eqb (currentContact (window s)) (row_sender r)
    then [currentContact (window s)] else [].
Proof.
  intros Hopen. unfold eventsOf. rewrite newMessage_steps. cbv zeta.
  destruct (Q.eqb (currentContact (window s)) (row_sender r)).
  - match goal with |- context [after _ ?s1] =>
      pose proof (loadConversation_reloads (currentContact (window s)) s1 Hopen)
        as Hload;
      destruct (loadConversation_frame (currentContact (window s)) s1)
        as (evs & Htrace & _)
    end.
    rewrite (eventsOf_app _ _ _ Htrace) in Hload. rewrite Htrace.
    cbn [trace]. by rewrite <- app_assoc, drop_app_length.
  - cbn [trace]. by rewrite drop_app_length.
Qed.

Lemma pollLoop_reloads (rows : list message_row) : forall s : Sys W,
  isEmpty (currentContact (window s)) = false ->
  reloads (eventsOf (forEach rows newMessage) s)
  = List.map (fun _ => currentContact (window s))
      (List.filter (fun r => Q.eqb (currentContact (window s)) (row_sender r))
         rows).
Proof.
  induction rows as [|r rows IH]; intros s Hopen.
  - unfold eventsOf, after. simpl. by rewrite drop_all.
  - rewrite eventsOf_forEach_cons
      by (apply newMessage_extends || apply pollLoop_extends).
    rewrite reloads_app, (newMessage_reloads _ _ Hopen).
    destruct (newMessage_after r s) as (_ & _ & _ & _ & Hpolled & _).
    apply polled_contact in Hpolled.
    rewrite IH by (by rewrite Hpolled). rewrite Hpolled. cbn [List.filter].
    by destruct (Q.eqb (currentContact (window s)) (row_sender r)).
Qed.

(** X8.  With a conversation open, a poll tick loads that conversation
    once for every row of its answer sent by the open contact, and loads no
    other conversation. *)
Theorem poll_tick_reloads_per_row (s : Sys W) :
  isEmpty (currentContact (window s)) = false ->
  let g := window s in
  reloads (eventsOf checkForNewMessages s)
  = List.map (fun _ => currentContact g)
      (List.filter (fun r => Q.eqb (currentContact g) (row_sender r))
         (polledRows s)).
Proof.
  intros Hopen g. subst g.
  unfold eventsOf at 1. rewrite checkForNewMessages_steps. cbv zeta.
  assert (polledRows s
          = if negb (ctx (window s)) || isEmpty (currentIdentity (window s))
            then []
            else match fst (pg_messages (world s)) with
                 | None => []
                 | Some tbl =>
                     selectNewMessages (queriedRecipient s)
                       (lastCheckedMessageId (window s)) tbl
                 end) as Hrows by reflexivity.
  destruct (negb (ctx (window s)) || isEmpty (currentIdentity (window s))).
  { by rewrite Hrows, drop_all. }
  destruct (fst (pg_messages (world s))) as [tbl|].
  - match goal with |- context [after _ ?s1] =>
      pose proof (pollLoop_reloads (polledRows s) s1 Hopen) as Hloop;
      destruct (pollLoop_extends (polledRows s) s1) as (evs & Htrace)
    end.
    rewrite (eventsOf_app _ _ _ Htrace) in Hloop. rewrite Htrace.
    cbn [trace window] in *.
    rewrite <- app_assoc, drop_app_length. cbn [app reloads flat_map].
    exact Hloop.
  - rewrite Hrows. cbn [trace]. by rewrite drop_app_length.
Qed.

End PollReloads.

Lemma poll_tick_reloads_per_row_witness :
  reloads (eventsOf checkForNewMessages More.busyWithBob) = [Script.bob].
Proof.
  rewrite (poll_tick_reloads_per_row More.busyWithBob) by reflexivity.
  reflexivity.
Defined.

(** ** More on conversation assembly *)

Lemma escapeChar_markupFree (c : QChar) : markupFree (escapeChar c).
Proof.
  unfold escapeChar, markupFree.
  destruct (N.eqb_spec c 60); [by repeat constructor|].
  destruct (N.eqb_spec c 62); [by repeat constructor|].
  destruct (N.eqb_spec c 38); [by repeat constructor|].
  destruct (N.eqb_spec c 34); [by repeat constructor|].
  by repeat constructor.
Qed.

(** [toHtmlEscaped] leaves no [<], [>] or double quote. *)
Lemma toHtmlEscaped_markupFree (s : QString) : markupFree (toHtmlEscaped s).
Proof.
  unfold toHtmlEscaped, markupFree.
  induction s as [|c s IH]; simpl; [constructor|].
  apply Forall_app. split; [apply escapeChar_markupFree | exact IH].
Qed.

Lemma directBubble_shape (g : MainWindow) (m : message_info) (text : QString) :
  blockText (directBubble g m text) = Some (toHtmlEscaped text)
  /\ blockTime (directBubble g m text) = Some (mid 11 5 (mi_timestamp m))
  /\ (isSentBubble (directBubble g m text) = true
      <-> mi_sender m = currentIdentity g).
Proof.
  unfold directBubble.
  destruct (Q.eqb (mi_sender m) (currentIdentity g)) eqn:Hself; cbn.
  - apply eqb_true in Hself. intuition congruence.
  - apply eqb_false in Hself. intuition congruence.
Qed.

Lemma groupBubble_shape (g : MainWindow) (m : message_info) (text : QString) :
  blockText (groupBubble g m text) = Some (toHtmlEscaped text)
  /\ blockTime (groupBubble g m text) = Some (mid 11 5 (mi_timestamp m))
  /\ (isSentBubble (groupBubble g m text) = true
      <-> mi_sender m = currentIdentity g).
Proof.
  unfold groupBubble.
  destruct (Q.eqb (mi_sender m) (currentIdentity g)) eqn:Hself; cbn.
  - apply eqb_true in Hself. intuition congruence.
  - apply eqb_false in Hself. intuition congruence.
Qed.

Section MoreAssembly.

Context {W : Type} `{Messenger W}.

(** The display after [assemble t] has read [msgs]: the header and entries
    that are, message by message, bubbles of the direct or the group
    kind. *)
Lemma assemble_loaded (t : ConversationTarget) (s : Sys W)
    (msgs : list message_info) :
  validTarget t = true ->
  storeRead t s = Some msgs ->
  msgs <> [] ->
  exists entries,
    messageDisplay (window (after (assemble t) s)) = headerOf t s :: entries
    /\ Forall2 (fun m b => exists o,
                  b = match t with
                      | Contact _ => directBubble (window s) m (messageTextOf o)
                      | Group _ => groupBubble (window s) m (messageTextOf o)
                      end) msgs entries.
Proof.
  intros Hvalid Hread Hsome. destruct t as [c|gid]; cbn [assemble].
  - destruct (loadConversation_loaded c s msgs (validTarget_contact _ Hvalid) Hread)
      as (w & entries & -> & Hentries).
    exists entries. split; [done|]. destruct msgs; [done|].
    eapply Forall2_impl; [exact Hentries|].
    intros m1 b1 (o & -> & _). by exists o.
  - destruct (loadGroupConversation_loaded gid s msgs (validTarget_group _ Hvalid) Hread)
      as (w & entries & -> & Hentries).
    exists entries. split; [done|]. destruct msgs; [done|].
    eapply Forall2_impl; [exact Hentries|].
    intros m1 b1 (o & -> & _). by exists o.
Qed.

(** X9.  A conversation with messages is shown as its header and one
    bubble per message, in the order of the store: the bubble of a message
    carries characters 11 to 15 of its timestamp as time, and is a sent
    bubble exactly when the sender is the local identity.  No message is
    left out, whatever becomes of its decryption. *)
Theorem one_bubble_per_message (t : ConversationTarget) (s : Sys W)
    (msgs : list message_info) :
  validTarget t = true ->
  storeRead t s = Some msgs ->
  msgs <> [] ->
  let shown := messageDisplay (window (after (assemble t) s)) in
  length shown = S (length msgs)
  /\ shown !! 0%nat = Some (headerOf t s)
  /\ forall i m, msgs !! i = Some m ->
       exists b, shown !! S i = Some b
                 /\ blockTime b = Some (mid 11 5 (mi_timestamp m))
                 /\ (isSentBubble b = true
                     <-> mi_sender m = currentIdentity (window s)).
Proof.
  intros Hvalid Hread Hsome shown. subst shown.
  destruct (assemble_loaded t s msgs Hvalid Hread Hsome)
    as (entries & -> & Hentries).
  split; [|split; [done|]].
  - cbn. f_equal. symmetry. by eapply Forall2_length.
  - intros i m Hm.
    destruct (Forall2_lookup_l _ _ _ _ _ Hentries Hm) as (b & Hb & o & ->).
    eexists. split; [exact Hb|].
    destruct t; [apply directBubble_shape | apply groupBubble_shape].
Qed.

(** X10.  The text of every bubble of a conversation is free of [<], [>]
    and double quotes, whatever the plaintext of the message. *)
Theorem bubble_text_is_escaped (t : ConversationTarget) (s : Sys W)
    (msgs : list message_info) (b : Block) (text : QString) :
  validTarget t = true ->
  storeRead t s = Some msgs ->
  In b (messageDisplay (window (after (assemble t) s))) ->
  blockText b = Some text ->
  markupFree text.
Proof.
  intros Hvalid Hread Hb Htext.
  destruct msgs as [|m0 msgs0].
  - destruct (assemble_empty t s Hvalid Hread) as [Hshown _].
    rewrite Hshown in Hb.
    destruct Hb as [<-|[<-|[]]]; [by destruct t | done].
  - destruct (assemble_loaded t s (m0 :: msgs0) Hvalid Hread)
      as (entries & Hshown & Hentries); [done|].
    rewrite Hshown in Hb. destruct Hb as [<-|Hb]; [by destruct t|].
    apply list_elem_of_In, list_elem_of_lookup in Hb as (i & Hi).
    destruct (Forall2_lookup_r _ _ _ _ _ Hentries Hi) as (m & _ & o & ->).
    assert (text = toHtmlEscaped (messageTextOf o)) as ->.
    { destruct t.
      - destruct (directBubble_shape (window s) m (messageTextOf o)) as [Ht _].
        congruence.
      - destruct (groupBubble_shape (window s) m (messageTextOf o)) as [Ht _].
        congruence. }
    apply toHtmlEscaped_markupFree.
Qed.

(** X11.  In a group conversation a message of the local identity always
    carries the single grey mark, whatever its status field says. *)
Theorem group_own_message_mark (gid : Z) (s : Sys W)
    (msgs : list message_info) (i : nat) (m : message_info) :
  (gid <? 0) = false ->
  storeRead (Group gid) s = Some msgs ->
  msgs !! i = Some m ->
  mi_sender m = currentIdentity (window s) ->
  exists o,
    messageDisplay (window (after (loadGroupConversation gid) s)) !! S i
    = Some (SentBubble (isClub (window s)) (metaFontSize (window s))
              (mid 11 5 (mi_timestamp m))
              (badgeSpan (currentTheme (window s)) BadgePending)
              (messageFontSize (window s))
              (toHtmlEscaped (messageTextOf o))).
Proof.
  intros Hid Hread Hm Hself.
  destruct (loadGroupConversation_loaded gid s msgs Hid Hread)
    as (w & entries & -> & Hentries).
  destruct msgs as [|m0 msgs0]; [done|].
  destruct (Forall2_lookup_l _ _ _ _ _ Hentries Hm) as (b & Hb & o & -> & _).
  exists o.
  cbn [window messageDisplay set_statusLabel set_messageDisplay].
  change ((_ :: entries) !! S i) with (entries !! i). rewrite Hb. f_equal.
  unfold groupBubble. by rewrite Hself, eqb_refl.
Qed.

End MoreAssembly.

Lemma one_bubble_per_message_witness :
  length (messageDisplay (window (after (assemble (Contact Script.bob)) Script.opened)))
  = 4%nat.
Proof.
  assert (storeRead (Contact Script.bob) Script.opened
          = Some [Script.fromBob; Script.toBob; Script.bobToCarol]) as Hread
    by reflexivity.
  assert ([Script.fromBob; Script.toBob; Script.bobToCarol] <> []) as Hsome
    by done.
  destruct (one_bubble_per_message (Contact Script.bob) Script.opened
              [Script.fromBob; Script.toBob; Script.bobToCarol]
              eq_refl Hread Hsome) as [Hlength _].
  exact Hlength.
Defined.

Lemma bubble_text_is_escaped_witness :
  markupFree (lit "hi all").
Proof.
  assert (storeRead (Group 5) Script.opened
          = Some [Script.fromBob; Script.toBob; Script.bobToCarol]) as Hread
    by reflexivity.
  apply (bubble_text_is_escaped (Group 5) Script.opened
           [Script.fromBob; Script.toBob; Script.bobToCarol]
           (ReceivedBubble false 39 Script.bob (lit "10:32") 54 (lit "hi all"))
           (lit "hi all") eq_refl Hread); [|reflexivity].
  vm_compute. tauto.
Defined.

Lemma group_own_message_mark_witness :
  exists o,
    messageDisplay (window (after (loadGroupConversation 5) Script.opened))
      !! 2%nat
    = Some (SentBubble false 39 (lit "10:31") sentCheckmark
              54 (toHtmlEscaped (messageTextOf o))).
Proof.
  assert (storeRead (Group 5) Script.opened
          = Some [Script.fromBob; Script.toBob; Script.bobToCarol]) as Hread
    by reflexivity.
  apply (group_own_message_mark 5 Script.opened
           [Script.fromBob; Script.toBob; Script.bobToCarol] 1 Script.toBob
           eq_refl Hread eq_refl eq_refl).
Defined.

Section ShownAlike.

Context {W : Type} `{Messenger W}.

Lemma directMessage_alike (m : message_info) (s1 s2 : Sys W) :
  alike s1 s2 -> runsAlike (directMessage m) s1 s2.
Proof.
  destruct s1 as [w1 g1 t1], s2 as [w2 g2 t2].
  intros (Hw & Hme & Htheme & Hscale & Hshown). cbn [world window] in *.
  subst w2.
  unfold runsAlike, alike, directMessage, after, bind, this, append, assign,
    directBubble, canDecrypt, isClub, metaFontSize, messageFontSize.
  cbn [fst snd world window trace]. rewrite <- Hme.
  destruct (Q.eqb (mi_recipient m) (currentIdentity g1)
            || Q.eqb (mi_sender m) (currentIdentity g1)).
  - unfold decryptText, bind, extern, ret. cbn [world].
    destruct (messenger_decrypt_message (mi_id m) w1) as [[p|] w];
      cbn [fst snd world window trace currentIdentity currentTheme
           fontScale messageDisplay set_messageDisplay];
      rewrite <- Hme, <- Htheme, <- Hscale, <- Hshown; (split; [done|]); by eexists.
  - unfold ret.
    cbn [fst snd world window trace currentIdentity currentTheme
         fontScale messageDisplay set_messageDisplay].
    rewrite <- Hme, <- Htheme, <- Hscale, <- Hshown.
    split; [done|]. exists []. by rewrite !app_nil_r.
Qed.

Lemma groupMessage_alike (m : message_info) (s1 s2 : Sys W) :
  alike s1 s2 -> runsAlike (groupMessage m) s1 s2.
Proof.
  destruct s1 as [w1 g1 t1], s2 as [w2 g2 t2].
  intros (Hw & Hme & Htheme & Hscale & Hshown). cbn [world window] in *.
  subst w2.
  unfold runsAlike, alike, groupMessage, after, bind, this, append, assign,
    groupBubble, isClub, metaFontSize, messageFontSize.
  cbn [fst snd world window trace].
  unfold decryptText, bind, extern, ret. cbn [world].
  destruct (messenger_decrypt_message (mi_id m) w1) as [[p|] w];
    cbn [fst snd world window trace currentIdentity currentTheme
         fontScale messageDisplay set_messageDisplay];
    rewrite <- Hme, <- Htheme, <- Hscale, <- Hshown; (split; [done|]); by eexists.
Qed.

Lemma forEach_alike (body : message_info -> M W unit) (msgs : list message_info) :
  (forall m s1 s2, alike s1 s2 -> runsAlike (body m) s1 s2) ->
  forall s1 s2, alike s1 s2 -> runsAlike (forEach msgs body) s1 s2.
Proof.
  intros Hbody. induction msgs as [|m msgs IH]; intros s1 s2 Halike.
  - split; [done|]. exists []. unfold after. simpl. by rewrite !app_nil_r.
  - destruct (Hbody m s1 s2 Halike) as [Hstep (evs1 & Ht1 & Ht2)].
    destruct (IH _ _ Hstep) as [Hrest (evs2 & Hr1 & Hr2)].
    unfold runsAlike. rewrite !after_forEach_cons. split; [done|].
    exists (evs1 ++ evs2). by rewrite Hr1, Hr2, Ht1, Ht2, <- !app_assoc.
Qed.

(** [assemble] from two states of one world, identity, theme and font
    scale ends in states alike, after the same events, whatever was
    displayed before. *)
Lemma assemble_runsAlike (t : ConversationTarget) (s1 s2 : Sys W) :
  world s1 = world s2 ->
  currentIdentity (window s1) = currentIdentity (window s2) ->
  currentTheme (window s1) = currentTheme (window s2) ->
  fontScale (window s1) = fontScale (window s2) ->
  runsAlike (assemble t) s1 s2.
Proof.
  intros Hw Hme Htheme Hscale.
  assert (headerSize (window s1) = headerSize (window s2)) as Hheader
    by (unfold headerSize, headerFontSize; by rewrite Hscale).
  assert (messageFontSize (window s1) = messageFontSize (window s2)) as Hsize
    by (unfold messageFontSize; by rewrite Hscale).
  destruct t as [c|gid]; cbn [assemble].
  - destruct (isEmpty c) eqn:Hname.
    + unfold runsAlike. rewrite !(loadConversation_no_contact _ _ Hname).
      split; [by repeat split|]. exists []. cbn [trace]. by rewrite !app_nil_r.
    + unfold runsAlike. rewrite !(loadConversation_steps _ _ Hname). cbv zeta.
      unfold storeRead, headerOf, failureOf, emptyOf.
      rewrite <- Hw, <- Hheader, <- Hsize.
      destruct (messenger_get_conversation c (world s1)) as [[msgs|] w0];
        cbn [fst snd].
      * match goal with |- context [after ?m ?a] =>
          match goal with |- context [after m ?b] =>
            tryif constr_eq a b then fail else
            assert (runsAlike m a b)
              as [(Ha & Hb & Hc & Hs & Hd) (evs & He1 & He2)]
          end
        end.
        { destruct msgs as [|m msgs].
          - unfold runsAlike, alike, after, append, assign.
            cbn [fst snd world window trace currentIdentity currentTheme
                 fontScale messageDisplay set_messageDisplay].
            repeat split; try done. exists []. by rewrite !app_nil_r.
          - apply forEach_alike; [apply directMessage_alike|].
            by repeat split. }
        cbn [world window trace]. split; [by repeat split|].
        rewrite He1, He2. cbn [trace]. rewrite <- !app_assoc. by eexists.
      * cbn [world window trace]. split; [by repeat split|]. by eexists.
  - destruct (gid <? 0) eqn:Hid.
    + unfold runsAlike, alike, loadGroupConversation, after, bind, assign, ret.
      rewrite Hid. cbn [fst snd world window trace].
      repeat split; try done. exists []. by rewrite !app_nil_r.
    + unfold runsAlike. rewrite !(loadGroupConversation_steps _ _ Hid).
      cbv zeta. unfold storeRead, headerOf, failureOf, emptyOf.
      rewrite <- Hw, <- Hheader, <- Hsize.
      destruct (messenger_get_group_info gid (world s1)) as [info w1].
      cbn [fst snd].
      destruct (messenger_get_group_conversation gid w1) as [[msgs|] w0];
        cbn [fst snd].
      * match goal with |- context [after ?m ?a] =>
          match goal with |- context [after m ?b] =>
            tryif constr_eq a b then fail else
            assert (runsAlike m a b)
              as [(Ha & Hb & Hc & Hs & Hd) (evs & He1 & He2)]
          end
        end.
        { destruct msgs as [|m msgs].
          - unfold runsAlike, alike, after, append, assign.
            cbn [fst snd world window trace currentIdentity currentTheme
                 fontScale messageDisplay set_messageDisplay].
            repeat split; try done. exists []. by rewrite !app_nil_r.
          - apply forEach_alike; [apply groupMessage_alike|].
            by repeat split. }
        cbn [world window trace]. split; [by repeat split|].
        rewrite He1, He2. cbn [trace]. rewrite <- !app_assoc. by eexists.
      * cbn [world window trace]. split; [by repeat split|]. by eexists.
Qed.

(** X12.  What a conversation is shown as depends on the world, the local
    identity, the theme and the font scale alone: from two states that
    agree on these, whatever was displayed before and whatever else
    differs, [assemble] ends with the same display, in the same world,
    after the same calls.  Loading again in an unchanged world changes
    nothing on the screen. *)
Theorem assembly_depends_on_world_identity_theme_scale
    (t : ConversationTarget) (s1 s2 : Sys W) :
  world s1 = world s2 ->
  currentIdentity (window s1) = currentIdentity (window s2) ->
  currentTheme (window s1) = currentTheme (window s2) ->
  fontScale (window s1) = fontScale (window s2) ->
  messageDisplay (window (after (assemble t) s1))
  = messageDisplay (window (after (assemble t) s2))
  /\ world (after (assemble t) s1) = world (after (assemble t) s2)
  /\ eventsOf (assemble t) s1 = eventsOf (assemble t) s2.
Proof.
  intros Hw Hme Htheme Hscale.
  destruct (assemble_runsAlike t s1 s2 Hw Hme Htheme Hscale)
    as [(Hw' & _ & _ & _ & Hshown) (evs & Ht1 & Ht2)].
  repeat split; try done.
  by rewrite (eventsOf_app _ _ _ Ht1), (eventsOf_app _ _ _ Ht2).
Qed.

End ShownAlike.

Lemma assembly_depends_on_world_identity_theme_scale_witness :
  messageDisplay (window (after (assemble (Contact Script.bob)) Script.composing))
  = messageDisplay (window (after (assemble (Contact Script.bob)) Script.opened)).
Proof.
  destruct (assembly_depends_on_world_identity_theme_scale (Contact Script.bob)
              Script.composing Script.opened eq_refl eq_refl eq_refl eq_refl)
    as [Hshown _].
  exact Hshown.
Defined.

(** ** More on sending *)

Section MoreSending.

Context {W : Type} `{Messenger W}.

(** X13.  When the send call answers 0, the display gets one more entry, a
    sent bubble with the single grey mark whose text is the trimmed input,
    escaped; the input line is cleared and the status label says sent.  The
    selection and the additional recipients stay as they are, and the send
    call is the only event. *)
Theorem successful_send (s : Sys W) :
  sendResultOf s = Some 0 ->
  let g := window s in
  let g' := window (after onSendMessage s) in
  let message := trimmed (messageInput g) in
  (exists timestamp,
     messageDisplay g'
     = messageDisplay g
       ++ [SentBubble (isClub g) (metaFontSize g) timestamp sentCheckmark
             (messageFontSize g) (toHtmlEscaped message)])
  /\ messageInput g' = []
  /\ statusLabel g' = StatusMessageSent
  /\ sameSelection g g'
  /\ exists call,
       eventsOf onSendMessage s = [call]
       /\ (call = Call_send_message (sendRecipients g) message
           \/ call = Call_send_group_message (currentGroupId g) message).
Proof.
  intros Hsend g g' message. subst g g' message. unfold sendResultOf in Hsend.
  unfold eventsOf, onSendMessage, after, bind, this.
  cbn [fst snd] in *.
  destruct (isEmpty (trimmed (messageInput (window s)))); [done|].
  pose proof (sendCall_after (window s) (trimmed (messageInput (window s))) s)
    as [Hwindow Hcall].
  unfold after in Hwindow, Hcall.
  destruct (sendCall (window s) (trimmed (messageInput (window s))) s)
    as [sent s1].
  cbn [fst snd] in *. subst sent.
  destruct Hcall as (call & Htrace & Hwhich).
  cbn [Z.eqb]. unfold ask, append, assign.
  destruct (currentTime_HHmm (world s1)) as [timestamp w2].
  cbn [fst snd world window trace messageDisplay messageInput statusLabel
       set_messageDisplay set_messageInput set_statusLabel].
  rewrite Hwindow, Htrace, drop_app_length.
  split; [by exists timestamp|]. repeat split; try done. by exists call.
Qed.

(** X14.  With text in the input line but neither a group nor a contact
    selected, [onSendMessage] shows the "No Selection" warning and nothing
    else: no call is made, and the window, input included, is as it
    was. *)
Theorem send_without_selection (s : Sys W) :
  isEmpty (trimmed (messageInput (window s))) = false ->
  sendResultOf s = None ->
  window (after onSendMessage s) = window s
  /\ eventsOf onSendMessage s = [WarningBox (lit "No Selection")].
Proof.
  intros Htext Hsend. unfold sendResultOf in Hsend. rewrite Htext in Hsend.
  unfold eventsOf, onSendMessage, after, bind, this.
  cbn [fst snd]. rewrite Htext.
  pose proof (sendCall_after (window s) (trimmed (messageInput (window s))) s)
    as [Hwindow Hcall].
  unfold after in Hwindow, Hcall.
  destruct (sendCall (window s) (trimmed (messageInput (window s))) s)
    as [sent s1].
  cbn [fst snd] in *. subst sent. unfold ret. cbn [snd].
  by rewrite Hcall, drop_app_length.
Qed.

End MoreSending.

Lemma successful_send_witness :
  messageInput (window (after onSendMessage More.sending)) = []
  /\ exists timestamp,
       messageDisplay (window (after onSendMessage More.sending))
       = [SentBubble false 39 timestamp sentCheckmark 54
            (lit "&lt;b&gt;hi&lt;/b&gt;")].
Proof.
  assert (sendResultOf More.sending = Some 0) as Hsend by (by vm_compute).
  destruct (successful_send More.sending Hsend) as (Hshown & Hinput & _).
  split; [exact Hinput | exact Hshown].
Defined.

Lemma send_without_selection_witness :
  window (after onSendMessage More.unselected) = window More.unselected
  /\ eventsOf onSendMessage More.unselected = [WarningBox (lit "No Selection")].
Proof.
  apply (send_without_selection More.unselected); by vm_compute.
Defined.

(** ** More on additional recipients *)

Lemma sublist_map_filter {A B} (f : A -> B) (p : A -> bool) (l : list A) :
  sublist (List.map f (List.filter p l)) (List.map f l).
Proof.
  induction l as [|x l IH]; simpl; [constructor|].
  destruct (p x); simpl; by constructor.
Qed.

Lemma sublist_List_filter {A} (p : A -> bool) (l : list A) :
  sublist (List.filter p l) l.
Proof.
  induction l as [|x l IH]; simpl; [constructor|].
  destruct (p x); by constructor.
Qed.

(** The contacts chosen are, in order, among the contacts offered. *)
Lemma chosen_sublist (g : MainWindow) (identities : list QString)
    (clicks : list nat) :
  sublist (selectedContacts (afterClicks clicks (dialogItems g identities)))
          identities.
Proof.
  unfold selectedContacts.
  etrans; [|apply (sublist_List_filter
                     (fun contact => negb (Q.eqb contact (currentContact g))
                                     && negb (Q.eqb contact (currentIdentity g))))].
  rewrite <- dialogItems_names, <- (afterClicks_texts clicks), List.map_map.
  apply sublist_map_filter.
Qed.

(** Rows nobody clicks keep the selection they were shown with. *)
Lemma untouched_selection (g : MainWindow) (identities : list QString) :
  selectedContacts (dialogItems g identities)
  = List.filter (contains (additionalRecipients g))
      (List.filter
         (fun contact => negb (Q.eqb contact (currentContact g))
                         && negb (Q.eqb contact (currentIdentity g)))
         identities).
Proof.
  unfold selectedContacts, dialogItems.
  induction (List.filter _ identities) as [|c l IH];
    cbn [List.map List.filter item_selected item_text]; [done|].
  destruct (contains (additionalRecipients g) c);
    cbn [List.map item_text]; [|exact IH].
  by rewrite stripPrefix_bust, IH.
Qed.

Section MoreRecipients.

Context {W : Type} `{Messenger W}.

(** Without a current contact, or with the dialog cancelled,
    [onAddRecipients] leaves the window as it was. *)
Lemma onAddRecipients_keeps_window (s : Sys W) :
  isEmpty (currentContact (window s)) = true
  \/ run_code (dialogRunOf s) = Rejected ->
  window (after onAddRecipients s) = window s.
Proof.
  intros Hno.
  unfold dialogRunOf, offeredItems in *.
  unfold onAddRecipients, after, bind, this, extern, assign, emit, ret.
  cbn [fst snd world window trace].
  destruct (isEmpty (currentContact (window s))) eqn:Hcontact; [done|].
  destruct Hno as [Hno|Hrejected]; [done|].
  destruct (messenger_get_contact_list (world s)) as [r w1].
  cbn [fst snd world window trace] in *.
  destruct (recipientsDialog_exec _ w1) as [run w2].
  cbn [fst snd world window trace] in *. rewrite Hrejected.
  reflexivity.
Qed.

(** X15.  Without a current contact [onAddRecipients] only warns, and a
    dialog closed by Cancel changes nothing: in both cases the window is as
    it was and no send call is made. *)
Theorem add_recipients_without_ok (s : Sys W) :
  isEmpty (currentContact (window s)) = true
  \/ run_code (dialogRunOf s) = Rejected ->
  window (after onAddRecipients s) = window s
  /\ (isEmpty (currentContact (window s)) = true ->
      eventsOf onAddRecipients s = [WarningBox (lit "No Contact Selected")])
  /\ (isEmpty (currentContact (window s)) = false ->
      eventsOf onAddRecipients s
      = [Call_get_contact_list; ExecRecipientsDialog (offeredItems s)]).
Proof.
  intros Hno.
  unfold eventsOf, dialogRunOf, offeredItems in *.
  unfold onAddRecipients, after, bind, this, extern, assign, emit, ret.
  cbn [fst snd world window trace].
  destruct (isEmpty (currentContact (window s))) eqn:Hcontact.
  - cbn [fst snd world window trace]. rewrite drop_app_length. by repeat split.
  - destruct Hno as [Hno|Hrejected]; [done|].
    destruct (messenger_get_contact_list (world s)) as [r w1].
    cbn [fst snd world window trace] in *.
    destruct (recipientsDialog_exec _ w1) as [run w2].
    cbn [fst snd world window trace] in *. rewrite Hrejected.
    cbn [fst snd world window trace].
    rewrite <- app_assoc, drop_app_length. by repeat split.
Qed.

(** X16.  The additional recipients a dialog closed by OK leaves are taken
    from the contact list in the order of the contact list.  So the
    recipients of the next send have no duplicates when the contact list
    has none, and when the contact list cannot be fetched, OK leaves no
    additional recipient. *)
Theorem accepted_recipients_follow_contact_list (s : Sys W) :
  isEmpty (currentContact (window s)) = false ->
  run_code (dialogRunOf s) = Accepted ->
  let g' := window (after onAddRecipients s) in
  sublist (additionalRecipients g') (contactListOf s)
  /\ (List.NoDup (contactListOf s) -> List.NoDup (sendRecipients g'))
  /\ (fst (messenger_get_contact_list (world s)) = None ->
      additionalRecipients g' = []).
Proof.
  intros Hcontact Haccepted g'. subst g'.
  rewrite (onAddRecipients_accepted s Hcontact Haccepted).
  cbn [currentContact additionalRecipients sendRecipients
       set_statusLabel set_recipientsLabel set_additionalRecipients].
  unfold offeredItems. fold (contactListOf s).
  pose proof (chosen_sublist (window s) (contactListOf s)
                (run_clicks (dialogRunOf s))) as Hsub.
  split; [exact Hsub|]. split.
  - intros Hnodup. apply List.NoDup_cons_iff. split.
    + intros Hin. by apply chosen_was_offered in Hin as (_ & Hne & _).
    + apply NoDup_ListNoDup. eapply sublist_NoDup; [|exact Hsub].
      by apply NoDup_ListNoDup.
  - intros Hfail. unfold contactListOf in *. rewrite Hfail in *.
    by apply sublist_nil_r in Hsub.
Qed.

(** X17.  A dialog closed by OK with no row clicked keeps, of the
    additional recipients there were, exactly those still offered: the ones
    in the contact list that are neither the current contact nor the local
    identity. *)
Theorem accepting_untouched_dialog (s : Sys W) :
  isEmpty (currentContact (window s)) = false ->
  run_code (dialogRunOf s) = Accepted ->
  run_clicks (dialogRunOf s) = [] ->
  let g := window s in
  additionalRecipients (window (after onAddRecipients s))
  = List.filter (contains (additionalRecipients g))
      (List.filter
         (fun contact => negb (Q.eqb contact (currentContact g))
                         && negb (Q.eqb contact (currentIdentity g)))
         (contactListOf s)).
Proof.
  intros Hcontact Haccepted Hclicks g. subst g.
  rewrite (onAddRecipients_accepted s Hcontact Haccepted), Hclicks.
  cbn [additionalRecipients set_statusLabel set_recipientsLabel
       set_additionalRecipients afterClicks fold_left].
  apply untouched_selection.
Qed.

End MoreRecipients.

Lemma add_recipients_without_ok_witness :
  window (after onAddRecipients Script.opened) = window Script.opened.
Proof.
  assert (isEmpty (currentContact (window Script.opened)) = true
          \/ run_code (dialogRunOf Script.opened) = Rejected) as Hno
    by (left; reflexivity).
  destruct (add_recipients_without_ok Script.opened Hno) as [Hwindow _].
  exact Hwindow.
Defined.

Lemma accepted_recipients_follow_contact_list_witness :
  sublist (additionalRecipients (window (after onAddRecipients Script.withBob)))
          [Script.alice; Script.bob; Script.carol].
Proof.
  assert (isEmpty (currentContact (window Script.withBob)) = false) as Hcontact
    by reflexivity.
  assert (run_code (dialogRunOf Script.withBob) = Accepted) as Haccepted
    by reflexivity.
  destruct (accepted_recipients_follow_contact_list Script.withBob
              Hcontact Haccepted) as [Hsub _].
  exact Hsub.
Defined.

Lemma accepting_untouched_dialog_witness :
  additionalRecipients (window (after onAddRecipients More.keeping))
  = [Script.carol].
Proof.
  assert (isEmpty (currentContact (window More.keeping)) = false) as Hcontact
    by reflexivity.
  assert (run_code (dialogRunOf More.keeping) = Accepted) as Haccepted
    by reflexivity.
  assert (run_clicks (dialogRunOf More.keeping) = []) as Hclicks
    by reflexivity.
  rewrite (accepting_untouched_dialog More.keeping Hcontact Haccepted Hclicks).
  reflexivity.
Defined.

(** ** Selection *)

Lemma sameSelection_refl (g : MainWindow) : sameSelection g g.
Proof. by repeat split. Qed.

Lemma sameSelection_trans (g1 g2 g3 : MainWindow) :
  sameSelection g1 g2 -> sameSelection g2 g3 -> sameSelection g1 g3.
Proof.
  unfold sameSelection. intros (?&?&?&?&?&?) (?&?&?&?&?&?).
  repeat split; congruence.
Qed.

Lemma sameSelection_display (d : list Block) (g : MainWindow) :
  sameSelection g (set_messageDisplay d g).
Proof. by repeat split. Qed.

Lemma sameSelection_status (st : StatusText) (g : MainWindow) :
  sameSelection g (set_statusLabel st g).
Proof. by repeat split. Qed.

Lemma sameSelection_input (text : QString) (g : MainWindow) :
  sameSelection g (set_messageInput text g).
Proof. by repeat split. Qed.

Lemma sameSelection_selectionOk (g g' : MainWindow) :
  sameSelection g g' -> selectionOk g -> selectionOk g'.
Proof.
  unfold sameSelection, selectionOk.
  intros (_ & Hme & Hcontact & Hgid & Htype & Hmore).
  by rewrite Hme, Hcontact, Hgid, Htype, Hmore.
Qed.

Lemma notSend_sendOk (identity : QString) (e : Event) :
  notSend e -> sendOk identity e.
Proof. by destruct e. Qed.

Lemma sendFrom_sendOk (g : MainWindow) (e : Event) :
  selectionOk g -> sendFrom g e -> sendOk (currentIdentity g) e.
Proof.
  intros (Hprimary & Hself & _). destruct e; try done.
  intros [-> Hnamed]. by eexists _, _.
Qed.

Lemma framesAt_stepOk {W A} (P : Event -> Prop) (m : M W A) (s : Sys W) :
  (selectionOk (window s) ->
   forall e, P e -> sendOk (currentIdentity (window s)) e) ->
  framesAt sameSelection P m s -> stepOk m s.
Proof.
  intros HP [Hsame (evs & Htrace & Hevs)] Hok.
  split; [by eapply sameSelection_selectionOk|].
  split; [apply Hsame|]. exists evs. split; [done|].
  eapply Forall_impl; [exact Hevs|]. by apply HP.
Qed.

Section Selection.

Context {W : Type} `{Messenger W} `{ReadMarker W}.

Local Ltac ss_step :=
  first [ apply frames_ret | apply frames_this | apply frames_bind
        | apply frames_assign | apply frames_emit | apply frames_extern
        | apply frames_ask | apply frames_peek | apply frames_forEach ];
  try first [ exact sameSelection_refl | exact sameSelection_trans ];
  intros.

Local Ltac ss :=
  repeat ss_step;
  try first [ apply sameSelection_display | apply sameSelection_status
            | apply sameSelection_input | exact I ].

Lemma frames_sendCall (g : MainWindow) (message : QString) :
  frames sameSelection (sendFrom g) (sendCall (W:=W) g message).
Proof.
  unfold sendCall.
  destruct (isGroupType (currentContactType g) && (0 <=? currentGroupId g));
    [ss|].
  destruct (isContactType (currentContactType g)
            && negb (isEmpty (currentContact g))) eqn:Hcontact; [|ss].
  apply andb_true_iff in Hcontact as [_ Hnamed].
  ss. split; [done|]. by destruct (currentContact g).
Qed.

Lemma framesAt_onSendMessage (s : Sys W) :
  framesAt sameSelection (sendFrom (window s)) onSendMessage s.
Proof.
  unfold onSendMessage.
  apply framesAt_this; [exact sameSelection_refl | exact sameSelection_trans|].
  remember (window s) as g eqn:Hg. clear Hg.
  refine ((_ : frames sameSelection (sendFrom g) _) s).
  destruct (isEmpty (trimmed (messageInput g))); [ss|].
  apply frames_bind; [exact sameSelection_trans | apply frames_sendCall |].
  intros [result|]; [|ss]. destruct (result =? 0); ss.
Qed.

Lemma stepOk_onSendMessage (s : Sys W) : stepOk onSendMessage s.
Proof.
  apply (framesAt_stepOk (sendFrom (window s))); [|apply framesAt_onSendMessage].
  intros Hok e. by apply sendFrom_sendOk.
Qed.

Lemma stepOk_quiet {A} (m : M W A) (s : Sys W) :
  framesAt sameSelection notSend m s -> stepOk m s.
Proof.
  apply framesAt_stepOk. intros _ e. apply notSend_sendOk.
Qed.

Lemma stepOk_checkForNewMessages (s : Sys W) : stepOk checkForNewMessages s.
Proof.
  apply stepOk_quiet.
  apply (frames_weaken polled sameSelection pollEvent notSend);
    [exact polled_sameSelection | exact pollEvent_notSend
    | exact frames_poll_polled].
Qed.

Lemma viewEvent_notSend (e : Event) : viewEvent e -> notSend e.
Proof. by destruct e. Qed.

Lemma statusPollEvent_notSend (e : Event) : statusPollEvent e -> notSend e.
Proof. by destruct e. Qed.

Lemma stepOk_checkForStatusUpdates (s : Sys W) : stepOk checkForStatusUpdates s.
Proof.
  apply stepOk_quiet.
  apply (frames_weaken redrawn sameSelection statusPollEvent notSend);
    [exact redrawn_sameSelection | exact statusPollEvent_notSend
    | exact frames_checkForStatusUpdates].
Qed.

Lemma stepOk_load (t : ConversationTarget) (s : Sys W) : stepOk (assemble t) s.
Proof.
  apply stepOk_quiet.
  apply (frames_weaken redrawn sameSelection viewEvent notSend);
    [exact redrawn_sameSelection | exact viewEvent_notSend |].
  destruct t; cbn [assemble].
  - exact (frames_loadConversation redrawn viewEvent redrawn_refl redrawn_trans
             redrawn_display redrawn_status (fun e He => He) _).
  - exact (frames_loadGroupConversation redrawn viewEvent redrawn_refl
             redrawn_trans redrawn_display redrawn_status (fun e He => He) _).
Qed.

Lemma stepOk_onAddRecipients (s : Sys W) : stepOk onAddRecipients s.
Proof.
  intros Hok.
  destruct (isEmpty (currentContact (window s))) eqn:Hcontact.
  - rewrite (onAddRecipients_keeps_window s (or_introl Hcontact)).
    split; [done|]. split; [done|].
    exists [WarningBox (lit "No Contact Selected")]. split; [|by repeat constructor].
    unfold onAddRecipients, after, bind, this, emit. cbn [fst snd].
    by rewrite Hcontact.
  - assert (exists evs, trace (after onAddRecipients s) = trace s ++ evs
                        /\ Forall (sendOk (currentIdentity (window s))) evs)
      as Htrace.
    { exists [Call_get_contact_list; ExecRecipientsDialog (offeredItems s)].
      split; [|by repeat constructor].
      unfold offeredItems, onAddRecipients, after, bind, this, extern, assign, ret.
      cbn [fst snd world window trace]. rewrite Hcontact.
      destruct (messenger_get_contact_list (world s)) as [r w1].
      cbn [fst snd world window trace].
      destruct (recipientsDialog_exec _ w1) as [run w2].
      cbn [fst snd world window trace].
      destruct (run_code run); cbn [fst snd world window trace];
        symmetry; apply (app_assoc _ [_] [_]). }
    destruct (run_code (dialogRunOf s)) eqn:Hcode.
    + rewrite (onAddRecipients_keeps_window s (or_intror Hcode)). split; [done|]. by split.
    + rewrite (onAddRecipients_accepted s Hcontact Hcode).
      split; [|by split].
      destruct Hok as (_ & _ & Htype).
      unfold selectionOk.
      cbn [currentContact currentIdentity additionalRecipients
           currentContactType currentGroupId
           set_statusLabel set_recipientsLabel set_additionalRecipients].
      split; [|split].
      * intros Hin. by apply chosen_was_offered in Hin as (_ & Hne & _).
      * intros Hin. by apply chosen_was_offered in Hin as (_ & _ & Hne).
      * destruct (currentContactType (window s)); [done|].
        destruct Htype as [Hnone _]. rewrite Hnone in Hcontact. done.
Qed.

(** [onContactSelected] for a row found in [contactItems], step by step:
    the selection is set, then a contact is marked read and loaded, a group
    is loaded. *)
Lemma onContactSelected_steps (contactItems : gmap QString ContactItem)
    (itemText : QString) (contactItem : ContactItem) (s : Sys W) :
  contactItems !! itemText = Some contactItem ->
  after (onContactSelected contactItems (Some itemText)) s
  = match ci_type contactItem with
    | TYPE_CONTACT =>
        after (loadConversation (ci_name contactItem))
          (MkSys (snd (messenger_mark_conversation_read (ci_name contactItem)
                         (world s)))
             (set_recipientsLabel (ToContacts (ci_name contactItem) [])
                (set_currentGroupId (-1)
                   (set_currentContact (ci_name contactItem)
                      (set_additionalRecipients []
                         (set_currentContactType TYPE_CONTACT (window s))))))
             (trace s ++ [Call_mark_conversation_read (ci_name contactItem)]))
    | TYPE_GROUP =>
        after (loadGroupConversation (ci_groupId contactItem))
          (MkSys (world s)
             (set_recipientsLabel (toGroupText (ci_name contactItem))
                (set_currentGroupId (ci_groupId contactItem)
                   (set_currentContact []
                      (set_additionalRecipients []
                         (set_currentContactType TYPE_GROUP (window s))))))
             (trace s))
    end.
Proof.
  intros Hitem. unfold onContactSelected. rewrite Hitem.
  destruct (ci_type contactItem);
    unfold after, bind, assign, extern; cbn [fst snd world window trace].
  - by destruct (messenger_mark_conversation_read _ _) as [[] w1].
  - done.
Qed.

Lemma stepOk_onContactSelected (contactItems : gmap QString ContactItem)
    (item : option QString) (s : Sys W) :
  stepOk (onContactSelected contactItems item) s.
Proof.
  intros Hok.
  assert (stepOk (ret (W:=W) tt) s) as Hnothing.
  { apply stepOk_quiet, framesAt_ret, sameSelection_refl. }
  destruct item as [itemText|]; [|by apply Hnothing].
  destruct (contactItems !! itemText) as [contactItem|] eqn:Hitem.
  2: { unfold onContactSelected. rewrite Hitem. by apply Hnothing. }
  rewrite (onContactSelected_steps _ _ _ _ Hitem).
  destruct (ci_type contactItem).
  - match goal with |- context [after _ ?s1] =>
      destruct (stepOk_load (Contact (ci_name contactItem)) s1)
        as (H1 & H2 & evs & H3 & H4)
    end; [unfold selectionOk; cbn; intuition|].
    cbn [assemble window trace currentIdentity] in *.
    split; [exact H1|]. split; [exact H2|].
    exists (Call_mark_conversation_read (ci_name contactItem) :: evs).
    split; [by rewrite H3, <- app_assoc | by constructor].
  - match goal with |- context [after _ ?s1] =>
      destruct (stepOk_load (Group (ci_groupId contactItem)) s1) as (H1 & H2 & H3)
    end; [unfold selectionOk; cbn; intuition|].
    cbn [assemble window trace currentIdentity] in *.
    split; [exact H1|]. split; [exact H2 | exact H3].
Qed.

Lemma stepOk_runSlot (a : Slot) (s : Sys W) : stepOk (runSlot a) s.
Proof.
  destruct a; cbn [runSlot].
  - apply stepOk_onContactSelected.
  - apply stepOk_onAddRecipients.
  - apply stepOk_onSendMessage.
  - apply stepOk_checkForNewMessages.
  - apply stepOk_checkForStatusUpdates.
  - apply stepOk_quiet. apply frames_assign. apply sameSelection_input.
Qed.

(** X18.  A click on no row, or on a row [contactItems] does not know,
    changes nothing at all. *)
Theorem selecting_unknown_row (contactItems : gmap QString ContactItem)
    (item : option QString) (s : Sys W) :
  (forall itemText, item = Some itemText -> contactItems !! itemText = None) ->
  onContactSelected contactItems item s = (tt, s).
Proof.
  intros Hunknown. unfold onContactSelected.
  destruct item as [itemText|]; [|done]. by rewrite (Hunknown itemText).
Qed.

(** The selection [onContactSelected] leaves when the row is known. *)
Lemma onContactSelected_known (contactItems : gmap QString ContactItem)
    (itemText : QString) (contactItem : ContactItem) (s : Sys W) :
  contactItems !! itemText = Some contactItem ->
  let g' := window (after (onContactSelected contactItems (Some itemText)) s) in
  additionalRecipients g' = []
  /\ currentContactType g' = ci_type contactItem
  /\ currentContact g'
     = match ci_type contactItem with
       | TYPE_CONTACT => ci_name contactItem
       | TYPE_GROUP => []
       end
  /\ currentGroupId g'
     = match ci_type contactItem with
       | TYPE_CONTACT => -1
       | TYPE_GROUP => ci_groupId contactItem
       end.
Proof.
  intros Hitem g'. subst g'.
  rewrite (onContactSelected_steps _ _ _ _ Hitem).
  destruct (ci_type contactItem).
  - match goal with |- context [after _ ?s1] =>
      destruct (frames_loadConversation redrawn viewEvent redrawn_refl
                  redrawn_trans redrawn_display redrawn_status (fun e He => He)
                  (ci_name contactItem) s1) as [Hredrawn _]
    end.
    pose proof (redrawn_sameSelection _ _ Hredrawn) as (_ & _ & Hc & Hg & Ht & Hm).
    cbn in Hc, Hg, Ht, Hm. by rewrite Hc, Hg, Ht, Hm.
  - match goal with |- context [after _ ?s1] =>
      destruct (frames_loadGroupConversation redrawn viewEvent redrawn_refl
                  redrawn_trans redrawn_display redrawn_status (fun e He => He)
                  (ci_groupId contactItem) s1) as [Hredrawn _]
    end.
    pose proof (redrawn_sameSelection _ _ Hredrawn) as (_ & _ & Hc & Hg & Ht & Hm).
    cbn in Hc, Hg, Ht, Hm. by rewrite Hc, Hg, Ht, Hm.
Qed.

(** X19.  Selecting a known row drops the additional recipients and makes
    the row the target: a contact row sets the current contact and the
    group id -1, marks the conversation read and only then reads it from
    the store; a group row clears the current contact, sets the group id
    and marks nothing read: its events are those of showing the
    conversation.  Either way the display is the one of the
    conversation, as any window of this identity, theme and font scale
    shows it, and no send call is made. *)
Theorem selecting_sets_target (contactItems : gmap QString ContactItem)
    (itemText : QString) (contactItem : ContactItem) (s : Sys W) :
  contactItems !! itemText = Some contactItem ->
  let s' := after (onContactSelected contactItems (Some itemText)) s in
  let g' := window s' in
  let evs := eventsOf (onContactSelected contactItems (Some itemText)) s in
  additionalRecipients g' = []
  /\ currentContactType g' = ci_type contactItem
  /\ selectionOk g'
  /\ Forall notSend evs
  /\ match ci_type contactItem with
     | TYPE_CONTACT =>
         currentContact g' = ci_name contactItem
         /\ currentGroupId g' = -1
         /\ recipientsLabel g' = ToContacts (ci_name contactItem) []
         /\ (exists loading,
               evs = Call_mark_conversation_read (ci_name contactItem) :: loading
               /\ Forall viewEvent loading)
         /\ forall s0,
              world s0 = snd (messenger_mark_conversation_read
                                (ci_name contactItem) (world s)) ->
              currentIdentity (window s0) = currentIdentity (window s) ->
              currentTheme (window s0) = currentTheme (window s) ->
              fontScale (window s0) = fontScale (window s) ->
              messageDisplay g'
              = messageDisplay
                  (window (after (loadConversation (ci_name contactItem)) s0))
     | TYPE_GROUP =>
         currentContact g' = []
         /\ currentGroupId g' = ci_groupId contactItem
         /\ recipientsLabel g' = toGroupText (ci_name contactItem)
         /\ Forall viewEvent evs
         /\ forall s0,
              world s0 = world s ->
              currentIdentity (window s0) = currentIdentity (window s) ->
              currentTheme (window s0) = currentTheme (window s) ->
              fontScale (window s0) = fontScale (window s) ->
              messageDisplay g'
              = messageDisplay
                  (window (after (loadGroupConversation (ci_groupId contactItem)) s0))
     end.
Proof.
  intros Hitem s' g' evs0. subst s' g' evs0. unfold eventsOf.
  rewrite (onContactSelected_steps _ _ _ _ Hitem).
  destruct (ci_type contactItem).
  - match goal with |- context [after _ ?s1] =>
      destruct (frames_loadConversation redrawn viewEvent redrawn_refl
                  redrawn_trans redrawn_display redrawn_status (fun e He => He)
                  (ci_name contactItem) s1) as [Hredrawn (evs & Htrace & Hevs)];
      pose proof (fun s0 Hw Hme Hth Hsc =>
                    assemble_runsAlike
                      (Contact (ci_name contactItem)) s1 s0 Hw Hme Hth Hsc)
        as Halike
    end.
    cbn [world window trace assemble currentIdentity currentTheme fontScale]
      in *.
    rewrite Htrace, <- app_assoc, drop_app_length. cbn [app].
    pose proof (redrawn_sameSelection _ _ Hredrawn) as (_ & _ & Hc & Hg & Ht & Hm).
    cbn in Hc, Hg, Ht, Hm.
    split; [done|]. split; [done|]. split.
    { unfold selectionOk. rewrite Hc, Hg, Ht, Hm. cbn. intuition. }
    split.
    { constructor; [done|].
      eapply Forall_impl; [exact Hevs | exact viewEvent_notSend]. }
    split; [done|]. split; [done|]. split.
    { unfold redrawn in Hredrawn. by rewrite Hredrawn. }
    split; [by exists evs|].
    intros s0 Hw Hme Hth Hsc. symmetry in Hw, Hme, Hth, Hsc.
    by destruct (Halike s0 Hw Hme Hth Hsc) as [(_ & _ & _ & _ & Hshown) _].
  - match goal with |- context [after _ ?s1] =>
      destruct (frames_loadGroupConversation redrawn viewEvent redrawn_refl
                  redrawn_trans redrawn_display redrawn_status (fun e He => He)
                  (ci_groupId contactItem) s1) as [Hredrawn (evs & Htrace & Hevs)];
      pose proof (fun s0 Hw Hme Hth Hsc =>
                    assemble_runsAlike
                      (Group (ci_groupId contactItem)) s1 s0 Hw Hme Hth Hsc)
        as Halike
    end.
    cbn [world window trace assemble currentIdentity currentTheme fontScale]
      in *.
    rewrite Htrace, drop_app_length.
    pose proof (redrawn_sameSelection _ _ Hredrawn) as (_ & _ & Hc & Hg & Ht & Hm).
    cbn in Hc, Hg, Ht, Hm.
    split; [done|]. split; [done|]. split.
    { unfold selectionOk. rewrite Hc, Hg, Ht, Hm. cbn. intuition. }
    split. { eapply Forall_impl; [exact Hevs | exact viewEvent_notSend]. }
    split; [done|]. split; [done|]. split.
    { unfold redrawn in Hredrawn. by rewrite Hredrawn. }
    split; [exact Hevs|].
    intros s0 Hw Hme Hth Hsc. symmetry in Hw, Hme, Hth, Hsc.
    by destruct (Halike s0 Hw Hme Hth Hsc) as [(_ & _ & _ & _ & Hshown) _].
Qed.

(** X20.  In every state a session reaches, the additional recipients hold
    neither the current contact nor the local identity, a contact
    selection has group id -1, a group selection has no current contact and
    no additional recipients; and every send to contacts made so far was
    addressed to a named contact followed by recipients that were neither
    that contact nor the local identity. *)
Theorem session_keeps_selection_in_order (s : Sys W) :
  reachable s ->
  selectionOk (window s)
  /\ Forall (sendOk (currentIdentity (window s))) (trace s).
Proof.
  induction 1 as [identity theme scale w | s w _ IH | s a _ [Hok Hsends]].
  - split; [unfold selectionOk; cbn; intuition | constructor].
  - exact IH.
  - destruct (stepOk_runSlot a s Hok) as (Hok' & Hme & evs & Htrace & Hevs).
    split; [exact Hok'|]. rewrite Htrace, Hme. by apply Forall_app.
Qed.

End Selection.

Lemma selecting_unknown_row_witness :
  onContactSelected More.phoneBook (Some (lit "nobody")) Script.opened
  = (tt, Script.opened).
Proof.
  apply (selecting_unknown_row More.phoneBook (Some (lit "nobody")) Script.opened).
  intros itemText [= <-]. by vm_compute.
Defined.

Lemma selecting_sets_target_witness :
  additionalRecipients
    (window (after (onContactSelected More.phoneBook
                      (Some (bustPrefix ++ Script.bob))) More.sending))
  = [].
Proof.
  assert (More.phoneBook !! (bustPrefix ++ Script.bob)
          = Some {| ci_type := TYPE_CONTACT; ci_name := Script.bob;
                    ci_groupId := -1 |}) as Hitem by (by vm_compute).
  destruct (selecting_sets_target More.phoneBook (bustPrefix ++ Script.bob) _
              More.sending Hitem) as [Hcleared _].
  exact Hcleared.
Defined.

Lemma session_keeps_selection_in_order_witness :
  selectionOk (window More.session)
  /\ Forall (sendOk Script.alice) (trace More.session).
Proof.
  apply (session_keeps_selection_in_order More.session).
  unfold More.session. repeat apply reachable_slot. apply reachable_start.
Defined.

Example session_sends_to_bob_and_carol :
  List.filter (fun e => match e with Call_send_message _ _ => true | _ => false end)
    (trace More.session)
  = [Call_send_message [Script.bob; Script.carol] (lit "hi")].
Proof. by vm_compute. Qed.

(** ** The contact list *)

Lemma prefixes_differ (a b : QString) : bustPrefix ++ a <> groupPrefix ++ b.
Proof. by intros [=]. Qed.

Lemma bustPrefix_inj (a b : QString) : bustPrefix ++ a = bustPrefix ++ b -> a = b.
Proof. by intros [=]. Qed.

Lemma groupPrefix_inj (a b : QString) :
  groupPrefix ++ a = groupPrefix ++ b -> a = b.
Proof. by intros [=]. Qed.

Lemma fold_addContactRow_keeps (l : list QString)
    (acc : list QString * gmap QString ContactItem) (key : QString) :
  (forall c, In c l -> key <> bustPrefix ++ c) ->
  (fold_left addContactRow l acc).2 !! key = acc.2 !! key.
Proof.
  revert acc. induction l as [|c l IH]; intros acc Hkey; simpl; [done|].
  rewrite IH by (intros c' Hc'; apply Hkey; by right).
  unfold addContactRow. cbn [snd].
  apply lookup_insert_ne. intros Heq. by apply (Hkey c); [left|].
Qed.

Lemma fold_addContactRow_lookup (l : list QString)
    (acc : list QString * gmap QString ContactItem) (c : QString) :
  In c l ->
  (fold_left addContactRow l acc).2 !! (bustPrefix ++ c)
  = Some {| ci_type := TYPE_CONTACT; ci_name := c; ci_groupId := -1 |}.
Proof.
  revert acc. induction l as [|x l IH]; intros acc Hin; [done|]. simpl.
  destruct (List.in_dec (List.list_eq_dec N.eq_dec) c l) as [Hlater|Hnot];
    [by apply IH|].
  destruct Hin as [->|Hin]; [|done].
  rewrite fold_addContactRow_keeps.
  - unfold addContactRow. cbn [snd]. apply lookup_insert_eq.
  - intros c' Hc' Heq. apply bustPrefix_inj in Heq. by subst.
Qed.

Lemma fold_addGroupRow_keeps (l : list group_info_t)
    (acc : list QString * gmap QString ContactItem) (key : QString) :
  (forall g, In g l -> key <> groupPrefix ++ gi_name g) ->
  (fold_left addGroupRow l acc).2 !! key = acc.2 !! key.
Proof.
  revert acc. induction l as [|g l IH]; intros acc Hkey; simpl; [done|].
  rewrite IH by (intros g' Hg'; apply Hkey; by right).
  unfold addGroupRow. cbn [snd].
  apply lookup_insert_ne. intros Heq. by apply (Hkey g); [left|].
Qed.

Lemma fold_addContactRow_rows (l : list QString)
    (acc : list QString * gmap QString ContactItem) :
  (fold_left addContactRow l acc).1
  = acc.1 ++ List.map (fun c => bustPrefix ++ c) l.
Proof.
  revert acc. induction l as [|c l IH]; intros acc; simpl.
  - by rewrite app_nil_r.
  - rewrite IH. unfold addContactRow. cbn [fst]. by rewrite <- app_assoc.
Qed.

Lemma fold_addGroupRow_rows (l : list group_info_t)
    (acc : list QString * gmap QString ContactItem) :
  (fold_left addGroupRow l acc).1
  = acc.1 ++ List.map (fun g => groupPrefix ++ gi_name g) l.
Proof.
  revert acc. induction l as [|g l IH]; intros acc; simpl.
  - by rewrite app_nil_r.
  - rewrite IH. unfold addGroupRow. cbn [fst]. by rewrite <- app_assoc.
Qed.

Section ContactRows.

Context {W : Type} `{Messenger W} `{ReadMarker W}.

(** X21.  After [loadContacts] has filled the list from a contact list
    that holds [contact], the row of that contact opens its conversation:
    whatever groups there are, even one of the same name, a click on the
    row makes [contact] the current contact, with group id -1 and no
    additional recipients. *)
Theorem contact_row_opens_contact (identities : list QString)
    (groups : option (list group_info_t)) (contact : QString) (s : Sys W) :
  In contact identities ->
  let filled := fillContacts (Some identities) groups in
  let g' := window (after (onContactSelected filled.2
                             (Some (bustPrefix ++ contact))) s) in
  In (bustPrefix ++ contact) filled.1
  /\ filled.2 !! (bustPrefix ++ contact)
     = Some {| ci_type := TYPE_CONTACT; ci_name := contact; ci_groupId := -1 |}
  /\ currentContact g' = contact
  /\ currentContactType g' = TYPE_CONTACT
  /\ currentGroupId g' = -1
  /\ additionalRecipients g' = [].
Proof.
  intros Hin filled g'. subst filled g'.
  assert ((fillContacts (Some identities) groups).2 !! (bustPrefix ++ contact)
          = Some {| ci_type := TYPE_CONTACT; ci_name := contact;
                    ci_groupId := -1 |}) as Hitem.
  { unfold fillContacts. destruct groups as [gs|].
    - rewrite fold_addGroupRow_keeps by (intros g _; apply prefixes_differ).
      by apply fold_addContactRow_lookup.
    - by apply fold_addContactRow_lookup. }
  split.
  { unfold fillContacts. destruct groups as [gs|].
    - rewrite fold_addGroupRow_rows, fold_addContactRow_rows. cbn [fst app].
      apply in_or_app. left. by apply (in_map (fun c => bustPrefix ++ c)).
    - rewrite fold_addContactRow_rows. cbn [fst app].
      by apply (in_map (fun c => bustPrefix ++ c)). }
  split; [exact Hitem|].
  destruct (onContactSelected_known _ _ _ s Hitem) as (Hmore & Htype & Hc & Hg).
  cbn [ci_type ci_name] in *.
  by repeat split.
Qed.

(** X22.  A group row opens the last group [loadContacts] stored under its
    name: when later groups have other names, a click on the row of a group
    sets its id as current group id and clears the current contact; when two
    groups share a name, both rows open the later one. *)
Theorem group_row_opens_last_group_of_name (identities : option (list QString))
    (before later : list group_info_t) (group : group_info_t) (s : Sys W) :
  (forall g, In g later -> gi_name g <> gi_name group) ->
  let filled := fillContacts identities (Some (before ++ group :: later)) in
  let g' := window (after (onContactSelected filled.2
                             (Some (groupPrefix ++ gi_name group))) s) in
  filled.2 !! (groupPrefix ++ gi_name group)
  = Some {| ci_type := TYPE_GROUP; ci_name := gi_name group;
            ci_groupId := gi_id group |}
  /\ currentContactType g' = TYPE_GROUP
  /\ currentGroupId g' = gi_id group
  /\ currentContact g' = []
  /\ additionalRecipients g' = [].
Proof.
  intros Hlast filled g'. subst filled g'.
  assert ((fillContacts identities (Some (before ++ group :: later))).2
            !! (groupPrefix ++ gi_name group)
          = Some {| ci_type := TYPE_GROUP; ci_name := gi_name group;
                    ci_groupId := gi_id group |}) as Hitem.
  { unfold fillContacts. rewrite fold_left_app. cbn [fold_left].
    rewrite fold_addGroupRow_keeps.
    - unfold addGroupRow at 1. cbn [snd]. apply lookup_insert_eq.
    - intros g Hg Heq. apply groupPrefix_inj in Heq. by apply (Hlast g). }
  split; [exact Hitem|].
  destruct (onContactSelected_known _ _ _ s Hitem) as (Hmore & Htype & Hc & Hg).
  cbn [ci_type ci_name ci_groupId] in *.
  by repeat split.
Qed.

End ContactRows.

Lemma contact_row_opens_contact_witness :
  currentContact
    (window (after (onContactSelected More.phoneBook
                      (Some (bustPrefix ++ Script.carol))) Script.opened))
  = Script.carol.
Proof.
  assert (In Script.carol [Script.alice; Script.bob; Script.carol]) as Hin
    by (right; right; by left).
  destruct (contact_row_opens_contact [Script.alice; Script.bob; Script.carol]
              (Some More.twoGroups) Script.carol Script.opened Hin)
    as (_ & _ & Hcontact & _).
  exact Hcontact.
Defined.

Lemma group_row_opens_last_group_of_name_witness :
  currentGroupId
    (window (after (onContactSelected More.phoneBook
                      (Some (groupPrefix ++ lit "friends"))) Script.opened))
  = 6.
Proof.
  assert (forall g, In g [] -> gi_name g <> lit "friends") as Hlast by done.
  destruct (group_row_opens_last_group_of_name
              (Some [Script.alice; Script.bob; Script.carol])
              [{| gi_id := 5; gi_name := lit "friends" |}] []
              {| gi_id := 6; gi_name := lit "friends" |} Script.opened Hlast)
    as (_ & _ & Hgid & _).
  exact Hgid.
Defined.

(** ** The local identity *)

Lemma upToSlash_app_slash (name rest : QString) :
  Forall (fun c => c <> 47%N) name ->
  upToSlash (name ++ 47%N :: rest) = name.
Proof.
  induction 1 as [|c name Hc _ IH]; simpl; [done|].
  apply N.eqb_neq in Hc. by rewrite Hc, IH.
Qed.

Lemma upToSlash_all (name : QString) :
  Forall (fun c => c <> 47%N) name -> upToSlash name = name.
Proof.
  induction 1 as [|c name Hc _ IH]; simpl; [done|].
  apply N.eqb_neq in Hc. by rewrite Hc, IH.
Qed.

(** The file name of a path is what follows its last slash. *)
Lemma fileName_of_path (dir name : QString) :
  Forall (fun c => c <> 47%N) name ->
  fileName (dir ++ 47%N :: name) = name /\ fileName name = name.
Proof.
  intros Hname. unfold fileName.
  assert (Forall (fun c => c <> 47%N) (rev name)) as Hrev.
  { apply List.Forall_forall. intros c Hc. apply in_rev in Hc.
    rewrite List.Forall_forall in Hname. by apply Hname. }
  split.
  - rewrite rev_app_distr. cbn [rev]. rewrite <- app_assoc. cbn [app].
    by rewrite (upToSlash_app_slash _ _ Hrev), rev_involutive.
  - by rewrite (upToSlash_all _ Hrev), rev_involutive.
Qed.

Lemma endsWith_app (suffix name : QString) : endsWith suffix (name ++ suffix) = true.
Proof.
  unfold endsWith. apply eqb_true.
  rewrite length_app, Nat.add_sub. by rewrite drop_app_length.
Qed.

(** X23.  The identity of a key file is read back from its name: when the
    first path [glob] finds is [dir/identity-dilithium.pqkey] (or that file
    name alone) and the identity has no slash in it, [getLocalIdentity]
    answers the identity, whatever other key files follow. *)
Theorem identity_of_key_file (dir identity : QString) (others : list QString) :
  Forall (fun c => c <> 47%N) identity ->
  getLocalIdentity true
    (Some ((dir ++ 47%N :: identity ++ keySuffix) :: others)) = identity
  /\ getLocalIdentity true (Some ((identity ++ keySuffix) :: others)) = identity.
Proof.
  intros Hid.
  assert (Forall (fun c => c <> 47%N) (identity ++ keySuffix)) as Hname.
  { apply Forall_app. split; [done|]. by repeat constructor. }
  destruct (fileName_of_path dir _ Hname) as [Hpath Hbare].
  unfold getLocalIdentity. cbn [negb]. rewrite Hpath, Hbare, endsWith_app.
  unfold leftOf. rewrite length_app.
  change (length keySuffix) with 16%nat. rewrite Nat.add_sub.
  by rewrite take_app_length.
Qed.

(** X24.  An identity [getLocalIdentity] answers comes from a key file:
    when the answer is not empty, the directory exists, [glob] found a
    path, and the file name of the first path is the answer followed by
    [-dilithium.pqkey]. *)
Theorem identity_comes_from_key_file (dnaDirExists : bool)
    (globResult : option (list QString)) :
  getLocalIdentity dnaDirExists globResult <> [] ->
  dnaDirExists = true
  /\ exists path others,
       globResult = Some (path :: others)
       /\ fileName path = getLocalIdentity dnaDirExists globResult ++ keySuffix.
Proof.
  unfold getLocalIdentity.
  destruct dnaDirExists; cbn [negb]; [|done].
  destruct globResult as [[|path others]|]; try done.
  destruct (endsWith keySuffix (fileName path)) eqn:Hends; [|done].
  intros _. split; [done|]. exists path, others. split; [done|].
  unfold endsWith in Hends. apply eqb_true in Hends.
  unfold leftOf.
  change (length keySuffix) with 16%nat in Hends.
  transitivity (take (length (fileName path) - 16) (fileName path)
                ++ drop (length (fileName path) - 16) (fileName path)).
  - symmetry. apply take_drop.
  - f_equal. exact Hends.
Qed.

Lemma identity_of_key_file_witness :
  getLocalIdentity true
    (Some [lit "/home/alice/.dna/alice-dilithium.pqkey";
           lit "/home/alice/.dna/bob-dilithium.pqkey"])
  = lit "alice".
Proof.
  assert (Forall (fun c => c <> 47%N) (lit "alice")) as Hid
    by (by repeat constructor).
  destruct (identity_of_key_file (lit "/home/alice/.dna") (lit "alice")
              [lit "/home/alice/.dna/bob-dilithium.pqkey"] Hid) as [Hpath _].
  exact Hpath.
Defined.

Lemma identity_comes_from_key_file_witness :
  exists path others,
    Some [lit "keys/carol-dilithium.pqkey"] = Some (path :: others)
    /\ fileName path = lit "carol" ++ keySuffix.
Proof.
  assert (getLocalIdentity true (Some [lit "keys/carol-dilithium.pqkey"]) <> [])
    as Hfound by (by vm_compute).
  destruct (identity_comes_from_key_file true
              (Some [lit "keys/carol-dilithium.pqkey"]) Hfound)
    as (_ & path & others & Hglob & Hname).
  exists path, others. split; [exact Hglob | exact Hname].
Defined.

(** ** The update check *)

Local Ltac compare_numbers :=
  repeat match goal with
         | |- context [?x <? ?y] => destruct (Z.ltb_spec x y)
         | |- context [?x =? ?y] => destruct (Z.eqb_spec x y)
         end; cbn.

Lemma isNewer_irrefl (a : Z * Z * Z) : isNewer a a = false.
Proof.
  destruct a as [[a1 a2] a3]. unfold isNewer.
  compare_numbers; try done; lia.
Qed.

Lemma isNewer_asym (a b : Z * Z * Z) :
  isNewer a b = true -> isNewer b a = false.
Proof.
  destruct a as [[a1 a2] a3], b as [[b1 b2] b3]. unfold isNewer.
  compare_numbers; try done; lia.
Qed.

Lemma isNewer_trans (a b c : Z * Z * Z) :
  isNewer a b = true -> isNewer b c = true -> isNewer a c = true.
Proof.
  destruct a as [[a1 a2] a3], b as [[b1 b2] b3], c as [[c1 c2] c3].
  unfold isNewer.
  compare_numbers; try done; lia.
Qed.

Lemma isNewer_total (a b : Z * Z * Z) :
  a <> b -> isNewer a b = true \/ isNewer b a = true.
Proof.
  destruct a as [[a1 a2] a3], b as [[b1 b2] b3]. unfold isNewer.
  intros Hne. compare_numbers; auto.
  all: exfalso; apply Hne; f_equal; [f_equal|]; lia.
Qed.

(** X25.  "Newer" is a strict order on version numbers: no version is newer
    than itself, of two versions at most one is newer than the other, newer
    than newer is newer, and of two different versions one is newer. *)
Theorem isNewer_strict_order (a b c : Z * Z * Z) :
  isNewer a a = false
  /\ (isNewer a b = true -> isNewer b a = false)
  /\ (isNewer a b = true -> isNewer b c = true -> isNewer a c = true)
  /\ (a <> b -> isNewer a b = true \/ isNewer b a = true).
Proof.
  split; [apply isNewer_irrefl|].
  split; [apply isNewer_asym|].
  split; [apply isNewer_trans | apply isNewer_total].
Qed.

Lemma processOutput_some (output : option QString) :
  processOutput output <> lit "unknown" ->
  exists text, output = Some text.
Proof. destruct output as [text|]; [by exists text | done]. Qed.

Section VersionClaims.

Variable toInt : QString -> Z.

(** X26.  The update check compares versions only when both helper
    processes answered in time with something usable: an update is offered
    only for a README answer with a dot in it and a non-empty commit count,
    the version offered is the two joined by a dot, and its numbers are
    newer than those of the running version.  A process that times out
    never leads to an offer. *)
Theorem update_offered_only_when_newer (currentVersion latestVersion : QString)
    (readme commits : option QString) :
  checkForUpdates toInt currentVersion readme commits
  = UpdateAvailable latestVersion ->
  exists majorMinor patch,
    readme = Some majorMinor /\ commits = Some patch
    /\ containsChar 46%N (trimmed majorMinor) = true
    /\ trimmed patch <> []
    /\ latestVersion = trimmed majorMinor ++ lit "." ++ trimmed patch
    /\ isNewer (versionNumbers toInt latestVersion)
               (versionNumbers toInt currentVersion) = true
    /\ isNewer (versionNumbers toInt currentVersion)
               (versionNumbers toInt latestVersion) = false.
Proof.
  unfold checkForUpdates.
  destruct (Q.eqb (processOutput readme) (lit "unknown")) eqn:Hr1; [done|].
  destruct (isEmpty (processOutput readme)) eqn:Hr2; [done|].
  destruct (containsChar 46%N (processOutput readme)) eqn:Hr3; [|done].
  cbn [orb negb].
  destruct (Q.eqb (processOutput commits) (lit "unknown")) eqn:Hc1; [done|].
  destruct (isEmpty (processOutput commits)) eqn:Hc2; [done|].
  cbn [orb].
  destruct (isNewer _ _) eqn:Hnewer; [|done].
  intros [= <-].
  apply eqb_false in Hr1, Hc1.
  destruct (processOutput_some _ Hr1) as (majorMinor & ->).
  destruct (processOutput_some _ Hc1) as (patch & ->).
  cbn [processOutput] in *.
  exists majorMinor, patch. repeat split; try done.
  - by destruct (trimmed patch).
  - by apply isNewer_asym.
Qed.

Lemma split_no_separator (sep : QChar) (s : QString) :
  Forall (fun c => c <> sep) s -> split sep s = [s].
Proof.
  induction 1 as [|c s Hc _ IH]; simpl; [done|].
  apply N.eqb_neq in Hc. by rewrite Hc, IH.
Qed.

Lemma split_at_separator (sep : QChar) (part rest : QString) :
  Forall (fun c => c <> sep) part ->
  split sep (part ++ sep :: rest) = part :: split sep rest.
Proof.
  induction 1 as [|c part Hc _ IH]; simpl.
  - by rewrite N.eqb_refl.
  - apply N.eqb_neq in Hc. by rewrite Hc, IH.
Qed.

(** The numbers of a version of three dot-free parts are its parts read
    by [toInt]. *)
Lemma versionNumbers_three_parts (major minor patch : QString) :
  Forall (fun c => c <> 46%N) major ->
  Forall (fun c => c <> 46%N) minor ->
  Forall (fun c => c <> 46%N) patch ->
  versionNumbers toInt (major ++ lit "." ++ minor ++ lit "." ++ patch)
  = (toInt major, toInt minor, toInt patch).
Proof.
  intros Hmajor Hminor Hpatch. unfold versionNumbers.
  change (lit ".") with [46%N]. cbn [app].
  by rewrite (split_at_separator _ _ _ Hmajor), (split_at_separator _ _ _ Hminor),
    (split_no_separator _ _ Hpatch).
Qed.

(** X27.  Running the latest version is reported as up to date: when the
    running version is [major.minor.patch], the README answers
    [major.minor] and the commit count is [patch], the check ends with
    "up to date", however [toInt] reads the parts. *)
Theorem latest_version_is_up_to_date (major minor patch : QString) :
  Forall (fun c => c <> 46%N) major ->
  Forall (fun c => c <> 46%N) minor ->
  Forall (fun c => c <> 46%N) patch ->
  trimmed (major ++ lit "." ++ minor) = major ++ lit "." ++ minor ->
  trimmed patch = patch ->
  patch <> [] ->
  patch <> lit "unknown" ->
  checkForUpdates toInt (major ++ lit "." ++ minor ++ lit "." ++ patch)
    (Some (major ++ lit "." ++ minor)) (Some patch)
  = UpToDate.
Proof.
  intros Hmajor Hminor Hpatch Htrim1 Htrim2 Hsome Hknown.
  unfold checkForUpdates. cbn [processOutput]. rewrite Htrim1, Htrim2.
  assert (Q.eqb (major ++ lit "." ++ minor) (lit "unknown") = false) as ->.
  { apply eqb_false. intros Heq.
    assert (In 46%N (lit "unknown")) as Hdot.
    { rewrite <- Heq. apply in_or_app. right. by left. }
    vm_compute in Hdot. intuition discriminate. }
  assert (isEmpty (major ++ lit "." ++ minor) = false) as ->
    by (by destruct major).
  assert (containsChar 46%N (major ++ lit "." ++ minor) = true) as ->.
  { unfold containsChar. apply existsb_exists. exists 46%N.
    split; [|done]. apply in_or_app. right. by left. }
  cbn [orb negb].
  apply eqb_false in Hknown. rewrite Hknown.
  assert (isEmpty patch = false) as -> by (by destruct patch).
  cbn [orb].
  replace ((major ++ lit "." ++ minor) ++ lit "." ++ patch)
    with (major ++ lit "." ++ minor ++ lit "." ++ patch)
    by (by rewrite <- !app_assoc).
  by rewrite isNewer_irrefl.
Qed.

End VersionClaims.

Lemma update_offered_only_when_newer_witness :
  exists majorMinor patch,
    Some (lit "0.1 ") = Some majorMinor /\ Some (lit "120") = Some patch
    /\ lit "0.1.120" = trimmed majorMinor ++ lit "." ++ trimmed patch.
Proof.
  assert (checkForUpdates More.digitsToInt (lit "0.1.97")
            (Some (lit "0.1 ")) (Some (lit "120"))
          = UpdateAvailable (lit "0.1.120")) as Hoffer by (by vm_compute).
  destruct (update_offered_only_when_newer More.digitsToInt _ _ _ _ Hoffer)
    as (majorMinor & patch & Hr & Hc & _ & _ & Hlatest & _).
  by exists majorMinor, patch.
Defined.

Lemma latest_version_is_up_to_date_witness :
  checkForUpdates More.digitsToInt (lit "0.1.120")
    (Some (lit "0.1")) (Some (lit "120"))
  = UpToDate.
Proof.
  apply (latest_version_is_up_to_date More.digitsToInt
           (lit "0") (lit "1") (lit "120"));
    try (by repeat constructor); by vm_compute.
Defined.
